(** * ODLab detection models: matchers, heads, FPN neck, PlainDETR transformer

    A shallow embedding of the parts of the repository the specification
    speaks about, and the theorems that settle each of its claims.

    Conventions.  In the matchers and the FCOS head, tensor entries are
    rationals ([Q]); the RetinaNet decoder exponentiates and is stated over
    the real numbers.  The matchers are read in exact arithmetic, and
    equalities between computed rational entries are stated with [==].  The
    two box decoders are read both in exact arithmetic and with every
    operation rounded, the rounding being a parameter; [Float32.round] is
    rounding to the nearest float32.  Infinities and NaN are outside the
    model.  A tensor of shape [N, 4] of boxes
    is a [list box]; a tensor of shape [N, M] is a list of N rows of length M,
    read with [entry].  The layers of the neck and of the transformer are
    abstract functions on an abstract tensor type; [pos2posembed] is modelled
    on tensor shapes. *)

From Stdlib Require Import List ZArith QArith Qminmax Qabs Reals Qreals Lia Psatz Bool
  PeanoNat Permutation Sorted.
From Stdlib Require String Ascii.
Import ListNotations.

(* ================================================================== *)
(** ** Tensors as lists *)
(* ================================================================== *)

Module Tensor.

(** Elementwise binary operation on two tensors of the same length. *)
Fixpoint zipWith {A B C : Type} (f : A -> B -> C) (xs : list A) (ys : list B) : list C :=
  match xs, ys with
  | x :: xs', y :: ys' => f x y :: zipWith f xs' ys'
  | _, _ => []
  end.

(** [a[:, None] (op) b]: broadcasting a column against a row. *)
Definition outer {A B C : Type} (f : A -> B -> C) (xs : list A) (ys : list B) : list (list C) :=
  map (fun x => map (f x) ys) xs.

Definition mmap {A B : Type} (f : A -> B) (m : list (list A)) : list (list B) :=
  map (map f) m.

Definition mzip {A B C : Type} (f : A -> B -> C) (m1 : list (list A)) (m2 : list (list B)) : list (list C) :=
  zipWith (zipWith f) m1 m2.

(** [m[i, j]], with a default outside the shape. *)
Definition entry {A : Type} (d : A) (m : list (list A)) (i j : nat) : A :=
  nth j (nth i m []) d.

(** [m[:, j]]. *)
Definition column {A : Type} (d : A) (m : list (list A)) (j : nat) : list A :=
  map (fun row => nth j row d) m.

(** [new_full(shape, v)] for a one-dimensional shape. *)
Definition full {A : Type} (n : nat) (v : A) : list A := repeat v n.

(** [t[i] = v] on a list; Python raises out of range, which the callers below
    exclude, and the model leaves the list unchanged there. *)
Fixpoint set_nth {A : Type} (i : nat) (v : A) (l : list A) : list A :=
  match l, i with
  | [], _ => []
  | _ :: l', O => v :: l'
  | x :: l', S i' => x :: set_nth i' v l'
  end.

Lemma zipWith_length {A B C} (f : A -> B -> C) xs ys :
  length (zipWith f xs ys) = Nat.min (length xs) (length ys).
Proof.
  revert ys; induction xs as [|x xs IH]; intros [|y ys]; simpl; auto.
Qed.

Lemma nth_zipWith {A B C} (f : A -> B -> C) xs ys i da db dc :
  (i < length xs)%nat -> (i < length ys)%nat ->
  nth i (zipWith f xs ys) dc = f (nth i xs da) (nth i ys db).
Proof.
  revert ys i; induction xs as [|x xs IH]; intros [|y ys] [|i] Hx Hy;
    simpl in *; try lia; auto.
  apply IH; lia.
Qed.

Lemma nth_map_in {A B} (f : A -> B) l i da db :
  (i < length l)%nat -> nth i (map f l) db = f (nth i l da).
Proof.
  intros H. rewrite (nth_indep _ db (f da)) by (rewrite length_map; exact H).
  apply map_nth.
Qed.

Lemma entry_outer {A B C} (f : A -> B -> C) xs ys i j da db dc :
  (i < length xs)%nat -> (j < length ys)%nat ->
  entry dc (outer f xs ys) i j = f (nth i xs da) (nth j ys db).
Proof.
  intros Hi Hj. unfold entry, outer.
  rewrite nth_map_in with (da := da) by exact Hi.
  apply nth_map_in; exact Hj.
Qed.

Lemma outer_row_length {A B C} (f : A -> B -> C) xs ys i :
  (i < length xs)%nat -> length (nth i (outer f xs ys) []) = length ys.
Proof.
  intros Hi. unfold outer.
  destruct xs as [|x0 xs']; [simpl in Hi; lia|].
  rewrite nth_map_in with (da := x0) by exact Hi. apply length_map.
Qed.

Lemma entry_mzip {A B C} (f : A -> B -> C) m1 m2 i j da db dc :
  (i < length m1)%nat -> (i < length m2)%nat ->
  (j < length (nth i m1 []))%nat -> (j < length (nth i m2 []))%nat ->
  entry dc (mzip f m1 m2) i j = f (entry da m1 i j) (entry db m2 i j).
Proof.
  intros H1 H2 H3 H4. unfold entry, mzip.
  rewrite nth_zipWith with (da := []) (db := []) by assumption.
  apply nth_zipWith; assumption.
Qed.

Lemma mzip_row_length {A B C} (f : A -> B -> C) m1 m2 i :
  (i < length m1)%nat -> (i < length m2)%nat ->
  length (nth i (mzip f m1 m2) []) =
  Nat.min (length (nth i m1 [])) (length (nth i m2 [])).
Proof.
  intros H1 H2. unfold mzip.
  rewrite nth_zipWith with (da := []) (db := []) by assumption.
  apply zipWith_length.
Qed.

Lemma entry_mmap {A B} (f : A -> B) m i j da db :
  (i < length m)%nat -> (j < length (nth i m []))%nat ->
  entry db (mmap f m) i j = f (entry da m i j).
Proof.
  intros Hi Hj. unfold entry, mmap.
  rewrite nth_map_in with (da := []) by exact Hi.
  apply nth_map_in; exact Hj.
Qed.

Lemma mmap_row_length {A B} (f : A -> B) m i :
  (i < length m)%nat -> length (nth i (mmap f m) []) = length (nth i m []).
Proof.
  intros Hi. unfold mmap. rewrite nth_map_in with (da := []) by exact Hi.
  apply length_map.
Qed.

Lemma set_nth_length {A} i (v : A) l : length (set_nth i v l) = length l.
Proof.
  revert i; induction l as [|x l IH]; intros [|i]; simpl; auto.
Qed.

Lemma nth_set_nth_eq {A} i (v d : A) l :
  (i < length l)%nat -> nth i (set_nth i v l) d = v.
Proof.
  revert i; induction l as [|x l IH]; intros [|i] H; simpl in *; try lia; auto.
  apply IH; lia.
Qed.

Lemma nth_set_nth_neq {A} i j (v d : A) l :
  i <> j -> nth j (set_nth i v l) d = nth j l d.
Proof.
  revert i j; induction l as [|x l IH]; intros [|i] [|j] H; simpl; auto.
  congruence.
Qed.

End Tensor.

Import Tensor.

(* ================================================================== *)
(** ** Boxes and IoU (models/detectors/yolofv2/matcher.py) *)
(* ================================================================== *)

Module Boxes.

Open Scope Q_scope.

(** A row of a [*, 4] tensor in (x1, y1, x2, y2) form. *)
Record box : Type := mkBox { bx1 : Q; by1 : Q; bx2 : Q; by2 : Q }.

(** A row of a [*, 2] tensor. *)
Record point : Type := mkPoint { px : Q; py : Q }.

Definition zero_box : box := mkBox 0 0 0 0.

Definition well_formed (b : box) : Prop := bx1 b <= bx2 b /\ by1 b <= by2 b.

(** [b[:2]] and [b[2:]]. *)
Definition lo (b : box) : point := mkPoint (bx1 b) (by1 b).
Definition hi (b : box) : point := mkPoint (bx2 b) (by2 b).

Definition pmax (p q : point) : point := mkPoint (Qmax (px p) (px q)) (Qmax (py p) (py q)).
Definition pmin (p q : point) : point := mkPoint (Qmin (px p) (px q)) (Qmin (py p) (py q)).
Definition psub (p q : point) : point := mkPoint (px p - px q) (py p - py q).
Definition padd (p q : point) : point := mkPoint (px p + px q) (py p + py q).

(** [.clamp(min=0)]. *)
Definition clamp_min0 (p : point) : point := mkPoint (Qmax (px p) 0) (Qmax (py p) 0).

(** torchvision's [box_area]: (x2 - x1) * (y2 - y1). *)
Definition box_area (b : box) : Q := (bx2 b - bx1 b) * (by2 b - by1 b).

(** The intermediate [inter] tensor of [box_iou]. *)
Definition box_inter (boxes1 boxes2 : list box) : list (list Q) :=
  let lt := outer pmax (map lo boxes1) (map lo boxes2) in
  let rb := outer pmin (map hi boxes1) (map hi boxes2) in
  let wh := mmap clamp_min0 (mzip psub rb lt) in
  mmap (fun p => px p * py p) wh.

Definition box_iou (boxes1 boxes2 : list box) : list (list Q) * list (list Q) :=
  let area1 := map box_area boxes1 in
  let area2 := map box_area boxes2 in
  let inter := box_inter boxes1 boxes2 in
  let union := mzip Qminus (outer Qplus area1 area2) inter in
  let iou := mzip Qdiv inter union in
  (iou, union).

(** The intersection area as the specification words it. *)
Definition inter_area (b1 b2 : box) : Q :=
  Qmax 0 (Qmin (bx2 b1) (bx2 b2) - Qmax (bx1 b1) (bx1 b2)) *
  Qmax 0 (Qmin (by2 b1) (by2 b2) - Qmax (by1 b1) (by1 b2)).

Lemma box_inter_row_length boxes1 boxes2 i :
  (i < length boxes1)%nat ->
  length (nth i (box_inter boxes1 boxes2) []) = length boxes2.
Proof.
  intros Hi. unfold box_inter.
  assert (Ho : forall (f : point -> point -> point) (g : box -> point),
             length (nth i (outer f (map g boxes1) (map g boxes2)) []) = length boxes2).
  { intros f g. rewrite outer_row_length by (rewrite length_map; exact Hi).
    apply length_map. }
  assert (Hl : forall (f : point -> point -> point) (g : box -> point),
             length (outer f (map g boxes1) (map g boxes2)) = length boxes1).
  { intros f g. unfold outer. now rewrite !length_map. }
  rewrite !mmap_row_length.
  - rewrite mzip_row_length by (rewrite Hl; exact Hi). rewrite !Ho. apply Nat.min_id.
  - unfold mzip. rewrite zipWith_length, !Hl, Nat.min_id. exact Hi.
  - unfold mmap, mzip. rewrite length_map, zipWith_length, !Hl, Nat.min_id. exact Hi.
Qed.

Lemma box_inter_length boxes1 boxes2 :
  length (box_inter boxes1 boxes2) = length boxes1.
Proof.
  unfold box_inter, mmap, mzip, outer.
  rewrite !length_map, zipWith_length, !length_map. apply Nat.min_id.
Qed.

Lemma box_inter_entry boxes1 boxes2 i j :
  (i < length boxes1)%nat -> (j < length boxes2)%nat ->
  entry 0 (box_inter boxes1 boxes2) i j ==
  inter_area (nth i boxes1 zero_box) (nth j boxes2 zero_box).
Proof.
  intros Hi Hj. unfold box_inter.
  set (lt := outer pmax _ _). set (rb := outer pmin _ _).
  assert (Hlt : length lt = length boxes1) by (unfold lt, outer; now rewrite !length_map).
  assert (Hrb : length rb = length boxes1) by (unfold rb, outer; now rewrite !length_map).
  assert (Hlti : length (nth i lt []) = length boxes2).
  { unfold lt. rewrite outer_row_length by (rewrite length_map; exact Hi). apply length_map. }
  assert (Hrbi : length (nth i rb []) = length boxes2).
  { unfold rb. rewrite outer_row_length by (rewrite length_map; exact Hi). apply length_map. }
  assert (Hz : length (mzip psub rb lt) = length boxes1).
  { unfold mzip. rewrite zipWith_length. lia. }
  assert (Hzi : length (nth i (mzip psub rb lt) []) = length boxes2).
  { rewrite mzip_row_length by lia. lia. }
  rewrite entry_mmap with (da := mkPoint 0 0).
  2:{ unfold mmap. rewrite length_map. lia. }
  2:{ rewrite mmap_row_length by lia. lia. }
  rewrite entry_mmap with (da := mkPoint 0 0) by lia.
  rewrite entry_mzip with (da := mkPoint 0 0) (db := mkPoint 0 0) by lia.
  unfold rb, lt.
  rewrite entry_outer with (f := pmin) (da := hi zero_box) (db := hi zero_box)
    by (rewrite length_map; assumption).
  rewrite entry_outer with (f := pmax) (da := lo zero_box) (db := lo zero_box)
    by (rewrite length_map; assumption).
  rewrite !(map_nth lo), !(map_nth hi).
  unfold inter_area, clamp_min0, psub, pmin, pmax, hi, lo; simpl.
  rewrite !(Q.max_comm _ 0). reflexivity.
Qed.

Lemma box_iou_shape boxes1 boxes2 i :
  (i < length boxes1)%nat ->
  let (iou, union) := box_iou boxes1 boxes2 in
  length iou = length boxes1 /\ length union = length boxes1 /\
  length (nth i iou []) = length boxes2 /\ length (nth i union []) = length boxes2.
Proof.
  intros Hi. unfold box_iou.
  set (inter := box_inter boxes1 boxes2).
  set (sum := outer Qplus (map box_area boxes1) (map box_area boxes2)).
  assert (Hin : length inter = length boxes1) by apply box_inter_length.
  assert (Hini : length (nth i inter []) = length boxes2)
    by (apply box_inter_row_length; exact Hi).
  assert (Hs : length sum = length boxes1) by (unfold sum, outer; now rewrite !length_map).
  assert (Hsi : length (nth i sum []) = length boxes2).
  { unfold sum. rewrite outer_row_length by (rewrite length_map; exact Hi). apply length_map. }
  assert (Hu : length (mzip Qminus sum inter) = length boxes1).
  { unfold mzip. rewrite zipWith_length. lia. }
  assert (Hui : length (nth i (mzip Qminus sum inter) []) = length boxes2).
  { rewrite mzip_row_length by lia. lia. }
  repeat split; try assumption.
  - unfold mzip at 1. rewrite zipWith_length. lia.
  - rewrite mzip_row_length by lia. lia.
Qed.

Lemma clamped_extent_bounds (l1 h1 l2 h2 : Q) :
  l1 <= h1 -> l2 <= h2 ->
  let e := Qmax 0 (Qmin h1 h2 - Qmax l1 l2) in
  0 <= e /\ e <= h1 - l1 /\ e <= h2 - l2.
Proof.
  intros H1 H2 e. unfold e.
  pose proof (Q.le_min_l h1 h2). pose proof (Q.le_min_r h1 h2).
  pose proof (Q.le_max_l l1 l2). pose proof (Q.le_max_r l1 l2).
  repeat split.
  - apply Q.le_max_l.
  - apply Q.max_lub; lra.
  - apply Q.max_lub; lra.
Qed.

Lemma box_area_nonneg (b : box) : well_formed b -> 0 <= box_area b.
Proof.
  intros [Hx Hy]. unfold box_area. apply Qmult_le_0_compat; lra.
Qed.

Lemma inter_area_bounds (b1 b2 : box) :
  well_formed b1 -> well_formed b2 ->
  0 <= inter_area b1 b2 /\
  inter_area b1 b2 <= box_area b1 /\ inter_area b1 b2 <= box_area b2.
Proof.
  intros [Hx1 Hy1] [Hx2 Hy2]. unfold inter_area, box_area.
  destruct (clamped_extent_bounds _ _ _ _ Hx1 Hx2) as (Hw0 & Hw1 & Hw2).
  destruct (clamped_extent_bounds _ _ _ _ Hy1 Hy2) as (Hh0 & Hh1 & Hh2).
  cbv zeta in *.
  set (w := Qmax 0 _) in *. set (h := Qmax 0 _) in *.
  repeat split.
  - apply Qmult_le_0_compat; assumption.
  - apply Qmult_le_compat_nonneg; split; assumption.
  - apply Qmult_le_compat_nonneg; split; assumption.
Qed.

(** C2.  For well-formed boxes, [box_iou] returns the matrices of pairwise IoU
    and union area: at every pair (i, j) the intersection is the product of
    the clamped overlaps of the two extents, the union is
    area1 + area2 - inter, the IoU is their quotient, and whenever the union
    is positive the IoU lies in [0, 1]. *)
Theorem box_iou_entries (boxes1 boxes2 : list box) (i j : nat) :
  Forall well_formed boxes1 -> Forall well_formed boxes2 ->
  (i < length boxes1)%nat -> (j < length boxes2)%nat ->
  let b1 := nth i boxes1 zero_box in
  let b2 := nth j boxes2 zero_box in
  let inter := entry 0 (box_inter boxes1 boxes2) i j in
  let iou := entry 0 (fst (box_iou boxes1 boxes2)) i j in
  let union := entry 0 (snd (box_iou boxes1 boxes2)) i j in
  inter == inter_area b1 b2 /\
  union == box_area b1 + box_area b2 - inter /\
  iou == inter / union /\
  (0 < union -> 0 <= iou /\ iou <= 1).
Proof.
  intros W1 W2 Hi Hj b1 b2 inter iou union.
  assert (Wb1 : well_formed b1).
  { apply (proj1 (Forall_forall _ _) W1). apply nth_In; exact Hi. }
  assert (Wb2 : well_formed b2).
  { apply (proj1 (Forall_forall _ _) W2). apply nth_In; exact Hj. }
  assert (Einter : inter == inter_area b1 b2) by (apply box_inter_entry; assumption).
  pose proof (box_inter_length boxes1 boxes2) as Lin.
  pose proof (box_inter_row_length boxes1 boxes2 i Hi) as Lini.
  set (sum := outer Qplus (map box_area boxes1) (map box_area boxes2)).
  assert (Ls : length sum = length boxes1) by (unfold sum, outer; now rewrite !length_map).
  assert (Lsi : length (nth i sum []) = length boxes2).
  { unfold sum. rewrite outer_row_length by (rewrite length_map; exact Hi). apply length_map. }
  assert (Eunion : union = box_area b1 + box_area b2 - inter).
  { unfold union, box_iou; simpl. fold sum.
    rewrite entry_mzip with (da := 0) (db := 0) by lia.
    unfold sum.
    rewrite entry_outer with (da := box_area zero_box) (db := box_area zero_box)
      by (rewrite length_map; assumption).
    now rewrite !(map_nth box_area). }
  assert (Eiou : iou = inter / union).
  { unfold iou, union, box_iou; simpl. fold sum.
    assert (length (mzip Qminus sum (box_inter boxes1 boxes2)) = length boxes1)
      by (unfold mzip; rewrite zipWith_length; lia).
    assert (length (nth i (mzip Qminus sum (box_inter boxes1 boxes2)) []) = length boxes2)
      by (rewrite mzip_row_length by lia; lia).
    rewrite entry_mzip with (da := 0) (db := 0) by lia. reflexivity. }
  destruct (inter_area_bounds b1 b2 Wb1 Wb2) as (I0 & I1 & I2).
  pose proof (box_area_nonneg b1 Wb1) as A1.
  repeat split.
  - exact Einter.
  - rewrite Eunion. reflexivity.
  - rewrite Eiou. reflexivity.
  - rewrite Eiou. apply Qle_shift_div_l; [assumption|]. rewrite Einter. lra.
  - rewrite Eiou. apply Qle_shift_div_r; [assumption|].
    rewrite Eunion, Einter. lra.
Qed.

(** The bound of C2 at a pair of unit-offset squares: the IoU is 1/7. *)
Lemma box_iou_entries_witness :
  let boxes1 := [mkBox 0 0 2 2] in
  let boxes2 := [mkBox 1 1 3 3; mkBox 5 5 6 6] in
  let iou := entry 0 (fst (box_iou boxes1 boxes2)) 0 0 in
  let union := entry 0 (snd (box_iou boxes1 boxes2)) 0 0 in
  union == 7 /\ iou == 1 # 7 /\ 0 <= iou /\ iou <= 1.
Proof.
  intros boxes1 boxes2 iou union.
  assert (W1 : Forall well_formed boxes1).
  { repeat constructor; simpl; lra. }
  assert (W2 : Forall well_formed boxes2).
  { repeat constructor; simpl; lra. }
  assert (Hi : (0 < length boxes1)%nat) by (simpl; lia).
  assert (Hj : (0 < length boxes2)%nat) by (simpl; lia).
  destruct (@box_iou_entries boxes1 boxes2 0 0 W1 W2 Hi Hj) as (_ & _ & _ & Hb).
  assert (Hu : union == 7) by (vm_compute; reflexivity).
  assert (Hpos : 0 < union) by (vm_compute; reflexivity).
  destruct (Hb Hpos) as [H0 H1].
  split; [exact Hu|]. split; [vm_compute; reflexivity|]. split; assumption.
Defined.

(** *** Further facts about box_iou *)

Lemma box_iou_entry_eq (boxes1 boxes2 : list box) (i j : nat) :
  (i < length boxes1)%nat -> (j < length boxes2)%nat ->
  let b1 := nth i boxes1 zero_box in
  let b2 := nth j boxes2 zero_box in
  let u := box_area b1 + box_area b2 - inter_area b1 b2 in
  entry 0 (snd (box_iou boxes1 boxes2)) i j == u /\
  entry 0 (fst (box_iou boxes1 boxes2)) i j == inter_area b1 b2 / u.
Proof.
  intros Hi Hj b1 b2 u.
  pose proof (box_inter_entry boxes1 boxes2 i j Hi Hj) as Einter.
  pose proof (box_inter_length boxes1 boxes2) as Lin.
  pose proof (box_inter_row_length boxes1 boxes2 i Hi) as Lini.
  set (sum := outer Qplus (map box_area boxes1) (map box_area boxes2)).
  assert (Ls : length sum = length boxes1) by (unfold sum, outer; now rewrite !length_map).
  assert (Lsi : length (nth i sum []) = length boxes2).
  { unfold sum. rewrite outer_row_length by (rewrite length_map; exact Hi). apply length_map. }
  assert (Eunion : entry 0 (snd (box_iou boxes1 boxes2)) i j == u).
  { unfold box_iou; simpl. fold sum.
    rewrite entry_mzip with (da := 0) (db := 0) by lia.
    unfold sum.
    rewrite entry_outer with (da := box_area zero_box) (db := box_area zero_box)
      by (rewrite length_map; assumption).
    rewrite !(map_nth box_area). fold b1 b2. unfold u. now rewrite Einter. }
  split; [exact Eunion|].
  unfold box_iou in *; simpl in *. fold sum in Eunion |- *.
  assert (length (mzip Qminus sum (box_inter boxes1 boxes2)) = length boxes1)
    by (unfold mzip; rewrite zipWith_length; lia).
  assert (length (nth i (mzip Qminus sum (box_inter boxes1 boxes2)) []) = length boxes2)
    by (rewrite mzip_row_length by lia; lia).
  rewrite entry_mzip with (da := 0) (db := 0) by lia.
  now rewrite Einter, Eunion.
Qed.

Lemma inter_area_comm (b1 b2 : box) : inter_area b1 b2 == inter_area b2 b1.
Proof.
  unfold inter_area.
  rewrite (Q.min_comm (bx2 b1)), (Q.max_comm (bx1 b1)),
          (Q.min_comm (by2 b1)), (Q.max_comm (by1 b1)).
  reflexivity.
Qed.

Lemma inter_area_self (b : box) : well_formed b -> inter_area b b == box_area b.
Proof.
  intros [Hx Hy]. unfold inter_area, box_area.
  rewrite !Q.min_id, !Q.max_id.
  rewrite !Q.max_r by lra. reflexivity.
Qed.

(** IoU is symmetric: swapping the two lists of boxes transposes both
    returned matrices (an entry whose union is 0 is the same 0/0 on both
    sides). *)
Theorem box_iou_symmetric (boxes1 boxes2 : list box) (i j : nat) :
  (i < length boxes1)%nat -> (j < length boxes2)%nat ->
  entry 0 (fst (box_iou boxes1 boxes2)) i j == entry 0 (fst (box_iou boxes2 boxes1)) j i /\
  entry 0 (snd (box_iou boxes1 boxes2)) i j == entry 0 (snd (box_iou boxes2 boxes1)) j i.
Proof.
  intros Hi Hj.
  destruct (box_iou_entry_eq boxes1 boxes2 i j Hi Hj) as [U1 I1].
  destruct (box_iou_entry_eq boxes2 boxes1 j i Hj Hi) as [U2 I2].
  cbv zeta in *.
  assert (E : box_area (nth i boxes1 zero_box) + box_area (nth j boxes2 zero_box) -
              inter_area (nth i boxes1 zero_box) (nth j boxes2 zero_box) ==
              box_area (nth j boxes2 zero_box) + box_area (nth i boxes1 zero_box) -
              inter_area (nth j boxes2 zero_box) (nth i boxes1 zero_box)).
  { rewrite (inter_area_comm (nth i boxes1 zero_box)). ring. }
  split.
  - rewrite I1, I2, E, (inter_area_comm (nth i boxes1 zero_box)). reflexivity.
  - rewrite U1, U2. exact E.
Qed.

Lemma box_iou_symmetric_witness :
  entry 0 (fst (box_iou [mkBox 0 0 2 2] [mkBox 5 5 6 6; mkBox 1 1 3 3])) 0 1 ==
  entry 0 (fst (box_iou [mkBox 5 5 6 6; mkBox 1 1 3 3] [mkBox 0 0 2 2])) 1 0.
Proof.
  exact (proj1 (box_iou_symmetric [mkBox 0 0 2 2] [mkBox 5 5 6 6; mkBox 1 1 3 3] 0 1
                  (le_n 1) (le_n 2))).
Defined.

(** A well-formed box of positive area has IoU 1 with itself, and union equal
    to its area. *)
Theorem box_iou_self (boxes : list box) (i : nat) :
  (i < length boxes)%nat ->
  well_formed (nth i boxes zero_box) -> 0 < box_area (nth i boxes zero_box) ->
  entry 0 (fst (box_iou boxes boxes)) i i == 1 /\
  entry 0 (snd (box_iou boxes boxes)) i i == box_area (nth i boxes zero_box).
Proof.
  intros Hi Hw Hpos.
  destruct (box_iou_entry_eq boxes boxes i i Hi Hi) as [U I]. cbv zeta in *.
  rewrite (inter_area_self _ Hw) in U, I.
  assert (E : box_area (nth i boxes zero_box) + box_area (nth i boxes zero_box) -
              box_area (nth i boxes zero_box) == box_area (nth i boxes zero_box)) by ring.
  rewrite E in U, I. split; [|exact U].
  rewrite I. apply Qmult_inv_r. intros Hz. rewrite Hz in Hpos. discriminate.
Qed.

Lemma box_iou_self_witness :
  entry 0 (fst (box_iou [mkBox 0 0 2 2; mkBox 1 1 4 3] [mkBox 0 0 2 2; mkBox 1 1 4 3])) 1 1 == 1.
Proof.
  refine (proj1 (box_iou_self [mkBox 0 0 2 2; mkBox 1 1 4 3] 1 (le_n 2) _ _)).
  - split; simpl; discriminate.
  - reflexivity.
Defined.

(** Boxes whose extents do not overlap on one axis have empty intersection
    and, when their union is positive, IoU 0. *)
Theorem box_iou_disjoint (boxes1 boxes2 : list box) (i j : nat) :
  (i < length boxes1)%nat -> (j < length boxes2)%nat ->
  let b1 := nth i boxes1 zero_box in
  let b2 := nth j boxes2 zero_box in
  bx2 b1 <= bx1 b2 \/ bx2 b2 <= bx1 b1 \/ by2 b1 <= by1 b2 \/ by2 b2 <= by1 b1 ->
  entry 0 (box_inter boxes1 boxes2) i j == 0 /\
  entry 0 (snd (box_iou boxes1 boxes2)) i j == box_area b1 + box_area b2 /\
  (0 < box_area b1 + box_area b2 -> entry 0 (fst (box_iou boxes1 boxes2)) i j == 0).
Proof.
  intros Hi Hj b1 b2 Hd.
  destruct (box_iou_entry_eq boxes1 boxes2 i j Hi Hj) as [U I]. cbv zeta in *.
  fold b1 b2 in U, I.
  assert (Z0 : inter_area b1 b2 == 0).
  { unfold inter_area.
    pose proof (Q.le_min_l (bx2 b1) (bx2 b2)). pose proof (Q.le_min_r (bx2 b1) (bx2 b2)).
    pose proof (Q.le_max_l (bx1 b1) (bx1 b2)). pose proof (Q.le_max_r (bx1 b1) (bx1 b2)).
    pose proof (Q.le_min_l (by2 b1) (by2 b2)). pose proof (Q.le_min_r (by2 b1) (by2 b2)).
    pose proof (Q.le_max_l (by1 b1) (by1 b2)). pose proof (Q.le_max_r (by1 b1) (by1 b2)).
    destruct Hd as [Hd|[Hd|[Hd|Hd]]].
    - rewrite (Q.max_l 0 (Qmin (bx2 b1) (bx2 b2) - _)) by lra. ring.
    - rewrite (Q.max_l 0 (Qmin (bx2 b1) (bx2 b2) - _)) by lra. ring.
    - rewrite (Q.max_l 0 (Qmin (by2 b1) (by2 b2) - _)) by lra. ring.
    - rewrite (Q.max_l 0 (Qmin (by2 b1) (by2 b2) - _)) by lra. ring. }
  split; [rewrite (box_inter_entry boxes1 boxes2 i j Hi Hj); exact Z0|].
  split.
  - rewrite U, Z0. ring.
  - intros _. rewrite I, Z0. unfold Qdiv. ring.
Qed.

Lemma box_iou_disjoint_witness :
  entry 0 (fst (box_iou [mkBox 0 0 2 2] [mkBox 2 0 4 2])) 0 0 == 0.
Proof.
  refine (proj2 (proj2 (box_iou_disjoint [mkBox 0 0 2 2] [mkBox 2 0 4 2] 0 0
                          (le_n 1) (le_n 1) _)) _).
  - left. simpl. discriminate.
  - reflexivity.
Defined.


End Boxes.

Import Boxes.

(* ================================================================== *)
(** ** Label assignment (models/detectors/yolofv2/matcher.py) *)
(* ================================================================== *)

Module Matcher.

Open Scope Q_scope.

(** [x < y] on tensor entries, as a boolean. *)
Definition Qltb (x y : Q) : bool := negb (Qle_bool y x).

(** [.min(dim=-1).values] of a non-empty last dimension. *)
Definition min_values (d : list Q) : Q :=
  match d with
  | [] => 0
  | x :: r => fold_left Qmin r x
  end.

(** [torch.cat([lt, rb], dim=-1)] on two [*, 2] rows. *)
Definition cat2 (lt rb : point) : list Q := [px lt; py lt; px rb; py rb].

(** [t.sum(dim=0)] of an [N, M] tensor, given M. *)
Definition sum0 (m : list (list nat)) (ncols : nat) : list nat :=
  map (fun j => list_sum (column 0%nat m j)) (seq 0 ncols).

Definition bool_to_nat (b : bool) : nat := if b then 1%nat else 0%nat.

(** [t.size(1)]; the matrices below have at least one row where it is read. *)
Definition size1 {A : Type} (m : list (list A)) : nat :=
  match m with
  | [] => 0%nat
  | r :: _ => length r
  end.

(** [is_in_gt.sum(dim=0) > 0]. *)
Definition valid_mask (is_in_gt : list (list bool)) (num_anchors : nat) : list bool :=
  map (fun s => (0 <? s)%nat) (sum0 (mmap bool_to_nat is_in_gt) num_anchors).

(** An anchor strictly inside a box, and an anchor on one of the four lines
    that carry the box's boundary. *)
Definition strictly_inside (g : box) (a : point) : Prop :=
  bx1 g < px a /\ px a < bx2 g /\ by1 g < py a /\ py a < by2 g.

Definition on_boundary_line (g : box) (a : point) : Prop :=
  px a == bx1 g \/ px a == bx2 g \/ py a == by1 g \/ py a == by2 g.

Lemma Qltb_lt (x y : Q) : Qltb x y = true <-> x < y.
Proof.
  unfold Qltb. rewrite negb_true_iff, <- not_true_iff_false, Qle_bool_iff.
  split; [apply Qnot_le_lt | apply Qlt_not_le].
Qed.

Lemma min_values_cat2_pos (lt rb : point) :
  0 < min_values (cat2 lt rb) <-> 0 < px lt /\ 0 < py lt /\ 0 < px rb /\ 0 < py rb.
Proof.
  unfold min_values, cat2; simpl. rewrite !Q.min_glb_lt_iff. tauto.
Qed.

Lemma nth_repeat_in {A} (x d : A) n i : (i < n)%nat -> nth i (repeat x n) d = x.
Proof.
  revert i; induction n as [|n IH]; intros [|i] H; simpl; try lia; auto.
  apply IH; lia.
Qed.

(** *** The tensor operations the matchers use *)

(** [.int()]: truncation toward zero. *)
Definition to_int (q : Q) : Z := Z.quot (Qnum q) (Zpos (Qden q)).

Definition Qsum (l : list Q) : Q := fold_left Qplus l 0.

Fixpoint insert_by {A : Type} (le : A -> A -> bool) (x : A) (l : list A) : list A :=
  match l with
  | [] => [x]
  | h :: t => if le x h then x :: l else h :: insert_by le x t
  end.

(** [torch.sort(row)], its index part: the positions of [row] in ascending
    order of their values (ties keep the lower position first). *)
Definition argsort (row : list Q) : list nat :=
  fold_right (insert_by (fun a b => Qle_bool (nth a row 0) (nth b row 0))) []
             (seq 0 (length row)).

(** [torch.topk(row, k)], its value part: the k largest values. *)
Definition topk_values (row : list Q) (k : nat) : list Q :=
  firstn k (fold_right (insert_by (fun a b => Qle_bool b a)) [] row).

(** Position of the first minimum of a non-empty list ([torch.min(dim)],
    its index part). *)
Fixpoint argmin_from (best : Q) (besti : nat) (i : nat) (l : list Q) : nat :=
  match l with
  | [] => besti
  | x :: r => if Qltb x best then argmin_from x i (S i) r else argmin_from best besti (S i) r
  end.

Definition argmin (l : list Q) : nat :=
  match l with
  | [] => 0%nat
  | x :: r => argmin_from x 0%nat 1%nat r
  end.

(** Position of the first maximum ([argmax(dim)]) of a list of counters. *)
Fixpoint argmax_from (best : nat) (besti : nat) (i : nat) (l : list nat) : nat :=
  match l with
  | [] => besti
  | x :: r => if (best <? x)%nat then argmax_from x i (S i) r else argmax_from best besti (S i) r
  end.

Definition argmax (l : list nat) : nat :=
  match l with
  | [] => 0%nat
  | x :: r => argmax_from x 0%nat 1%nat r
  end.

(** [m[i, j] = v]. *)
Definition set_entry {A : Type} (i j : nat) (v : A) (m : list (list A)) : list (list A) :=
  set_nth i (set_nth j v (nth i m [])) m.

(** [row[ids] = 1]. *)
Definition scatter_ones (ids : list nat) (row : list nat) : list nat :=
  fold_left (fun r j => set_nth j 1%nat r) ids row.

(** [t[mask]] on the last dimension. *)
Fixpoint select {A : Type} (mask : list bool) (l : list A) : list A :=
  match mask, l with
  | b :: mask', x :: l' => if b then x :: select mask' l' else select mask' l'
  | _, _ => []
  end.


(** [t.max()] over every coordinate of a [N, 4] tensor; it raises on an empty
    tensor ([None]). *)
Definition coords (b : box) : list Q := [bx1 b; by1 b; bx2 b; by2 b].

Definition max_all (boxes : list box) : option Q :=
  match flat_map coords boxes with
  | [] => None
  | x :: r => Some (fold_left Qmax r x)
  end.

(** [t[mask] = vals]: the k-th true position of [mask] receives [vals[k]]. *)
Fixpoint masked_assign {A : Type} (mask : list bool) (vals : list A) (l : list A) : list A :=
  match mask, l with
  | true :: mask', x :: l' =>
      match vals with
      | v :: vals' => v :: masked_assign mask' vals' l'
      | [] => x :: masked_assign mask' [] l'
      end
  | false :: mask', x :: l' => x :: masked_assign mask' vals l'
  | _, _ => l
  end.

(** [t[idx] = vals]: position [idx[k]] receives [vals[k]]. *)
Definition index_assign {A : Type} (idx : list nat) (vals : list A) (l : list A) : list A :=
  fold_left (fun acc iv => set_nth (fst iv) (snd iv) acc) (combine idx vals) l.

(** The scalar functions of the host framework that the cost uses.  They are
    transcendental; the matchers only pass their values on. *)
Record CostOps : Type := mkCostOps {
  neg_log : Q -> Q;                        (* x |-> -log(x) *)
  sigmoid : Q -> Q;
  binary_cross_entropy_with_logits : Q -> Q -> Q
}.


(** *** Facts about the tensor operations *)

(** An [N, M] tensor. *)
Definition shaped {A : Type} (N M : nat) (m : list (list A)) : Prop :=
  length m = N /\ Forall (fun r => length r = M) m.

Lemma shaped_row {A} N M (m : list (list A)) i :
  shaped N M m -> (i < N)%nat -> length (nth i m []) = M.
Proof.
  intros [HN HM] Hi. rewrite Forall_forall in HM. apply HM, nth_In. lia.
Qed.

Lemma shaped_size1 {A} N M (m : list (list A)) :
  shaped N M m -> (0 < N)%nat -> size1 m = M.
Proof.
  intros [HN HM] Hpos. destruct m as [|r m']; simpl in *; [lia|].
  now inversion HM.
Qed.

Lemma column_seq {A} (d : A) m j :
  column d m j = map (fun g => entry d m g j) (seq 0 (length m)).
Proof.
  unfold column, entry. apply nth_ext with (d := d) (d' := d).
  - now rewrite !length_map, length_seq.
  - intros n Hn. rewrite length_map in Hn.
    rewrite nth_map_in with (da := []) by exact Hn.
    rewrite nth_map_in with (da := 0%nat) by (rewrite length_seq; exact Hn).
    now rewrite seq_nth by exact Hn.
Qed.

Lemma column_length {A} (d : A) m j : length (column d m j) = length m.
Proof. apply length_map. Qed.

Lemma nth_column {A} (d : A) m j g :
  (g < length m)%nat -> nth g (column d m j) d = entry d m g j.
Proof.
  intros Hg. unfold column, entry. now rewrite nth_map_in with (da := []) by exact Hg.
Qed.

Lemma insert_by_length {A} (le : A -> A -> bool) x l :
  length (insert_by le x l) = S (length l).
Proof.
  induction l as [|h t IH]; simpl; auto. destruct (le x h); simpl; auto.
Qed.

Lemma insert_by_Forall {A} (le : A -> A -> bool) (P : A -> Prop) x l :
  P x -> Forall P l -> Forall P (insert_by le x l).
Proof.
  intros Hx Hl. induction Hl as [|h t Hh Ht IH]; simpl.
  - constructor; auto.
  - destruct (le x h); repeat constructor; auto.
Qed.

Lemma sort_by_length {A} (le : A -> A -> bool) l :
  length (fold_right (insert_by le) [] l) = length l.
Proof.
  induction l as [|x l IH]; simpl; auto. now rewrite insert_by_length, IH.
Qed.

Lemma sort_by_Forall {A} (le : A -> A -> bool) (P : A -> Prop) l :
  Forall P l -> Forall P (fold_right (insert_by le) [] l).
Proof.
  induction 1 as [|x l Hx Hl IH]; simpl; [constructor|].
  apply insert_by_Forall; assumption.
Qed.

Lemma argsort_length row : length (argsort row) = length row.
Proof. unfold argsort. now rewrite sort_by_length, length_seq. Qed.

Lemma argsort_bound row : Forall (fun j => (j < length row)%nat) (argsort row).
Proof.
  unfold argsort. apply sort_by_Forall. rewrite Forall_forall.
  intros j Hj. apply in_seq in Hj. lia.
Qed.

Lemma scatter_ones_length ids row : length (scatter_ones ids row) = length row.
Proof.
  unfold scatter_ones. revert row. induction ids as [|i ids IH]; intros row; simpl; auto.
  now rewrite IH, set_nth_length.
Qed.

Lemma scatter_ones_in ids row j :
  In j ids -> (j < length row)%nat -> nth j (scatter_ones ids row) 0%nat = 1%nat.
Proof.
  unfold scatter_ones. revert row. induction ids as [|i ids IH]; intros row Hin Hj; simpl.
  - destruct Hin.
  - destruct (in_dec Nat.eq_dec j ids) as [Hin'|Hnot].
    + apply IH; [exact Hin'|]. now rewrite set_nth_length.
    + destruct Hin as [->|Hin]; [|contradiction].
      clear IH. assert (Hset : nth j (set_nth j 1%nat row) 0%nat = 1%nat)
        by (apply nth_set_nth_eq; exact Hj).
      revert Hset. generalize (set_nth j 1%nat row) as r.
      induction ids as [|i ids IH]; intros r Hr; simpl; auto.
      apply IH.
      * intros Hc. apply Hnot. now right.
      * rewrite nth_set_nth_neq; auto. intros ->. apply Hnot. now left.
Qed.

Lemma scatter_ones_le1 ids row :
  Forall (fun v => (v <= 1)%nat) row -> Forall (fun v => (v <= 1)%nat) (scatter_ones ids row).
Proof.
  unfold scatter_ones. revert row. induction ids as [|i ids IH]; intros row H; simpl; auto.
  apply IH. clear IH. revert i. induction H as [|x l Hx Hl IHl]; intros [|i]; simpl;
    constructor; auto.
Qed.

Lemma argmin_from_bound best besti i l :
  (besti < i)%nat -> (argmin_from best besti i l < i + length l)%nat.
Proof.
  revert best besti i. induction l as [|x r IH]; intros best besti i H; simpl; [lia|].
  destruct (Qltb x best).
  - specialize (IH x i (S i)). lia.
  - specialize (IH best besti (S i)). lia.
Qed.

Lemma argmin_bound l : l <> [] -> (argmin l < length l)%nat.
Proof.
  destruct l as [|x r]; [congruence|]. intros _. simpl.
  pose proof (argmin_from_bound x 0 1 r). lia.
Qed.

(** [argmin_from] returns the position of a value that is below the running
    best and below everything that follows. *)
Lemma argmin_from_min (whole : list Q) best besti i l :
  (besti < i)%nat -> nth besti whole 0 == best ->
  (forall k, (k < length l)%nat -> nth (i + k) whole 0 = nth k l 0) ->
  let a := argmin_from best besti i l in
  nth a whole 0 <= best /\
  forall k, (k < length l)%nat -> nth a whole 0 <= nth k l 0.
Proof.
  revert best besti i. induction l as [|x r IH]; intros best besti i Hlt Hbest Hw; simpl.
  - split; [rewrite Hbest; apply Qle_refl | intros k Hk; simpl in Hk; lia].
  - assert (Hx : nth i whole 0 = x).
    { specialize (Hw 0%nat). simpl in Hw. rewrite Nat.add_0_r in Hw. apply Hw. lia. }
    assert (Hr : forall k, (k < length r)%nat -> nth (S i + k) whole 0 = nth k r 0).
    { intros k Hk. specialize (Hw (S k)). simpl in Hw.
      rewrite <- Hw by lia. f_equal. lia. }
    destruct (Qltb x best) eqn:E.
    + apply Qltb_lt in E.
      destruct (IH x i (S i)) as [H1 H2]; [lia | rewrite Hx; reflexivity | exact Hr |].
      split; [lra|]. intros [|k] Hk; simpl in *; [exact H1 | apply H2; lia].
    + assert (best <= x).
      { apply Qnot_lt_le. intros Hc. apply Qltb_lt in Hc. congruence. }
      destruct (IH best besti (S i)) as [H1 H2]; [lia | exact Hbest | exact Hr |].
      split; [exact H1|]. intros [|k] Hk; simpl in *; [lra | apply H2; lia].
Qed.

Lemma argmin_min l g : (g < length l)%nat -> nth (argmin l) l 0 <= nth g l 0.
Proof.
  destruct l as [|x r]; simpl; [lia|]. intros Hg.
  destruct (argmin_from_min (x :: r) x 0 1 r) as [H1 H2].
  - lia.
  - reflexivity.
  - intros k Hk. reflexivity.
  - destruct g as [|g]; [exact H1 | apply H2; lia].
Qed.


Lemma argmax_from_hits (whole : list nat) best besti i l :
  Forall (fun v => (v <= 1)%nat) l -> (best <= 1)%nat ->
  (besti < i)%nat -> nth besti whole 0%nat = best ->
  (forall k, (k < length l)%nat -> nth (i + k) whole 0%nat = nth k l 0%nat) ->
  let a := argmax_from best besti i l in
  (a < i + length l)%nat /\
  (best = 1%nat \/ (exists k, (k < length l)%nat /\ nth k l 0%nat = 1%nat) ->
   nth a whole 0%nat = 1%nat).
Proof.
  intros Hl. revert best besti i.
  induction Hl as [|x r Hx Hr IH]; intros best besti i Hb Hlt Hbest Hw; simpl.
  - split; [lia|]. intros [->|(k & Hk & _)]; [exact Hbest | simpl in Hk; lia].
  - assert (Hxi : nth i whole 0%nat = x).
    { specialize (Hw 0%nat). simpl in Hw. rewrite Nat.add_0_r in Hw. apply Hw. lia. }
    assert (Hw' : forall k, (k < length r)%nat -> nth (S i + k) whole 0%nat = nth k r 0%nat).
    { intros k Hk. specialize (Hw (S k)). simpl in Hw. rewrite <- Hw by lia. f_equal. lia. }
    destruct (best <? x)%nat eqn:E.
    + apply Nat.ltb_lt in E.
      destruct (IH x i (S i)) as [H1 H2]; [lia | lia | exact Hxi | exact Hw' |].
      split; [lia|]. intros _. apply H2. left. lia.
    + apply Nat.ltb_ge in E.
      destruct (IH best besti (S i)) as [H1 H2]; [lia | lia | exact Hbest | exact Hw' |].
      split; [lia|]. intros [->|(k & Hk & Hk1)]; [apply H2; now left|].
      apply H2. destruct k as [|k]; simpl in *.
      * left. lia.
      * right. exists k. split; [lia | exact Hk1].
Qed.

Lemma argmax_hits l :
  Forall (fun v => (v <= 1)%nat) l -> (1 <= list_sum l)%nat ->
  (argmax l < length l)%nat /\ nth (argmax l) l 0%nat = 1%nat.
Proof.
  intros Hl Hs.
  assert (Hex : exists k, (k < length l)%nat /\ nth k l 0%nat = 1%nat).
  { clear -Hl Hs. induction Hl as [|x r Hx Hr IH]; simpl in *; [lia|].
    destruct (Nat.eq_dec x 1) as [->|Hne].
    - exists 0%nat. split; [lia | reflexivity].
    - destruct IH as (k & Hk & Hk1); [lia|]. exists (S k). split; [lia | exact Hk1]. }
  destruct l as [|x r]; [simpl in Hs; lia|].
  inversion Hl as [|? ? Hx Hr]; subst.
  destruct (argmax_from_hits (x :: r) x 0 1 r Hr Hx) as [H1 H2]; simpl; auto.
  split; [simpl in H1; lia|]. apply H2.
  destruct Hex as ([|k] & Hk & Hk1); simpl in *.
  - now left.
  - right. exists k. split; [lia | exact Hk1].
Qed.

Lemma single_one_unique l g g' :
  Forall (fun v => (v <= 1)%nat) l -> (list_sum l <= 1)%nat ->
  nth g l 0%nat = 1%nat -> nth g' l 0%nat = 1%nat -> g = g'.
Proof.
  intros Hl. revert g g'. induction Hl as [|x r Hx Hr IH]; intros g g' Hs Hg Hg'.
  - destruct g; simpl in Hg; lia.
  - simpl in Hs.
    assert (Hz : forall k, (list_sum r = 0)%nat -> nth k r 0%nat = 1%nat -> False).
    { clear. induction r as [|y r IHr]; intros [|k] H0 H1; simpl in *; try lia.
      apply (IHr k); [lia | exact H1]. }
    destruct g as [|g], g' as [|g']; simpl in *; auto.
    + exfalso. apply (Hz g'); [lia | exact Hg'].
    + exfalso. apply (Hz g); [lia | exact Hg].
    + f_equal. apply IH; [lia | exact Hg | exact Hg'].
Qed.

Lemma list_sum_cons (x : nat) l : list_sum (x :: l) = (x + list_sum l)%nat.
Proof. reflexivity. Qed.

Lemma list_sum_pos_iff (l : list nat) :
  (0 < list_sum l)%nat <-> exists v, In v l /\ (0 < v)%nat.
Proof.
  induction l as [|x l IH]; simpl.
  - split; [lia | intros (v & [] & _)].
  - split.
    + intros H. destruct (Nat.eq_dec x 0) as [->|Hx].
      * destruct (proj1 IH) as (v & Hv & Hp); [lia|]. exists v. auto.
      * exists x. split; [now left | lia].
    + intros (v & [->|Hv] & Hp); [lia|].
      assert (0 < list_sum l)%nat by (apply IH; exists v; auto). lia.
Qed.

Lemma list_sum_indicator (a s n : nat) :
  list_sum (map (fun g => if (g =? a)%nat then 1%nat else 0%nat) (seq s n)) =
  if ((s <=? a) && (a <? s + n))%nat then 1%nat else 0%nat.
Proof.
  revert s. induction n as [|n IH]; intros s.
  - simpl. destruct (Nat.leb_spec s a), (Nat.ltb_spec a (s + 0)); simpl; auto; lia.
  - change (seq s (S n)) with (s :: seq (S s) n). rewrite map_cons, list_sum_cons, IH.
    destruct (Nat.eqb_spec s a), (Nat.leb_spec (S s) a), (Nat.ltb_spec a (S s + n)),
      (Nat.leb_spec s a), (Nat.ltb_spec a (s + S n)); cbn [andb]; lia.
Qed.

(** A loop that rewrites row [i] of a matrix from its current row [i], once
    for each [i] of a duplicate-free list. *)
Lemma fold_rows {A} (upd : nat -> list A -> list A) l m g :
  NoDup l -> Forall (fun i => (i < length m)%nat) l ->
  let m' := fold_left (fun m i => set_nth i (upd i (nth i m [])) m) l m in
  length m' = length m /\
  nth g m' [] = if in_dec Nat.eq_dec g l then upd g (nth g m []) else nth g m [].
Proof.
  revert m. induction l as [|i l IH]; intros m Hnd Hb; simpl; [auto|].
  inversion Hnd as [|? ? Hni Hnd']; subst. inversion Hb as [|? ? Hi Hb']; subst.
  destruct (IH (set_nth i (upd i (nth i m [])) m) Hnd') as [IH1 IH2].
  { rewrite set_nth_length. exact Hb'. }
  rewrite set_nth_length in IH1. split; [exact IH1|].
  rewrite IH2. destruct (Nat.eq_dec i g) as [->|Hne].
  - destruct (in_dec Nat.eq_dec g l); [contradiction|].
    apply nth_set_nth_eq; exact Hi.
  - destruct (in_dec Nat.eq_dec g l); now rewrite nth_set_nth_neq by exact Hne.
Qed.

Lemma set_entry_shaped {A} N M i j (v : A) m :
  shaped N M m -> shaped N M (set_entry i j v m).
Proof.
  intros [HN HM]. unfold set_entry. split; [now rewrite set_nth_length|].
  destruct (Nat.lt_ge_cases i (length m)) as [Hi|Hi].
  - assert (Hr : length (set_nth j v (nth i m [])) = M).
    { rewrite set_nth_length. rewrite Forall_forall in HM. apply HM, nth_In, Hi. }
    revert Hr. generalize (set_nth j v (nth i m [])) as r. clear Hi HN. revert i.
    induction HM as [|x l Hx Hl IHl]; intros [|i] r Hr; simpl; constructor; auto.
  - assert (E : forall (r : list A) l k, (length l <= k)%nat -> set_nth k r l = l).
    { clear. intros r l. induction l as [|x l IH]; intros [|k] H; simpl in *; auto; try lia.
      f_equal. apply IH. lia. }
    now rewrite E by exact Hi.
Qed.

Lemma entry_set_entry {A} (d : A) N M i j v m g k :
  shaped N M m -> (i < N)%nat -> (j < M)%nat ->
  entry d (set_entry i j v m) g k =
  if ((i =? g) && (j =? k))%nat then v else entry d m g k.
Proof.
  intros Hm Hi Hj. pose proof (shaped_row N M m i Hm Hi) as Hr. destruct Hm as [HN _].
  unfold entry, set_entry.
  destruct (Nat.eqb_spec i g) as [->|Hne]; simpl.
  - rewrite nth_set_nth_eq by lia.
    destruct (Nat.eqb_spec j k) as [->|Hne'].
    + apply nth_set_nth_eq. lia.
    + now apply nth_set_nth_neq.
  - now rewrite nth_set_nth_neq by exact Hne.
Qed.

Lemma fold_set_entry N M (pairs : list (nat * nat)) m g j :
  shaped N M m ->
  Forall (fun gj => (fst gj < N)%nat /\ (snd gj < M)%nat) pairs ->
  let m' := fold_left (fun m gj => set_entry (fst gj) (snd gj) 1%nat m) pairs m in
  shaped N M m' /\
  (In (g, j) pairs -> entry 0%nat m' g j = 1%nat) /\
  (~ In (g, j) pairs -> entry 0%nat m' g j = entry 0%nat m g j).
Proof.
  revert m. induction pairs as [|[g0 j0] pairs IH]; intros m Hm Hp; simpl.
  - split; [exact Hm|]. split; [intros [] | reflexivity].
  - inversion Hp as [|? ? [Hg0 Hj0] Hp']; subst. simpl in Hg0, Hj0.
    destruct (IH (set_entry g0 j0 1%nat m) (set_entry_shaped N M g0 j0 1%nat m Hm) Hp')
      as (S' & In1 & In2).
    split; [exact S'|]. split.
    + intros [E|Hin]; [|now apply In1].
      inversion E; subst.
      destruct (in_dec (fun p q : nat * nat =>
                  ltac:(decide equality; apply Nat.eq_dec) : {p = q} + {p <> q})
                  (g, j) pairs) as [Hin|Hnot]; [now apply In1|].
      rewrite In2 by exact Hnot.
      rewrite (entry_set_entry 0%nat N M) by assumption.
      now rewrite !Nat.eqb_refl.
    + intros Hnot. rewrite In2 by (intros Hc; apply Hnot; now right).
      rewrite (entry_set_entry 0%nat N M) by assumption.
      destruct (Nat.eqb_spec g0 g) as [->|]; simpl; auto.
      destruct (Nat.eqb_spec j0 j) as [->|]; simpl; auto.
      exfalso. apply Hnot. now left.
Qed.

Lemma combine_map_self {A B} (f : A -> B) l :
  combine (map f l) l = map (fun x => (f x, x)) l.
Proof. induction l as [|x l IH]; simpl; congruence. Qed.

Lemma select_seq (mask : list bool) (a : nat) :
  select mask (seq a (length mask)) =
  filter (fun j => nth (j - a) mask false) (seq a (length mask)).
Proof.
  revert a. induction mask as [|b mask IH]; intros a; simpl; auto.
  rewrite Nat.sub_diag. rewrite IH.
  assert (E : filter (fun j => nth (j - S a) mask false) (seq (S a) (length mask)) =
              filter (fun j => match (j - a)%nat with O => b | S k => nth k mask false end)
                     (seq (S a) (length mask))).
  { apply filter_ext_in. intros j Hj. apply in_seq in Hj.
    replace (j - a)%nat with (S (j - S a)) by lia. reflexivity. }
  destruct b; now rewrite E.
Qed.

Lemma select_seq0 (mask : list bool) (n : nat) :
  length mask = n ->
  select mask (seq 0 n) = filter (fun j => nth j mask false) (seq 0 n).
Proof.
  intros <-. rewrite select_seq. apply filter_ext. intros j. now rewrite Nat.sub_0_r.
Qed.

Lemma sum0_length m n : length (sum0 m n) = n.
Proof. unfold sum0. now rewrite length_map, length_seq. Qed.

Lemma nth_sum0 m n j : (j < n)%nat -> nth j (sum0 m n) 0%nat = list_sum (column 0%nat m j).
Proof.
  intros Hj. unfold sum0.
  rewrite nth_map_in with (da := 0%nat) by (rewrite length_seq; exact Hj).
  now rewrite seq_nth by exact Hj.
Qed.


(** *** The sort behind [torch.sort] and [torch.topk] *)

Lemma insert_by_perm {A} (le : A -> A -> bool) x l :
  Permutation (insert_by le x l) (x :: l).
Proof.
  induction l as [|h t IH]; simpl; [reflexivity|].
  destruct (le x h); [reflexivity|].
  rewrite IH. apply perm_swap.
Qed.

Lemma sort_by_perm {A} (le : A -> A -> bool) l :
  Permutation (fold_right (insert_by le) [] l) l.
Proof.
  induction l as [|x l IH]; simpl; [reflexivity|].
  rewrite insert_by_perm. now constructor.
Qed.

Lemma argsort_perm row : Permutation (argsort row) (seq 0 (length row)).
Proof. apply sort_by_perm. Qed.

Lemma argsort_NoDup row : NoDup (argsort row).
Proof.
  apply (Permutation_NoDup (l := seq 0 (length row))).
  - symmetry. apply argsort_perm.
  - apply seq_NoDup.
Qed.

Lemma in_skipn_in {A} (x : A) k l : In x (skipn k l) -> In x l.
Proof. intros H. rewrite <- (firstn_skipn k l). apply in_or_app. now right. Qed.

Lemma in_firstn_in {A} (x : A) k l : In x (firstn k l) -> In x l.
Proof. intros H. rewrite <- (firstn_skipn k l). apply in_or_app. now left. Qed.

Section SortedBy.

Variable A : Type.
Variable le : A -> A -> bool.
Hypothesis le_total : forall a b, le a b = false -> le b a = true.
Hypothesis le_trans : forall a b c, le a b = true -> le b c = true -> le a c = true.

Let R (a b : A) : Prop := le a b = true.

Lemma insert_by_sorted x l : StronglySorted R l -> StronglySorted R (insert_by le x l).
Proof.
  induction 1 as [|h t Ht IH Hh]; simpl.
  - constructor; constructor.
  - destruct (le x h) eqn:E.
    + constructor; [constructor; assumption|].
      constructor; [exact E|].
      rewrite Forall_forall in *. intros y Hy. apply (le_trans x h y E). now apply Hh.
    + constructor; [exact IH|].
      apply insert_by_Forall; [apply le_total; exact E | exact Hh].
Qed.

Lemma sort_by_sorted l : StronglySorted R (fold_right (insert_by le) [] l).
Proof.
  induction l as [|x l IH]; simpl; [constructor | apply insert_by_sorted; exact IH].
Qed.

Lemma sorted_firstn_skipn l k a b :
  StronglySorted R l -> In a (firstn k l) -> In b (skipn k l) -> le a b = true.
Proof.
  intros Hs. revert k. induction Hs as [|h t Ht IH Hh]; intros k Ha Hb.
  - rewrite firstn_nil in Ha. destruct Ha.
  - destruct k as [|k]; [destruct Ha|]. simpl in Ha, Hb.
    destruct Ha as [<-|Ha].
    + rewrite Forall_forall in Hh. apply Hh. eapply in_skipn_in; eauto.
    + apply (IH k Ha Hb).
Qed.

End SortedBy.

Lemma argsort_cheapest_first row k j j' :
  In j (firstn k (argsort row)) -> In j' (skipn k (argsort row)) ->
  nth j row 0 <= nth j' row 0.
Proof.
  intros Hj Hj'. apply Qle_bool_iff.
  apply (sorted_firstn_skipn nat (fun a b => Qle_bool (nth a row 0) (nth b row 0)))
    with (l := argsort row) (k := k); try assumption.
  apply sort_by_sorted.
  - intros a b H. apply Qle_bool_iff.
    destruct (Qlt_le_dec (nth a row 0) (nth b row 0)) as [Hlt|Hle]; [|exact Hle].
    exfalso. apply Qlt_le_weak, Qle_bool_iff in Hlt. congruence.
  - intros a b c H1 H2. apply Qle_bool_iff. apply Qle_bool_iff in H1, H2.
    eapply Qle_trans; eauto.
Qed.

Lemma scatter_ones_notin ids row j :
  ~ In j ids -> nth j (scatter_ones ids row) 0%nat = nth j row 0%nat.
Proof.
  unfold scatter_ones. revert row. induction ids as [|i ids IH]; intros row Hn; simpl; auto.
  rewrite IH by (intros Hc; apply Hn; now right).
  apply nth_set_nth_neq. intros ->. apply Hn. now left.
Qed.

Lemma list_sum_set_nth_one j (r : list nat) :
  (j < length r)%nat -> nth j r 0%nat = 0%nat ->
  list_sum (set_nth j 1%nat r) = S (list_sum r).
Proof.
  revert j. induction r as [|x r IH]; intros [|j] Hj Hz; simpl in *; try lia.
  rewrite (IH j) by (assumption || lia). lia.
Qed.

Lemma list_sum_scatter_ones ids row :
  NoDup ids -> Forall (fun j => (j < length row)%nat /\ nth j row 0%nat = 0%nat) ids ->
  list_sum (scatter_ones ids row) = (list_sum row + length ids)%nat.
Proof.
  unfold scatter_ones. revert row. induction ids as [|i ids IH]; intros row Hnd Hz; simpl.
  - lia.
  - inversion Hnd as [|? ? Hni Hnd']; subst. inversion Hz as [|? ? [Hi Hi0] Hz']; subst.
    rewrite IH.
    + rewrite list_sum_set_nth_one by assumption. lia.
    + exact Hnd'.
    + rewrite Forall_forall in *. intros j Hj. destruct (Hz' j Hj) as [H1 H2].
      rewrite set_nth_length. split; [exact H1|].
      rewrite nth_set_nth_neq; [exact H2|]. intros ->. contradiction.
Qed.


(** *** SimOTAMatcher *)

Module SimOTAMatcher.

Definition find_inside_points (gt_bboxes : list box) (anchors : list point) : list (list bool) :=
  let num_anchors := length anchors in
  let num_gt := length gt_bboxes in
  let anchors_expand := repeat anchors num_gt in
  let gt_bboxes_expand := map (fun g => repeat g num_anchors) gt_bboxes in
  let lt := mzip psub anchors_expand (mmap lo gt_bboxes_expand) in
  let rb := mzip psub (mmap hi gt_bboxes_expand) anchors_expand in
  let bbox_deltas := mzip cat2 lt rb in
  mmap (fun d => Qltb 0 (min_values d)) bbox_deltas.

(** The test applied to one ground-truth box and one anchor. *)
Definition inside_test (g : box) (a : point) : bool :=
  Qltb 0 (min_values (cat2 (psub a (lo g)) (psub (hi g) a))).

Lemma zipWith_repeat_r {A B C} (f : A -> B -> C) xs y n :
  (length xs <= n)%nat -> zipWith f xs (repeat y n) = map (fun x => f x y) xs.
Proof.
  revert n. induction xs as [|x xs IH]; intros [|n] H; simpl in *; try lia; auto.
  f_equal. apply IH. lia.
Qed.

Lemma zipWith_repeat_l {A B C} (f : A -> B -> C) x ys n :
  (length ys <= n)%nat -> zipWith f (repeat x n) ys = map (fun y => f x y) ys.
Proof.
  revert n. induction ys as [|y ys IH]; intros [|n] H; simpl in *; try lia; auto.
  f_equal. apply IH. lia.
Qed.

Lemma zipWith_map_same {A B C D} (f : B -> C -> D) (h1 : A -> B) (h2 : A -> C) l :
  zipWith f (map h1 l) (map h2 l) = map (fun x => f (h1 x) (h2 x)) l.
Proof. induction l as [|x l IH]; simpl; congruence. Qed.

Lemma find_inside_points_outer gt_bboxes anchors :
  find_inside_points gt_bboxes anchors = outer inside_test gt_bboxes anchors.
Proof.
  unfold find_inside_points, outer, mmap, mzip.
  generalize (Nat.le_refl (length anchors)).
  generalize (length anchors) at 2 3 4 as M. intros M HM.
  induction gt_bboxes as [|g gt IH]; [reflexivity|].
  simpl. f_equal; [|exact IH].
  rewrite !map_repeat.
  rewrite (zipWith_repeat_r psub anchors (lo g) M HM).
  rewrite (zipWith_repeat_l psub (hi g) anchors M HM).
  rewrite zipWith_map_same, map_map. reflexivity.
Qed.

Lemma find_inside_points_shaped gt_bboxes anchors :
  shaped (length gt_bboxes) (length anchors) (find_inside_points gt_bboxes anchors).
Proof.
  rewrite find_inside_points_outer. unfold outer. split; [apply length_map|].
  rewrite Forall_forall. intros r Hr. apply in_map_iff in Hr.
  destruct Hr as (g & <- & _). apply length_map.
Qed.

Lemma find_inside_points_entry gt_bboxes anchors i j :
  (i < length gt_bboxes)%nat -> (j < length anchors)%nat ->
  entry false (find_inside_points gt_bboxes anchors) i j = true <->
  strictly_inside (nth i gt_bboxes zero_box) (nth j anchors (mkPoint 0 0)).
Proof.
  intros Hi Hj. rewrite find_inside_points_outer.
  rewrite entry_outer with (da := zero_box) (db := mkPoint 0 0) by assumption.
  unfold inside_test. rewrite Qltb_lt, min_values_cat2_pos.
  unfold strictly_inside, psub, lo, hi; simpl.
  set (a := nth j anchors _). set (g := nth i gt_bboxes _).
  split; intros (H1 & H2 & H3 & H4); repeat split; lra.
Qed.

(** **** dynamic_k_matching *)

Section DynamicK.

Variable topk_candidate : nat.

(** [clamp(topk_ious.sum(1).int(), min=1)]. *)
Definition dynamic_ks (pairwise_ious : list (list Q)) : list Z :=
  let candidate_topk := Nat.min topk_candidate (size1 pairwise_ious) in
  let topk_ious := map (fun row => topk_values row candidate_topk) pairwise_ious in
  map (fun vals => Z.max (to_int (Qsum vals)) 1) topk_ious.

(** One turn of the loop over [gt_idx]; [dynamic_ks] has one entry per ground
    truth, so the default of [nth] is never read. *)
Definition select_topk (sorted_indices : list (list nat)) (ks : list Z)
    (matching_matrix : list (list nat)) (gt_idx : nat) : list (list nat) :=
  let topk_ids := firstn (Z.to_nat (nth gt_idx ks 1%Z)) (nth gt_idx sorted_indices []) in
  set_nth gt_idx (scatter_ones topk_ids (nth gt_idx matching_matrix [])) matching_matrix.

(** The matching matrix after the loop, before conflicts are resolved. *)
Definition initial_matching (cost_matrix pairwise_ious : list (list Q)) (num_gt : nat)
    : list (list nat) :=
  let matching_matrix := mmap (fun _ => 0%nat) cost_matrix in
  let ks := dynamic_ks pairwise_ious in
  let sorted_indices := map argsort cost_matrix in
  fold_left (select_topk sorted_indices ks) (seq 0 num_gt) matching_matrix.

(** [matching_matrix[:, mask] *= 0]. *)
Definition zero_columns (mask : list bool) (m : list (list nat)) : list (list nat) :=
  map (fun row => zipWith (fun v (b : bool) => if b then (v * 0)%nat else v) row mask) m.

(** The [if prior_match_gt_mask.sum() > 0] block. *)
Definition resolve_conflicts (cost_matrix : list (list Q)) (matching_matrix : list (list nat))
    : list (list nat) :=
  let ncols := size1 cost_matrix in
  let prior_match_gt_mask := map (fun s => (1 <? s)%nat) (sum0 matching_matrix ncols) in
  if (0 <? list_sum (map bool_to_nat prior_match_gt_mask))%nat then
    let cols := select prior_match_gt_mask (seq 0 ncols) in
    let cost_argmin := map (fun j => argmin (column 0 cost_matrix j)) cols in
    let zeroed := zero_columns prior_match_gt_mask matching_matrix in
    fold_left (fun m gj => set_entry (fst gj) (snd gj) 1%nat m) (combine cost_argmin cols) zeroed
  else matching_matrix.

Definition final_matching (cost_matrix pairwise_ious : list (list Q)) (num_gt : nat)
    : list (list nat) :=
  resolve_conflicts cost_matrix (initial_matching cost_matrix pairwise_ious num_gt).

(** Returns (matched_pred_ious, matched_gt_inds, fg_mask_inboxes). *)
Definition dynamic_k_matching (cost_matrix pairwise_ious : list (list Q)) (num_gt : nat)
    : list Q * list nat * list bool :=
  let matching_matrix := final_matching cost_matrix pairwise_ious num_gt in
  let ncols := size1 cost_matrix in
  let fg_mask_inboxes := map (fun s => (0 <? s)%nat) (sum0 matching_matrix ncols) in
  let weighted := mzip (fun (m : nat) (q : Q) => inject_Z (Z.of_nat m) * q) matching_matrix pairwise_ious in
  let matched_pred_ious :=
    select fg_mask_inboxes (map (fun j => Qsum (column 0 weighted j)) (seq 0 ncols)) in
  let matched_gt_inds :=
    map (fun j => argmax (column 0%nat matching_matrix j)) (select fg_mask_inboxes (seq 0 ncols)) in
  (matched_pred_ious, matched_gt_inds, fg_mask_inboxes).

End DynamicK.

Example dynamic_k_matching_3x4 :
  let cost := [[1; 2; 3; 4]; [2; 1; 5; 6]; [9; 3#2; 1; 7]] in
  let ious := [[9#10; 8#10; 1#10; 0]; [5#10; 7#10; 0; 0]; [0; 6#10; 7#10; 1#10]] in
  initial_matching 10 cost ious 3 = [[1; 0; 0; 0]; [0; 1; 0; 0]; [0; 0; 1; 0]]%nat /\
  initial_matching 10 cost (mmap (fun q => 2 * q) ious) 3
    = [[1; 1; 1; 0]; [1; 1; 0; 0]; [0; 1; 1; 0]]%nat /\
  final_matching 10 cost (mmap (fun q => 2 * q) ious) 3
    = [[1; 0; 0; 0]; [0; 1; 0; 0]; [0; 0; 1; 0]]%nat /\
  snd (fst (dynamic_k_matching 10 cost (mmap (fun q => 2 * q) ious) 3)) = [0; 1; 2]%nat.
Proof. vm_compute. repeat split. Qed.


(** **** Facts about dynamic_k_matching *)

Lemma shaped_of_rows {A} N M (m : list (list A)) :
  length m = N -> (forall g, (g < N)%nat -> length (nth g m []) = M) -> shaped N M m.
Proof.
  intros HN Hr. split; [exact HN|]. rewrite Forall_forall. intros r Hin.
  destruct (In_nth _ _ [] Hin) as (g & Hg & <-). apply Hr. lia.
Qed.

Lemma bool_count_zero (l : list bool) j :
  list_sum (map bool_to_nat l) = 0%nat -> nth j l false = false.
Proof.
  revert j. induction l as [|b l IH]; intros [|j] H; simpl in *; auto.
  - destruct b; simpl in H; [lia | reflexivity].
  - apply IH. destruct b; simpl in H; lia.
Qed.

Lemma zero_columns_shaped N M (mask : list bool) m :
  shaped N M m -> length mask = M -> shaped N M (zero_columns mask m).
Proof.
  intros [HN HM] Hmask. unfold zero_columns. split; [now rewrite length_map|].
  rewrite Forall_forall in *. intros r Hr. apply in_map_iff in Hr.
  destruct Hr as (r0 & <- & Hr0). rewrite zipWith_length, (HM r0 Hr0), Hmask.
  apply Nat.min_id.
Qed.

Lemma zero_columns_entry N M (mask : list bool) m g j :
  shaped N M m -> length mask = M -> (g < N)%nat -> (j < M)%nat ->
  entry 0%nat (zero_columns mask m) g j =
  if nth j mask false then 0%nat else entry 0%nat m g j.
Proof.
  intros Hm Hmask Hg Hj. pose proof Hm as [HN HM].
  unfold entry, zero_columns.
  rewrite nth_map_in with (da := []) by lia.
  rewrite nth_zipWith with (da := 0%nat) (db := false)
    by (rewrite ?(shaped_row N M m g Hm Hg); lia).
  destruct (nth j mask false); [apply Nat.mul_0_r | reflexivity].
Qed.

Section DynamicKFacts.

Variable topk_candidate : nat.
Variables N M : nat.
Variables cost_matrix pairwise_ious : list (list Q).
Hypothesis num_gt_pos : (1 <= N)%nat.
Hypothesis cost_shape : shaped N M cost_matrix.

Let I := initial_matching topk_candidate cost_matrix pairwise_ious N.
Let F := final_matching topk_candidate cost_matrix pairwise_ious N.
Let conflict (j : nat) : bool := (1 <? list_sum (column 0%nat I j))%nat.
Let cost_argmin (j : nat) : nat := argmin (column 0 cost_matrix j).

Lemma initial_matching_rows g :
  (g < N)%nat ->
  length I = N /\
  nth g I [] =
  scatter_ones
    (firstn (Z.to_nat (nth g (dynamic_ks topk_candidate pairwise_ious) 1%Z))
            (argsort (nth g cost_matrix [])))
    (repeat 0%nat M).
Proof.
  intros Hg. unfold I, initial_matching.
  set (mm0 := mmap (fun _ : Q => 0%nat) cost_matrix).
  assert (L0 : length mm0 = N) by (unfold mm0, mmap; rewrite length_map; apply cost_shape).
  destruct (fold_rows
              (fun i r => scatter_ones
                 (firstn (Z.to_nat (nth i (dynamic_ks topk_candidate pairwise_ious) 1%Z))
                         (nth i (map argsort cost_matrix) [])) r)
              (seq 0 N) mm0 g) as [H1 H2].
  - apply seq_NoDup.
  - rewrite Forall_forall. intros i Hi. apply in_seq in Hi. lia.
  - split; [unfold select_topk; rewrite H1; exact L0|].
    unfold select_topk. rewrite H2.
    destruct (in_dec Nat.eq_dec g (seq 0 N)) as [_|Hn].
    2:{ exfalso. apply Hn, in_seq. lia. }
    rewrite nth_map_in with (da := []) by (destruct cost_shape; lia).
    f_equal. unfold mm0, mmap.
    rewrite nth_map_in with (da := []) by (destruct cost_shape; lia).
    rewrite <- (shaped_row N M cost_matrix g cost_shape Hg).
    generalize (nth g cost_matrix []). intros r. induction r; simpl; congruence.
Qed.

Lemma initial_matching_shaped : shaped N M I.
Proof.
  apply shaped_of_rows.
  - destruct (initial_matching_rows 0) as [H _]; [lia | exact H].
  - intros g Hg. destruct (initial_matching_rows g Hg) as [_ ->].
    now rewrite scatter_ones_length, repeat_length.
Qed.

Lemma initial_matching_le1 g j : (g < N)%nat -> (entry 0%nat I g j <= 1)%nat.
Proof.
  intros Hg. unfold entry. destruct (initial_matching_rows g Hg) as [_ ->].
  match goal with |- (nth j ?l _ <= 1)%nat => assert (Hl : Forall (fun v => (v <= 1)%nat) l) end.
  { apply scatter_ones_le1. apply Forall_forall. intros v Hv.
    apply repeat_spec in Hv. lia. }
  destruct (Nat.lt_ge_cases j (length (scatter_ones
      (firstn (Z.to_nat (nth g (dynamic_ks topk_candidate pairwise_ious) 1%Z))
              (argsort (nth g cost_matrix []))) (repeat 0%nat M)))) as [Hj|Hj].
  - rewrite Forall_forall in Hl. apply Hl, nth_In, Hj.
  - rewrite nth_overflow by exact Hj. lia.
Qed.

Lemma dynamic_ks_ge1 g : (1 <= nth g (dynamic_ks topk_candidate pairwise_ious) 1)%Z.
Proof.
  unfold dynamic_ks.
  set (ks := map _ (map _ pairwise_ious)).
  destruct (Nat.lt_ge_cases g (length ks)) as [Hg|Hg].
  - assert (Hall : Forall (fun k => (1 <= k)%Z) ks).
    { unfold ks. rewrite Forall_forall. intros k Hk.
      apply in_map_iff in Hk. destruct Hk as (v & <- & _). lia. }
    rewrite Forall_forall in Hall. apply Hall, nth_In, Hg.
  - rewrite nth_overflow by exact Hg. lia.
Qed.

Lemma initial_matching_selects g :
  (0 < M)%nat -> (g < N)%nat -> exists j, (j < M)%nat /\ entry 0%nat I g j = 1%nat.
Proof.
  intros HM Hg. unfold entry. destruct (initial_matching_rows g Hg) as [_ ->].
  pose proof (dynamic_ks_ge1 g) as Hk.
  pose proof (argsort_length (nth g cost_matrix [])) as Hlen.
  pose proof (argsort_bound (nth g cost_matrix [])) as Hb.
  rewrite (shaped_row N M cost_matrix g cost_shape Hg) in Hlen, Hb.
  destruct (argsort (nth g cost_matrix [])) as [|j0 rest]; [simpl in Hlen; lia|].
  inversion Hb as [|? ? Hj0 _]; subst.
  exists j0. split; [exact Hj0|].
  apply scatter_ones_in; [|now rewrite repeat_length].
  destruct (Z.to_nat (nth g (dynamic_ks topk_candidate pairwise_ious) 1%Z)) eqn:E; [lia|].
  simpl. now left.
Qed.

Lemma cost_argmin_bound j : (cost_argmin j < N)%nat.
Proof.
  unfold cost_argmin.
  replace N with (length (column 0 cost_matrix j))
    by (rewrite column_length; apply cost_shape).
  apply argmin_bound. intros Hc. apply (f_equal (@length Q)) in Hc.
  rewrite column_length in Hc. destruct cost_shape as [HN _]. simpl in Hc. lia.
Qed.

Lemma cost_argmin_min j g :
  (g < N)%nat -> entry 0 cost_matrix (cost_argmin j) j <= entry 0 cost_matrix g j.
Proof.
  intros Hg. destruct cost_shape as [HN _].
  rewrite <- !nth_column by (pose proof (cost_argmin_bound j); lia).
  apply argmin_min. rewrite column_length. lia.
Qed.

Lemma final_matching_spec :
  shaped N M F /\
  forall g j, (g < N)%nat -> (j < M)%nat ->
    entry 0%nat F g j =
    if conflict j then (if (g =? cost_argmin j)%nat then 1%nat else 0%nat)
    else entry 0%nat I g j.
Proof.
  pose proof initial_matching_shaped as SI.
  unfold F, final_matching, resolve_conflicts. fold I.
  rewrite (shaped_size1 N M cost_matrix cost_shape) by lia.
  set (mask := map (fun s => (1 <? s)%nat) (sum0 I M)).
  assert (Lmask : length mask = M) by (unfold mask; now rewrite length_map, sum0_length).
  assert (Emask : forall j, (j < M)%nat -> nth j mask false = conflict j).
  { intros j Hj. unfold mask, conflict.
    rewrite nth_map_in with (da := 0%nat) by (rewrite sum0_length; exact Hj).
    now rewrite nth_sum0 by exact Hj. }
  destruct (0 <? list_sum (map bool_to_nat mask))%nat eqn:Eany.
  - set (cols := select mask (seq 0 M)).
    assert (Ecols : forall j, In j cols <-> (j < M)%nat /\ conflict j = true).
    { intros j. unfold cols. rewrite (select_seq0 mask M Lmask).
      rewrite filter_In, in_seq. split.
      - intros [H1 H2]. split; [lia|]. rewrite <- Emask by lia. exact H2.
      - intros [H1 H2]. split; [lia|]. rewrite Emask by lia. exact H2. }
    rewrite combine_map_self.
    set (pairs := map (fun j => (argmin (column 0 cost_matrix j), j)) cols).
    assert (Hpairs : Forall (fun gj => (fst gj < N)%nat /\ (snd gj < M)%nat) pairs).
    { unfold pairs. rewrite Forall_forall. intros gj Hgj. apply in_map_iff in Hgj.
      destruct Hgj as (j & <- & Hj). simpl. split; [apply cost_argmin_bound|].
      now apply Ecols in Hj. }
    assert (Epairs : forall g j, In (g, j) pairs <-> In j cols /\ g = cost_argmin j).
    { intros g j. unfold pairs. rewrite in_map_iff. split.
      - intros (j' & E & Hj'). injection E as E1 E2. rewrite <- E2, <- E1.
        split; [exact Hj' | reflexivity].
      - intros [Hj ->]. exists j. split; [reflexivity | exact Hj]. }
    assert (SZ : shaped N M (zero_columns mask I))
      by (apply zero_columns_shaped; assumption).
    destruct (fold_set_entry N M pairs (zero_columns mask I) 0 0 SZ Hpairs) as [SF _].
    split; [exact SF|].
    intros g j Hg Hj.
    destruct (fold_set_entry N M pairs (zero_columns mask I) g j SZ Hpairs) as (_ & In1 & In2).
    pose proof (zero_columns_entry N M mask I g j SI Lmask Hg Hj) as Ez.
    rewrite Emask in Ez by exact Hj.
    destruct (conflict j) eqn:Ec.
    + destruct (Nat.eqb_spec g (cost_argmin j)) as [->|Hne].
      * apply In1, Epairs. split; [apply Ecols; auto | reflexivity].
      * rewrite In2; [exact Ez|]. intros Hc. apply Epairs in Hc. tauto.
    + rewrite In2; [exact Ez|]. intros Hc. apply Epairs in Hc.
      destruct Hc as [Hc _]. apply Ecols in Hc. destruct Hc; congruence.
  - split; [exact SI|]. intros g j Hg Hj.
    apply Nat.ltb_ge in Eany.
    rewrite <- Emask by exact Hj. rewrite bool_count_zero by lia. reflexivity.
Qed.

Lemma final_column j :
  (j < M)%nat ->
  Forall (fun v => (v <= 1)%nat) (column 0%nat F j) /\
  (list_sum (column 0%nat F j) <= 1)%nat /\
  (conflict j = true -> list_sum (column 0%nat F j) = 1%nat).
Proof.
  intros Hj. destruct final_matching_spec as [[LF SF] EF].
  destruct initial_matching_shaped as [LI _].
  assert (Ecol : column 0%nat F j =
                 map (fun g => if conflict j
                               then (if (g =? cost_argmin j)%nat then 1%nat else 0%nat)
                               else entry 0%nat I g j) (seq 0 N)).
  { rewrite column_seq, LF. apply map_ext_in. intros g Hg. apply in_seq in Hg.
    apply EF; lia. }
  rewrite Ecol. destruct (conflict j) eqn:Ec.
  - rewrite list_sum_indicator. pose proof (cost_argmin_bound j) as Ha.
    destruct (Nat.leb_spec 0 (cost_argmin j)), (Nat.ltb_spec (cost_argmin j) (0 + N));
      cbn [andb]; try lia.
    repeat split; auto.
    rewrite Forall_forall. intros v Hv. apply in_map_iff in Hv.
    destruct Hv as (g & <- & _). destruct (g =? cost_argmin j)%nat; lia.
  - assert (E : map (fun g => entry 0%nat I g j) (seq 0 N) = column 0%nat I j)
      by (now rewrite column_seq, LI).
    rewrite E. unfold conflict in Ec. apply Nat.ltb_ge in Ec.
    repeat split; auto; try discriminate.
    rewrite <- E. rewrite Forall_forall. intros v Hv. apply in_map_iff in Hv.
    destruct Hv as (g & <- & Hg). apply in_seq in Hg. apply initial_matching_le1. lia.
Qed.

End DynamicKFacts.


(** C4 (amended).  For a cost matrix and a pairwise-IoU matrix of shape
    [N, M] with N = num_gt >= 1, after [dynamic_k_matching]: every anchor
    column of the matching matrix holds at most one assigned ground truth; a
    column that had more than one assignment keeps only the ground truth of
    minimum cost; the other columns are unchanged; [fg_mask_inboxes] is true
    exactly on the columns with one assignment; [matched_gt_inds] lists, for
    the foreground anchors in order, the index of their unique assigned
    ground truth; and, when there is at least one anchor (M >= 1), every
    ground truth initially selects at least one candidate. *)
Theorem dynamic_k_matching_unique_assignment
    (topk_candidate N M : nat) (cost_matrix pairwise_ious : list (list Q)) :
  (1 <= N)%nat -> shaped N M cost_matrix -> shaped N M pairwise_ious ->
  let I := initial_matching topk_candidate cost_matrix pairwise_ious N in
  let F := final_matching topk_candidate cost_matrix pairwise_ious N in
  let out := dynamic_k_matching topk_candidate cost_matrix pairwise_ious N in
  let matched_gt_inds := snd (fst out) in
  let fg_mask_inboxes := snd out in
  let fg_anchors := filter (fun j => nth j fg_mask_inboxes false) (seq 0 M) in
  (forall j, (j < M)%nat ->
     Forall (fun v => (v <= 1)%nat) (column 0%nat F j) /\
     (list_sum (column 0%nat F j) <= 1)%nat) /\
  (forall j, (j < M)%nat -> (1 < list_sum (column 0%nat I j))%nat ->
     let a := argmin (column 0 cost_matrix j) in
     (a < N)%nat /\
     (forall g, (g < N)%nat -> entry 0 cost_matrix a j <= entry 0 cost_matrix g j) /\
     (forall g, (g < N)%nat ->
        entry 0%nat F g j = if (g =? a)%nat then 1%nat else 0%nat)) /\
  (forall j, (j < M)%nat -> (list_sum (column 0%nat I j) <= 1)%nat ->
     forall g, (g < N)%nat -> entry 0%nat F g j = entry 0%nat I g j) /\
  length fg_mask_inboxes = M /\
  (forall j, (j < M)%nat ->
     nth j fg_mask_inboxes false = true <-> list_sum (column 0%nat F j) = 1%nat) /\
  ((0 < M)%nat ->
   forall g, (g < N)%nat -> exists j, (j < M)%nat /\ entry 0%nat I g j = 1%nat) /\
  length matched_gt_inds = length fg_anchors /\
  (forall k, (k < length fg_anchors)%nat ->
     let j := nth k fg_anchors 0%nat in
     let g := nth k matched_gt_inds 0%nat in
     (g < N)%nat /\ entry 0%nat F g j = 1%nat /\
     forall g', (g' < N)%nat -> entry 0%nat F g' j = 1%nat -> g' = g).
Proof.
  intros HN Hc Hi I F out matched_gt_inds fg_mask_inboxes fg_anchors.
  destruct (final_matching_spec topk_candidate N M cost_matrix pairwise_ious HN Hc)
    as [SF EF]. cbv beta in EF. fold F in SF, EF. fold I in EF.
  pose proof (final_column topk_candidate N M cost_matrix pairwise_ious HN Hc) as FC.
  cbv beta in FC. fold F in FC. fold I in FC.
  assert (Efg : fg_mask_inboxes = map (fun s => (0 <? s)%nat) (sum0 F M)).
  { unfold fg_mask_inboxes, out, dynamic_k_matching. fold F. simpl.
    now rewrite (shaped_size1 N M cost_matrix Hc) by lia. }
  assert (Lfg : length fg_mask_inboxes = M) by (rewrite Efg; now rewrite length_map, sum0_length).
  assert (Nfg : forall j, (j < M)%nat ->
                nth j fg_mask_inboxes false = (0 <? list_sum (column 0%nat F j))%nat).
  { intros j Hj. rewrite Efg.
    rewrite nth_map_in with (da := 0%nat) by (rewrite sum0_length; exact Hj).
    now rewrite nth_sum0 by exact Hj. }
  assert (Egt : matched_gt_inds = map (fun j => argmax (column 0%nat F j)) fg_anchors).
  { unfold matched_gt_inds, out, dynamic_k_matching. fold F. simpl.
    rewrite (shaped_size1 N M cost_matrix Hc) by lia. rewrite <- Efg.
    now rewrite (select_seq0 fg_mask_inboxes M Lfg). }
  split; [intros j Hj; destruct (FC j Hj) as (H1 & H2 & _); split; assumption|].
  split.
  { intros j Hj Hconf a. split; [|split].
    - apply (cost_argmin_bound N M cost_matrix HN Hc).
    - intros g Hg. apply (cost_argmin_min N M cost_matrix HN Hc); exact Hg.
    - intros g Hg. rewrite (EF g j Hg Hj).
      apply Nat.ltb_lt in Hconf. now rewrite Hconf. }
  split.
  { intros j Hj Hle g Hg. rewrite (EF g j Hg Hj).
    apply Nat.ltb_ge in Hle. now rewrite Hle. }
  split; [exact Lfg|].
  split.
  { intros j Hj. rewrite (Nfg j Hj). destruct (FC j Hj) as (_ & H2 & _).
    rewrite Nat.ltb_lt. lia. }
  split.
  { intros HM g Hg.
    apply (initial_matching_selects topk_candidate N M cost_matrix pairwise_ious HN Hc);
      assumption. }
  split; [rewrite Egt; apply length_map|].
  intros k Hk j g.
  assert (Hin : In j fg_anchors) by (apply nth_In; exact Hk).
  apply filter_In in Hin. destruct Hin as [Hjr Hjfg]. apply in_seq in Hjr.
  assert (Hj : (j < M)%nat) by lia.
  rewrite (Nfg j Hj) in Hjfg. apply Nat.ltb_lt in Hjfg.
  destruct (FC j Hj) as (Hle1 & Hsum & _).
  assert (Eg : g = argmax (column 0%nat F j)).
  { unfold g. rewrite Egt. now rewrite nth_map_in with (da := 0%nat) by exact Hk. }
  destruct (argmax_hits (column 0%nat F j) Hle1 Hjfg) as [Hb Hone].
  rewrite column_length in Hb. destruct SF as [LF _].
  rewrite <- Eg in Hb, Hone. rewrite nth_column in Hone by exact Hb.
  split; [lia|]. split; [exact Hone|].
  intros g' Hg' Hone'.
  apply (single_one_unique (column 0%nat F j) g' g Hle1 Hsum).
  - rewrite nth_column by lia. exact Hone'.
  - rewrite nth_column by lia. exact Hone.
Qed.

(** With no anchor at all the clamp to k >= 1 selects nothing: the only row
    of the matching matrix stays empty. *)
Lemma dynamic_k_matching_no_anchor :
  ~ (forall g, (g < 1)%nat ->
       exists j, entry 0%nat (initial_matching 10 [[]] [[]] 1) g j = 1%nat).
Proof.
  intros H. destruct (H 0%nat (Nat.lt_0_1)) as [j Hj].
  vm_compute in Hj. destruct j; discriminate.
Qed.

Lemma dynamic_k_matching_unique_assignment_witness :
  let cost := [[1; 2; 3; 4]; [2; 1; 5; 6]; [9; 3#2; 1; 7]] in
  let ious := [[18#10; 16#10; 2#10; 0]; [1; 14#10; 0; 0]; [0; 12#10; 14#10; 2#10]] in
  snd (dynamic_k_matching 10 cost ious 3) = [true; true; true; false] /\
  snd (fst (dynamic_k_matching 10 cost ious 3)) = [0; 1; 2]%nat /\
  (forall g, (g < 3)%nat ->
     exists j, (j < 4)%nat /\ entry 0%nat (initial_matching 10 cost ious 3) g j = 1%nat).
Proof.
  intros cost ious.
  assert (Hc : shaped 3 4 cost) by (split; [reflexivity | repeat constructor]).
  assert (Hi : shaped 3 4 ious) by (split; [reflexivity | repeat constructor]).
  assert (HN : (1 <= 3)%nat) by lia.
  destruct (dynamic_k_matching_unique_assignment 10 3 4 cost ious HN Hc Hi)
    as (_ & _ & _ & _ & _ & Hsel & _).
  split; [vm_compute; reflexivity|]. split; [vm_compute; reflexivity|].
  apply Hsel. lia.
Defined.


(** **** Further facts about dynamic_k_matching *)

Lemma NoDup_firstn_of {A} (k : nat) (l : list A) : NoDup l -> NoDup (firstn k l).
Proof.
  intros H. rewrite <- (firstn_skipn k l) in H. now apply NoDup_app_remove_r in H.
Qed.

(** For every ground truth the loop selects exactly min(k, M) candidates,
    k being its dynamic k, and they are the cheapest: no unselected anchor
    costs less than a selected one. *)
Theorem initial_matching_selects_cheapest
    (topk_candidate N M : nat) (cost_matrix pairwise_ious : list (list Q)) (g : nat) :
  (1 <= N)%nat -> shaped N M cost_matrix -> (g < N)%nat ->
  let I := initial_matching topk_candidate cost_matrix pairwise_ious N in
  let k := Z.to_nat (nth g (dynamic_ks topk_candidate pairwise_ious) 1%Z) in
  list_sum (nth g I []) = Nat.min k M /\
  forall j j', (j < M)%nat -> (j' < M)%nat ->
    entry 0%nat I g j = 1%nat -> entry 0%nat I g j' = 0%nat ->
    entry 0 cost_matrix g j <= entry 0 cost_matrix g j'.
Proof.
  intros HN Hc Hg I k.
  destruct (initial_matching_rows topk_candidate N M cost_matrix pairwise_ious HN Hc g Hg)
    as [_ Erow]. fold I in Erow. fold k in Erow.
  set (row := nth g cost_matrix []) in *.
  assert (Lrow : length row = M) by (apply (shaped_row N M cost_matrix g Hc Hg)).
  set (ids := firstn k (argsort row)) in *.
  assert (Hnd : NoDup ids) by (apply NoDup_firstn_of, argsort_NoDup).
  assert (Hb : forall j, In j ids -> (j < M)%nat).
  { intros j Hj. apply in_firstn_in in Hj.
    pose proof (argsort_bound row) as B. rewrite Forall_forall in B.
    rewrite <- Lrow. now apply B. }
  split.
  - rewrite Erow, list_sum_scatter_ones.
    + assert (Z0 : list_sum (repeat 0%nat M) = 0%nat)
        by (clear; induction M; simpl; auto).
      rewrite Z0. unfold ids. now rewrite length_firstn, argsort_length, Lrow.
    + exact Hnd.
    + rewrite Forall_forall. intros j Hj. rewrite repeat_length.
      split; [now apply Hb|]. apply nth_repeat_in. now apply Hb.
  - intros j j' Hj Hj' H1 H0. unfold entry in H1, H0. rewrite Erow in H1, H0.
    assert (Hin : In j ids).
    { destruct (in_dec Nat.eq_dec j ids) as [Hin|Hnot]; [exact Hin|].
      rewrite scatter_ones_notin in H1 by exact Hnot.
      rewrite nth_repeat_in in H1 by exact Hj. discriminate. }
    assert (Hout : In j' (skipn k (argsort row))).
    { assert (Hall : In j' (argsort row)).
      { apply (Permutation_in (l := seq 0 (length row))).
        - symmetry. apply argsort_perm.
        - apply in_seq. lia. }
      rewrite <- (firstn_skipn k (argsort row)) in Hall.
      apply in_app_or in Hall. destruct Hall as [Hc'|Hs]; [|exact Hs].
      rewrite scatter_ones_in in H0; [discriminate | exact Hc' |].
      rewrite repeat_length. exact Hj'. }
    unfold entry. fold row. apply (argsort_cheapest_first row k); assumption.
Qed.

Lemma initial_matching_selects_cheapest_witness :
  let cost := [[1; 2; 3; 4]; [2; 1; 5; 6]; [9; 3#2; 1; 7]] in
  let ious := [[18#10; 16#10; 2#10; 0]; [1; 14#10; 0; 0]; [0; 12#10; 14#10; 2#10]] in
  list_sum (nth 1 (initial_matching 10 cost ious 3) []) = 2%nat /\
  entry 0 cost 1 0 <= entry 0 cost 1 3.
Proof.
  intros cost ious.
  assert (Hc : shaped 3 4 cost) by (split; [reflexivity | repeat constructor]).
  destruct (initial_matching_selects_cheapest 10 3 4 cost ious 1
              (le_S 1 2 (le_S 1 1 (le_n 1))) Hc (le_S 2 2 (le_n 2))) as [Hsum Hmin].
  split; [exact Hsum|].
  apply Hmin; [lia | lia | reflexivity | reflexivity].
Defined.

Lemma select_map {A B} (f : A -> B) (mask : list bool) (l : list A) :
  select mask (map f l) = map f (select mask l).
Proof.
  revert l. induction mask as [|b mask IH]; intros [|x l]; simpl; auto.
  destruct b; simpl; now rewrite IH.
Qed.

Lemma Qsum_acc (l : list Q) (a : Q) : fold_left Qplus l a == a + fold_left Qplus l 0.
Proof.
  revert a. induction l as [|x l IH]; intros a; simpl; [ring|].
  rewrite (IH (a + x)), (IH (0 + x)). ring.
Qed.

Lemma Qsum_cons (x : Q) (l : list Q) : Qsum (x :: l) == x + Qsum l.
Proof. unfold Qsum. simpl. rewrite Qsum_acc. ring. Qed.

Lemma Qsum_single (l : list Q) (g : nat) :
  (g < length l)%nat ->
  (forall g', (g' < length l)%nat -> g' <> g -> nth g' l 0 == 0) ->
  Qsum l == nth g l 0.
Proof.
  revert g. induction l as [|x l IH]; intros g Hg Hz; simpl in Hg; [lia|].
  rewrite Qsum_cons. destruct g as [|g]; simpl.
  - assert (E : Qsum l == 0).
    { clear IH Hg. assert (Hall : forall g', (g' < length l)%nat -> nth g' l 0 == 0).
      { intros g' Hg'. apply (Hz (S g')); simpl; lia. }
      clear Hz. induction l as [|y l IHl]; [reflexivity|].
      rewrite Qsum_cons, (Hall 0%nat) by (simpl; lia). simpl.
      rewrite IHl; [ring|]. intros g' Hg'. apply (Hall (S g')). simpl; lia. }
    rewrite E. ring.
  - rewrite (Hz 0%nat) by (simpl; lia). simpl. rewrite (IH g); [ring | lia |].
    intros g' Hg' Hne. apply (Hz (S g')); simpl; lia.
Qed.

(** The three results of [dynamic_k_matching] in terms of the final matching
    matrix and of the foreground anchors in increasing order. *)
Lemma dynamic_k_matching_outputs
    (topk_candidate N M : nat) (cost_matrix pairwise_ious : list (list Q)) :
  (1 <= N)%nat -> shaped N M cost_matrix ->
  let F := final_matching topk_candidate cost_matrix pairwise_ious N in
  let out := dynamic_k_matching topk_candidate cost_matrix pairwise_ious N in
  let fg := map (fun s => (0 <? s)%nat) (sum0 F M) in
  let fg_anchors := filter (fun j => nth j fg false) (seq 0 M) in
  let weighted :=
    mzip (fun (m : nat) (q : Q) => inject_Z (Z.of_nat m) * q) F pairwise_ious in
  snd out = fg /\
  snd (fst out) = map (fun j => argmax (column 0%nat F j)) fg_anchors /\
  fst (fst out) = map (fun j => Qsum (column 0 weighted j)) fg_anchors /\
  length fg = M /\
  (forall j, (j < M)%nat -> nth j fg false = (0 <? list_sum (column 0%nat F j))%nat).
Proof.
  intros HN Hc F out fg fg_anchors weighted.
  assert (Lfg : length fg = M) by (unfold fg; now rewrite length_map, sum0_length).
  assert (Esel : select fg (seq 0 M) = fg_anchors) by (apply select_seq0; exact Lfg).
  unfold out, dynamic_k_matching. fold F. cbn [fst snd].
  rewrite (shaped_size1 N M cost_matrix Hc) by lia. fold fg. fold weighted.
  split; [reflexivity|]. split; [now rewrite Esel|].
  split; [now rewrite select_map, Esel|]. split; [exact Lfg|].
  intros j Hj. unfold fg.
  rewrite nth_map_in with (da := 0%nat) by (rewrite sum0_length; exact Hj).
  now rewrite nth_sum0 by exact Hj.
Qed.

(** A foreground column of the final matching matrix: its first maximum is
    the one assigned ground truth, and the IoU-weighted column sums to the IoU
    with that ground truth. *)
Lemma foreground_column
    (topk_candidate N M : nat) (cost_matrix pairwise_ious : list (list Q)) (j : nat) :
  (1 <= N)%nat -> shaped N M cost_matrix -> shaped N M pairwise_ious -> (j < M)%nat ->
  let F := final_matching topk_candidate cost_matrix pairwise_ious N in
  let weighted :=
    mzip (fun (m : nat) (q : Q) => inject_Z (Z.of_nat m) * q) F pairwise_ious in
  let g := argmax (column 0%nat F j) in
  (0 < list_sum (column 0%nat F j))%nat ->
  (g < N)%nat /\ entry 0%nat F g j = 1%nat /\
  Qsum (column 0 weighted j) == entry 0 pairwise_ious g j.
Proof.
  intros HN Hc Hi Hj F weighted g Hjfg.
  destruct (final_column topk_candidate N M cost_matrix pairwise_ious HN Hc j Hj)
    as (Hle1 & Hsum & _). cbv beta in Hle1, Hsum. fold F in Hle1, Hsum.
  destruct (final_matching_spec topk_candidate N M cost_matrix pairwise_ious HN Hc)
    as [SF _]. fold F in SF.
  destruct (argmax_hits (column 0%nat F j) Hle1 Hjfg) as [Hb Hone].
  fold g in Hb, Hone.
  rewrite column_length in Hb. pose proof SF as [LF _]. rewrite LF in Hb.
  assert (Lw : length weighted = N).
  { unfold weighted, mzip. rewrite zipWith_length, LF. destruct Hi as [-> _].
    apply Nat.min_id. }
  assert (Ew : forall g', (g' < N)%nat ->
               nth g' (column 0 weighted j) 0 ==
               inject_Z (Z.of_nat (entry 0%nat F g' j)) * entry 0 pairwise_ious g' j).
  { intros g' Hg'. rewrite nth_column by lia. unfold weighted.
    rewrite entry_mzip with (da := 0%nat) (db := 0).
    - reflexivity.
    - lia.
    - destruct Hi as [-> _]. exact Hg'.
    - rewrite (shaped_row N M F g' SF Hg'). exact Hj.
    - rewrite (shaped_row N M pairwise_ious g' Hi Hg'). exact Hj. }
  split; [exact Hb|]. split; [rewrite <- (nth_column 0%nat F j g) by lia; exact Hone|].
  rewrite (Qsum_single (column 0 weighted j) g).
  - rewrite (Ew g Hb). rewrite <- (nth_column 0%nat F j g) by lia. rewrite Hone.
    simpl. ring.
  - rewrite column_length. lia.
  - intros g' Hg' Hne. rewrite column_length, Lw in Hg'. rewrite (Ew g' Hg').
    assert (Z0 : entry 0%nat F g' j = 0%nat).
    { assert (Hle : (nth g' (column 0%nat F j) 0%nat <= 1)%nat).
      { rewrite Forall_forall in Hle1. apply Hle1, nth_In. rewrite column_length. lia. }
      destruct (Nat.eq_dec (nth g' (column 0%nat F j) 0%nat) 1) as [E1|E1].
      - exfalso. apply Hne. apply (single_one_unique (column 0%nat F j) g' g Hle1 Hsum E1 Hone).
      - rewrite <- (nth_column 0%nat F j g') by lia. lia. }
    rewrite Z0. simpl. ring.
Qed.

(** [matched_pred_ious] holds, for every foreground anchor, the IoU between
    that anchor's prediction and the ground truth it is matched to. *)
Theorem dynamic_k_matching_matched_ious
    (topk_candidate N M : nat) (cost_matrix pairwise_ious : list (list Q)) (k : nat) :
  (1 <= N)%nat -> shaped N M cost_matrix -> shaped N M pairwise_ious ->
  let out := dynamic_k_matching topk_candidate cost_matrix pairwise_ious N in
  let matched_pred_ious := fst (fst out) in
  let matched_gt_inds := snd (fst out) in
  let fg_anchors := filter (fun j => nth j (snd out) false) (seq 0 M) in
  (k < length fg_anchors)%nat ->
  length matched_pred_ious = length fg_anchors /\
  nth k matched_pred_ious 0 ==
  entry 0 pairwise_ious (nth k matched_gt_inds 0%nat) (nth k fg_anchors 0%nat).
Proof.
  intros HN Hc Hi out matched_pred_ious matched_gt_inds fg_anchors Hk.
  destruct (dynamic_k_matching_outputs topk_candidate N M cost_matrix pairwise_ious HN Hc)
    as (Efg & Egt & Eio & Lfg & Nfg).
  cbv zeta in Efg, Egt, Eio, Lfg, Nfg. fold out in Efg, Egt, Eio.
  set (F := final_matching topk_candidate cost_matrix pairwise_ious N) in *.
  unfold fg_anchors in *. rewrite Efg in *.
  set (fg := map (fun s => (0 <? s)%nat) (sum0 F M)) in *.
  set (anchors := filter (fun j => nth j fg false) (seq 0 M)) in *.
  unfold matched_pred_ious, matched_gt_inds. rewrite Egt, Eio.
  split; [apply length_map|].
  rewrite !nth_map_in with (da := 0%nat) by exact Hk.
  set (j := nth k anchors 0%nat).
  assert (Hin : In j anchors) by (apply nth_In; exact Hk).
  apply filter_In in Hin. destruct Hin as [Hjr Hjfg]. apply in_seq in Hjr.
  assert (Hj : (j < M)%nat) by lia.
  rewrite (Nfg j Hj) in Hjfg. apply Nat.ltb_lt in Hjfg.
  apply (foreground_column topk_candidate N M cost_matrix pairwise_ious j HN Hc Hi Hj Hjfg).
Qed.

Lemma dynamic_k_matching_matched_ious_witness :
  let cost := [[1; 2; 3; 4]; [2; 1; 5; 6]; [9; 3#2; 1; 7]] in
  let ious := [[18#10; 16#10; 2#10; 0]; [1; 14#10; 0; 0]; [0; 12#10; 14#10; 2#10]] in
  nth 1 (fst (fst (dynamic_k_matching 10 cost ious 3))) 0 == 14#10.
Proof.
  intros cost ious.
  assert (Hc : shaped 3 4 cost) by (split; [reflexivity | repeat constructor]).
  assert (Hi : shaped 3 4 ious) by (split; [reflexivity | repeat constructor]).
  destruct (dynamic_k_matching_matched_ious 10 3 4 cost ious 1
              (le_S 1 2 (le_S 1 1 (le_n 1))) Hc Hi (le_S 2 2 (le_n 2))) as [_ H].
  rewrite H. reflexivity.
Defined.


(** **** __call__ *)

Section Call.

Variable ops : CostOps.
Variable num_classes : nat.
Variable topk_candidate : nat.

(** Returns [Some (cls_targets, box_targets, iou_targets)], or [None] where
    [gt_bboxes.max()] raises on an empty tensor.  Labels index the class
    dimension of [pred_cls]; shape errors of the later steps are not
    modelled. *)
Definition call (anchors : list point) (pred_cls : list (list Q)) (pred_box : list box)
    (gt_labels : list nat) (gt_bboxes : list box)
    : option (list nat * list box * list Q) :=
  let num_gt := length gt_labels in
  (* num_gt == 0 or gt_bboxes.max().item() == 0. *)
  let check_gt : option bool :=
    if (num_gt =? 0)%nat then Some true
    else option_map (fun m => Qeq_bool m 0) (max_all gt_bboxes) in
  match check_gt with
  | None => None
  | Some true =>
    let cls_targets := full (length pred_cls) num_classes in
    let box_targets := full (length pred_box) zero_box in
    let iou_targets := full (length pred_cls) 0 in
    Some (cls_targets, box_targets, iou_targets)
  | Some false =>
    let is_in_gt := find_inside_points gt_bboxes anchors in
    let valid_mask := valid_mask is_in_gt (length anchors) in
    let pair_wise_ious := fst (box_iou gt_bboxes pred_box) in
    let pair_wise_reg_loss := mmap (fun iou => neg_log ops (iou + (1 # 100000000))) pair_wise_ious in
    let pairwise_pred_scores :=
      map (fun label => map (fun scores => nth label scores 0) pred_cls) gt_labels in
    let scale_factor :=
      mzip (fun iou s => let d := Qabs (iou - sigmoid ops s) in d * d)
           pair_wise_ious pairwise_pred_scores in
    let pair_wise_cls_loss :=
      mzip Qmult
           (mzip (binary_cross_entropy_with_logits ops) pairwise_pred_scores pair_wise_ious)
           scale_factor in
    let cost_matrix :=
      mzip Qplus pair_wise_cls_loss (mmap (fun r => 3 * r) pair_wise_reg_loss) in
    let max_pad_value := mmap (fun _ => 1 * 1000000000) cost_matrix in
    let cost_matrix :=
      mzip (fun (cv : Q * Q) (valid : bool) => if valid then fst cv else snd cv)
           (mzip pair cost_matrix max_pad_value) (repeat valid_mask num_gt) in
    let matched := dynamic_k_matching topk_candidate cost_matrix pair_wise_ious num_gt in
    let matched_pred_ious := fst (fst matched) in
    let matched_gt_inds := snd (fst matched) in
    let fg_mask_inboxes := snd matched in
    let cls_targets := full (length pred_cls) num_classes in
    let cls_targets :=
      masked_assign fg_mask_inboxes
        (map (fun g => nth g gt_labels 0%nat) matched_gt_inds) cls_targets in
    let box_targets := full (length pred_box) zero_box in
    let box_targets :=
      masked_assign fg_mask_inboxes
        (map (fun g => nth g gt_bboxes zero_box) matched_gt_inds) box_targets in
    let iou_targets := full (length pred_cls) 0 in
    let iou_targets := masked_assign fg_mask_inboxes matched_pred_ious iou_targets in
    Some (cls_targets, box_targets, iou_targets)
  end.

(** C5.  With no ground truth, or with ground-truth boxes whose largest
    coordinate is 0, [__call__] returns at once: the class target is
    [num_classes] at every anchor, the box targets are zero boxes, one for
    every row of [pred_box], and the IoU targets are zero.  The result is
    written without any of the IoU, cost or matching functions. *)
Theorem call_without_ground_truth
    (anchors : list point) (pred_cls : list (list Q)) (pred_box : list box)
    (gt_labels : list nat) (gt_bboxes : list box) :
  length gt_labels = 0%nat \/
  (exists m, max_all gt_bboxes = Some m /\ m == 0) ->
  call anchors pred_cls pred_box gt_labels gt_bboxes =
  Some (repeat num_classes (length pred_cls),
        repeat zero_box (length pred_box),
        repeat 0 (length pred_cls)).
Proof.
  intros H. unfold call, full.
  destruct (Nat.eqb_spec (length gt_labels) 0) as [E|E]; [reflexivity|].
  destruct H as [H|(m & Hm & Hz)]; [contradiction|].
  rewrite Hm. cbn [option_map]. apply Qeq_bool_iff in Hz. now rewrite Hz.
Qed.

End Call.

Definition test_ops : CostOps := mkCostOps (fun x => 1 - x) (fun x => x) (fun s t => Qabs (s - t)).

Lemma call_without_ground_truth_witness :
  call test_ops 3 10 [mkPoint 1 1; mkPoint 2 2] [[1; 0; 0]; [0; 1; 0]]
       [mkBox 0 0 1 1; mkBox 1 1 2 2] [2%nat] [mkBox (-1) (-1) 0 0] =
  Some ([3; 3]%nat, [zero_box; zero_box], [0; 0]) /\
  call test_ops 3 10 [mkPoint 1 1; mkPoint 2 2] [[1; 0; 0]; [0; 1; 0]]
       [mkBox 0 0 1 1; mkBox 1 1 2 2] [] [] =
  Some ([3; 3]%nat, [zero_box; zero_box], [0; 0]).
Proof.
  split.
  - apply (call_without_ground_truth test_ops 3 10). right. exists 0. split; reflexivity.
  - apply (call_without_ground_truth test_ops 3 10). left. reflexivity.
Defined.

(** **** The targets on the matching path of __call__ *)

Lemma masked_assign_length {A} (mask : list bool) (vals l : list A) :
  length (masked_assign mask vals l) = length l.
Proof.
  revert vals l. induction mask as [|b mask IH]; intros vals [|x l]; simpl; auto;
    try (destruct b; reflexivity).
  destruct b; [destruct vals|]; simpl; now rewrite IH.
Qed.

Lemma masked_assign_false {A} (d : A) (mask : list bool) (vals l : list A) (j : nat) :
  nth j mask false = false -> nth j (masked_assign mask vals l) d = nth j l d.
Proof.
  revert vals l j. induction mask as [|b mask IH]; intros vals l j H.
  - destruct l; reflexivity.
  - destruct l as [|x l]; [destruct b; reflexivity|].
    destruct j as [|j]; simpl in H.
    + subst b. reflexivity.
    + destruct b; [destruct vals|]; simpl; apply IH; exact H.
Qed.

Lemma select_seq_ge (mask : list bool) (a n p : nat) :
  In p (select mask (seq a n)) -> (a <= p)%nat.
Proof.
  revert a n. induction mask as [|b mask IH]; intros a [|n] H; simpl in H; try contradiction.
  destruct b.
  - destruct H as [<-|H]; [lia|]. apply IH in H. lia.
  - apply IH in H. lia.
Qed.

Lemma masked_assign_true {A} (d : A) (mask : list bool) (vals l : list A) (a k : nat) :
  length l = length mask ->
  (k < length (select mask (seq a (length mask))))%nat -> (k < length vals)%nat ->
  nth (nth k (select mask (seq a (length mask))) 0%nat - a) (masked_assign mask vals l) d =
  nth k vals d.
Proof.
  revert vals l a k. induction mask as [|b mask IH]; intros vals l a k Hl Hk Hv.
  - simpl in Hk. lia.
  - destruct l as [|x l]; [discriminate|]. simpl in Hl.
    simpl length in *. simpl seq in *. destruct b; simpl select in *.
    + destruct vals as [|v vals]; [simpl in Hv; lia|].
      destruct k as [|k]; simpl nth at 2.
      * rewrite Nat.sub_diag. reflexivity.
      * simpl in Hk. simpl nth at 1.
        set (p := nth k (select mask (seq (S a) (length mask))) 0%nat).
        assert (Hp : (S a <= p)%nat).
        { apply (select_seq_ge mask (S a) (length mask)). apply nth_In. lia. }
        replace (p - a)%nat with (S (p - S a)) by lia. simpl.
        apply IH; [lia | lia | simpl in Hv; lia].
    + set (p := nth k (select mask (seq (S a) (length mask))) 0%nat).
      assert (Hp : (S a <= p)%nat).
      { apply (select_seq_ge mask (S a) (length mask)). apply nth_In. exact Hk. }
      replace (p - a)%nat with (S (p - S a)) by lia. simpl.
      apply IH; [lia | exact Hk | exact Hv].
Qed.

Lemma shaped_mzip {A B C} (f : A -> B -> C) N M m1 m2 :
  shaped N M m1 -> shaped N M m2 -> shaped N M (mzip f m1 m2).
Proof.
  intros S1 S2. pose proof (proj1 S1) as L1. pose proof (proj1 S2) as L2.
  apply shaped_of_rows.
  - unfold mzip. rewrite zipWith_length. lia.
  - intros g Hg. rewrite mzip_row_length by lia.
    rewrite (shaped_row N M m1 g S1 Hg), (shaped_row N M m2 g S2 Hg). apply Nat.min_id.
Qed.

Lemma shaped_mmap {A B} (f : A -> B) N M m : shaped N M m -> shaped N M (mmap f m).
Proof.
  intros S1. pose proof (proj1 S1) as L1. apply shaped_of_rows.
  - unfold mmap. rewrite length_map. exact L1.
  - intros g Hg. rewrite mmap_row_length by lia.
    apply (shaped_row N M m g S1 Hg).
Qed.

Lemma shaped_repeat {A} (r : list A) N : shaped N (length r) (repeat r N).
Proof.
  split; [apply repeat_length|]. rewrite Forall_forall. intros x Hx.
  apply repeat_spec in Hx. now subst.
Qed.

Lemma box_iou_shaped (boxes1 boxes2 : list box) :
  shaped (length boxes1) (length boxes2) (fst (box_iou boxes1 boxes2)).
Proof.
  apply shaped_of_rows.
  - destruct boxes1 as [|b bs]; [reflexivity|].
    pose proof (box_iou_shape (b :: bs) boxes2 0 (Nat.lt_0_succ _)) as H.
    destruct (box_iou (b :: bs) boxes2) as [iou union]. apply H.
  - intros g Hg. pose proof (box_iou_shape boxes1 boxes2 g Hg) as H.
    destruct (box_iou boxes1 boxes2) as [iou union]. apply H.
Qed.

(** On the matching path (at least one ground truth, largest coordinate not
    0) [__call__] returns one target per anchor, and every anchor is either
    background in all three targets or carries the label, the box and the
    predicted IoU of one and the same ground truth. *)
Theorem call_targets_per_anchor
    (ops : CostOps) (num_classes topk_candidate : nat)
    (anchors : list point) (pred_cls : list (list Q)) (pred_box : list box)
    (gt_labels : list nat) (gt_bboxes : list box) :
  let N := length gt_labels in
  let M := length anchors in
  (1 <= N)%nat -> length gt_bboxes = N -> length pred_cls = M -> length pred_box = M ->
  (exists m, max_all gt_bboxes = Some m /\ ~ m == 0) ->
  exists cls_targets box_targets iou_targets,
    call ops num_classes topk_candidate anchors pred_cls pred_box gt_labels gt_bboxes =
      Some (cls_targets, box_targets, iou_targets) /\
    length cls_targets = M /\ length box_targets = M /\ length iou_targets = M /\
    forall j, (j < M)%nat ->
      (nth j cls_targets 0%nat = num_classes /\ nth j box_targets (mkBox 1 1 1 1) = zero_box /\
       nth j iou_targets 1 = 0) \/
      (exists g, (g < N)%nat /\
         nth j cls_targets num_classes = nth g gt_labels 0%nat /\
         nth j box_targets zero_box = nth g gt_bboxes zero_box /\
         nth j iou_targets 0 == entry 0 (fst (box_iou gt_bboxes pred_box)) g j).
Proof.
  intros N M HN Hgb Hpc Hpb (m & Hm & Hnz).
  unfold call. fold N.
  destruct (Nat.eqb_spec N 0) as [E0|_]; [lia|].
  rewrite Hm. cbn [option_map].
  destruct (Qeq_bool m 0) eqn:Em; [apply Qeq_bool_iff in Em; contradiction|].
  cbv zeta.
  set (ious := fst (box_iou gt_bboxes pred_box)).
  assert (Si : shaped N M ious).
  { unfold ious. rewrite <- Hgb, <- Hpb. apply box_iou_shaped. }
  set (scores := map (fun label => map (fun sc => nth label sc 0) pred_cls) gt_labels).
  assert (Ss : shaped N M scores).
  { unfold scores. split; [apply length_map|]. rewrite Forall_forall. intros r Hr.
    apply in_map_iff in Hr. destruct Hr as (l & <- & _). now rewrite length_map. }
  set (vm := valid_mask (find_inside_points gt_bboxes anchors) (length anchors)).
  assert (Lvm : length vm = M) by (unfold vm, valid_mask; now rewrite length_map, sum0_length).
  match goal with
  | |- context [dynamic_k_matching topk_candidate ?c ious N] => set (cost := c)
  end.
  assert (Sc : shaped N M cost).
  { unfold cost.
    repeat first [assumption | apply shaped_mzip | apply shaped_mmap].
    rewrite <- Lvm. apply shaped_repeat. }
  destruct (dynamic_k_matching_outputs topk_candidate N M cost ious HN Sc)
    as (Efg & Egt & Eio & Lfg & Nfg). cbv zeta in Efg, Egt, Eio, Lfg, Nfg.
  set (out := dynamic_k_matching topk_candidate cost ious N) in *.
  set (F := final_matching topk_candidate cost ious N) in *.
  set (fg := map (fun s => (0 <? s)%nat) (sum0 F M)) in *.
  set (fga := filter (fun j => nth j fg false) (seq 0 M)) in *.
  rewrite Efg, Egt, Eio.
  eexists _, _, _. split; [reflexivity|].
  unfold full. rewrite !masked_assign_length, !repeat_length.
  split; [exact Hpc|]. split; [exact Hpb|]. split; [exact Hpc|].
  intros j Hj. destruct (nth j fg false) eqn:Ej.
  - right.
    assert (Hin : In j fga) by (apply filter_In; split; [apply in_seq; lia | exact Ej]).
    destruct (In_nth _ _ 0%nat Hin) as (k & Hk & Ek).
    assert (Esel : select fg (seq 0 (length fg)) = fga)
      by (rewrite Lfg; apply select_seq0; exact Lfg).
    assert (Epos : (nth k (select fg (seq 0 (length fg))) 0 - 0 = j)%nat)
      by (rewrite Esel, Ek; lia).
    rewrite (Nfg j Hj) in Ej. apply Nat.ltb_lt in Ej.
    destruct (foreground_column topk_candidate N M cost ious j HN Sc Si Hj Ej)
      as (Hg & _ & Hiou). fold F in Hg, Hiou.
    exists (argmax (column 0%nat F j)). split; [exact Hg|].
    assert (Hma : forall (A : Type) (d : A) (vals l : list A),
               length l = length fg -> (k < length vals)%nat ->
               nth j (masked_assign fg vals l) d = nth k vals d).
    { intros A d vals l Hl Hv. rewrite <- Epos.
      apply masked_assign_true; [exact Hl | rewrite Esel; exact Hk | exact Hv]. }
    rewrite !Hma by (rewrite ?repeat_length, ?length_map, ?Lfg; first [lia | assumption]).
    rewrite !map_map. rewrite !nth_map_in with (da := 0%nat) by exact Hk.
    rewrite Ek. split; [reflexivity|]. split; [reflexivity | exact Hiou].
  - left. rewrite !masked_assign_false by exact Ej.
    rewrite !nth_repeat_in by lia. repeat split; reflexivity.
Qed.

Lemma call_targets_per_anchor_witness :
  exists cls_targets box_targets iou_targets,
    call test_ops 3 10 [mkPoint (1 # 2) (1 # 2); mkPoint 5 5] [[1; 0; 0]; [0; 1; 0]]
         [mkBox 0 0 1 1; mkBox 4 4 6 6] [2%nat] [mkBox 0 0 1 1] =
      Some (cls_targets, box_targets, iou_targets) /\
    length cls_targets = 2%nat /\ length box_targets = 2%nat /\ length iou_targets = 2%nat.
Proof.
  destruct (call_targets_per_anchor test_ops 3 10 [mkPoint (1 # 2) (1 # 2); mkPoint 5 5]
              [[1; 0; 0]; [0; 1; 0]] [mkBox 0 0 1 1; mkBox 4 4 6 6] [2%nat] [mkBox 0 0 1 1]
              (le_n 1) eq_refl eq_refl eq_refl)
    as (c & b & i & H & Hc & Hb & Hi & _).
  - exists 1. split; [reflexivity | discriminate].
  - exists c, b, i. repeat split; assumption.
Defined.


Example call_assigns_one_anchor :
  call test_ops 3 10 [mkPoint (1 # 2) (1 # 2); mkPoint 5 5] [[1; 0; 0]; [0; 1; 0]]
       [mkBox 0 0 1 1; mkBox 4 4 6 6] [2%nat] [mkBox 0 0 1 1] =
  Some ([2; 3]%nat, [mkBox 0 0 1 1; zero_box], [1; 0]).
Proof. vm_compute. reflexivity. Qed.

End SimOTAMatcher.

(** *** HungarianMatcher *)

Module HungarianMatcher.

Definition find_inside_points (gt_bboxes : list box) (anchors : list point) : list (list bool) :=
  let num_anchors := length anchors in
  let num_gt := length gt_bboxes in
  let anchors_expand := repeat anchors num_gt in
  let gt_bboxes_expand := map (fun g => repeat g num_anchors) gt_bboxes in
  let lt := mzip psub anchors_expand (mmap lo gt_bboxes_expand) in
  let rb := mzip psub (mmap hi gt_bboxes_expand) anchors_expand in
  let bbox_deltas := mzip cat2 lt rb in
  mmap (fun d => Qltb 0 (min_values d)) bbox_deltas.

Lemma index_assign_spec {A} (d : A) idx vals l :
  NoDup idx -> Forall (fun a => (a < length l)%nat) idx -> length vals = length idx ->
  length (index_assign idx vals l) = length l /\
  (forall k, (k < length idx)%nat ->
     nth (nth k idx 0%nat) (index_assign idx vals l) d = nth k vals d) /\
  (forall a, ~ In a idx -> nth a (index_assign idx vals l) d = nth a l d).
Proof.
  unfold index_assign. revert vals l.
  induction idx as [|i idx IH]; intros vals l Hnd Hb Hlen.
  - destruct vals; [|discriminate]. simpl. repeat split; auto. intros k Hk. simpl in Hk. lia.
  - destruct vals as [|v vals]; [discriminate|]. simpl in *.
    inversion Hnd as [|? ? Hni Hnd']; subst. inversion Hb as [|? ? Hi Hb']; subst.
    destruct (IH vals (set_nth i v l) Hnd') as (L & Hin & Hout).
    { now rewrite set_nth_length. }
    { lia. }
    rewrite set_nth_length in L. split; [exact L|]. split.
    + intros [|k] Hk.
      * rewrite (Hout i Hni). apply nth_set_nth_eq. exact Hi.
      * apply Hin. lia.
    + intros a Ha. rewrite Hout by tauto. apply nth_set_nth_neq. tauto.
Qed.

(** **** The assignment solver

    [scipy.optimize.linear_sum_assignment] is not code of the repository.  Its
    documented result for a cost matrix of shape [N, M] with N <= M is a pair
    (row_ind, col_ind) in which row_ind is 0, ..., N-1 in order, col_ind lists
    N pairwise distinct columns, and the cost
    [cost_matrix[row_ind, col_ind].sum()] is minimal among all such
    assignments. *)

(** [cost_matrix[row_ind, col_ind].sum()]. *)
Definition assignment_cost (cost_matrix : list (list Q)) (row_ind col_ind : list nat) : Q :=
  Qsum (map (fun rc => entry 0 cost_matrix (fst rc) (snd rc)) (combine row_ind col_ind)).

(** [col_ind] assigns each of N rows a column of its own among M. *)
Definition one_to_one (N M : nat) (col_ind : list nat) : Prop :=
  length col_ind = N /\ NoDup col_ind /\ Forall (fun a => (a < M)%nat) col_ind.

Definition minimum_cost_assignment (solver : list (list Q) -> list nat * list nat) : Prop :=
  forall (N M : nat) (cost_matrix : list (list Q)),
    shaped N M cost_matrix -> (N <= M)%nat ->
    fst (solver cost_matrix) = seq 0 N /\
    one_to_one N M (snd (solver cost_matrix)) /\
    forall col_ind, one_to_one N M col_ind ->
      assignment_cost cost_matrix (seq 0 N) (snd (solver cost_matrix)) <=
      assignment_cost cost_matrix (seq 0 N) col_ind.

(** A solver by exhaustive search, to run the matcher on small inputs. *)
Fixpoint injections (n : nat) (avail : list nat) : list (list nat) :=
  match n with
  | O => [[]]
  | S n' =>
      flat_map (fun c => map (cons c) (injections n' (remove Nat.eq_dec c avail))) avail
  end.

Definition cheapest (f : list nat -> Q) (c : list nat) (cs : list (list nat)) : list nat :=
  fold_left (fun best x => if Qle_bool (f best) (f x) then best else x) cs c.

Definition exhaustive_search (cost_matrix : list (list Q)) : list nat * list nat :=
  let N := length cost_matrix in
  let M := length (hd [] cost_matrix) in
  let row_ind := seq 0 N in
  match injections N (seq 0 M) with
  | [] => ([], [])
  | c :: cs => (row_ind, cheapest (assignment_cost cost_matrix row_ind) c cs)
  end.

Lemma injections_sound (n : nat) (avail l : list nat) :
  In l (injections n avail) -> length l = n /\ NoDup l /\ incl l avail.
Proof.
  revert avail l. induction n as [|n IH]; intros avail l Hin; simpl in Hin.
  - destruct Hin as [<-|[]]. repeat split; [constructor | intros x []].
  - apply in_flat_map in Hin. destruct Hin as (c & Hc & Hl).
    apply in_map_iff in Hl. destruct Hl as (rest & <- & Hrest).
    destruct (IH _ _ Hrest) as (Hlen & Hnd & Hincl).
    split; [simpl; now rewrite Hlen|]. split.
    + constructor; [|exact Hnd]. intros Hcr. apply Hincl in Hcr.
      apply in_remove in Hcr. destruct Hcr as [_ Hne]. now apply Hne.
    + intros x [<-|Hx]; [exact Hc|]. apply Hincl in Hx. apply in_remove in Hx. tauto.
Qed.

Lemma injections_complete (avail l : list nat) :
  NoDup l -> incl l avail -> In l (injections (length l) avail).
Proof.
  revert avail. induction l as [|c rest IH]; intros avail Hnd Hincl; simpl.
  - now left.
  - inversion Hnd as [|? ? Hni Hnd']; subst.
    apply in_flat_map. exists c. split; [apply Hincl; now left|].
    apply in_map. apply IH; [exact Hnd'|].
    intros x Hx. apply in_in_remove.
    + intros ->. contradiction.
    + apply Hincl. now right.
Qed.

Lemma cheapest_spec (f : list nat -> Q) (cs : list (list nat)) (c : list nat) :
  In (cheapest f c cs) (c :: cs) /\
  forall x, In x (c :: cs) -> f (cheapest f c cs) <= f x.
Proof.
  revert c. induction cs as [|x cs IH]; intros c; simpl.
  - split; [now left|]. intros y [<-|[]]. apply Qle_refl.
  - set (c' := if Qle_bool (f c) (f x) then c else x).
    destruct (IH c') as [Hin Hmin]. fold (cheapest f c' cs).
    assert (Hc' : (c' = c \/ c' = x) /\ f c' <= f c /\ f c' <= f x).
    { unfold c'. destruct (Qle_bool (f c) (f x)) eqn:E.
      - apply Qle_bool_iff in E. split; [now left|]. split; [apply Qle_refl | exact E].
      - split; [now right|]. split; [|apply Qle_refl].
        apply Qlt_le_weak, Qnot_le_lt. intros H. apply Qle_bool_iff in H. congruence. }
    destruct Hc' as (Hcase & Hc & Hx). split.
    + destruct Hin as [<-|Hin]; [|now right; right].
      destruct Hcase as [->| ->]; [now left | now right; left].
    + intros y [<-|[<-|Hy]].
      * apply Qle_trans with (f c'); [apply Hmin; now left | exact Hc].
      * apply Qle_trans with (f c'); [apply Hmin; now left | exact Hx].
      * apply Hmin. now right.
Qed.

Lemma one_to_one_injection (N M : nat) (col_ind : list nat) :
  one_to_one N M col_ind <-> In col_ind (injections N (seq 0 M)).
Proof.
  split.
  - intros (Hlen & Hnd & Hb). rewrite <- Hlen. apply injections_complete; [exact Hnd|].
    intros a Ha. rewrite Forall_forall in Hb. apply in_seq. pose proof (Hb a Ha). lia.
  - intros Hin. destruct (injections_sound _ _ _ Hin) as (Hlen & Hnd & Hincl).
    split; [exact Hlen|]. split; [exact Hnd|]. rewrite Forall_forall. intros a Ha.
    apply Hincl, in_seq in Ha. lia.
Qed.

Lemma exhaustive_search_minimum : minimum_cost_assignment exhaustive_search.
Proof.
  intros N M cost_matrix [HN HM] Hle. unfold exhaustive_search. rewrite HN.
  assert (EM : N = 0%nat \/ length (hd [] cost_matrix) = M).
  { destruct cost_matrix as [|r rs]; [left; simpl in HN; lia|].
    right. simpl. inversion HM; assumption. }
  assert (Hseq : one_to_one N M (seq 0 N)).
  { split; [apply length_seq|]. split; [apply seq_NoDup|]. rewrite Forall_forall.
    intros a Ha. apply in_seq in Ha. lia. }
  assert (Hsame : forall l, In l (injections N (seq 0 (length (hd [] cost_matrix)))) <->
                            one_to_one N M l).
  { intros l. destruct EM as [->| ->]; [|symmetry; apply one_to_one_injection].
    simpl. split.
    - intros [<-|[]]. repeat split; constructor.
    - intros (Hl & _). destruct l; [now left | discriminate]. }
  destruct (injections N (seq 0 (length (hd [] cost_matrix)))) as [|c cs] eqn:E.
  { exfalso. apply (proj2 (Hsame (seq 0 N))) in Hseq. exact Hseq. }
  destruct (cheapest_spec (assignment_cost cost_matrix (seq 0 N)) cs c) as [Hin Hmin].
  cbn [fst snd]. split; [reflexivity|]. split.
  - apply Hsame. exact Hin.
  - intros col_ind Hc. apply Hmin. apply Hsame. exact Hc.
Qed.

Section Call.

Variable ops : CostOps.
Variable num_classes : nat.

(** [scipy.optimize.linear_sum_assignment]: the solver of the host ecosystem,
    returning (row_ind, col_ind); the theorem below takes it to meet
    [minimum_cost_assignment]. *)
Variable linear_sum_assignment : list (list Q) -> list nat * list nat.

(** The cost matrix handed to the solver. *)
Definition cost_matrix (anchors : list point) (pred_cls : list (list Q)) (pred_box : list box)
    (gt_labels : list nat) (gt_bboxes : list box) : list (list Q) :=
  let num_gts := length gt_labels in
  let is_in_gt := find_inside_points gt_bboxes anchors in
  let valid_mask := valid_mask is_in_gt (length anchors) in
  let pair_wise_ious := fst (box_iou gt_bboxes pred_box) in
  let pair_wise_reg_loss := mmap (fun iou => neg_log ops (iou + (1 # 100000000))) pair_wise_ious in
  let pairwise_pred_scores :=
    map (fun label => map (fun scores => nth label scores 0) pred_cls) gt_labels in
  let scale_factor :=
    mzip (fun iou s => let d := Qabs (iou - sigmoid ops s) in d * d)
         pair_wise_ious pairwise_pred_scores in
  let pair_wise_cls_loss :=
    mzip Qmult
         (mzip (binary_cross_entropy_with_logits ops) pairwise_pred_scores pair_wise_ious)
         scale_factor in
  let cost_matrix :=
    mzip Qplus pair_wise_cls_loss (mmap (fun r => 3 * r) pair_wise_reg_loss) in
  let max_pad_value := mmap (fun _ => 1 * 1000000000) cost_matrix in
  mzip (fun (cv : Q * Q) (valid : bool) => if valid then fst cv else snd cv)
       (mzip pair cost_matrix max_pad_value) (repeat valid_mask num_gts).

(** The local [fg_mask] of [__call__]. *)
Definition fg_mask (anchors : list point) (pred_cls : list (list Q)) (pred_box : list box)
    (gt_labels : list nat) (gt_bboxes : list box) : list bool :=
  let num_anchors := length anchors in
  let indices := linear_sum_assignment (cost_matrix anchors pred_cls pred_box gt_labels gt_bboxes) in
  let pred_indices := snd indices in
  index_assign pred_indices (repeat true (length pred_indices)) (repeat false num_anchors).

(** Returns (cls_target, box_target, iou_target). *)
Definition call (anchors : list point) (pred_cls : list (list Q)) (pred_box : list box)
    (gt_labels : list nat) (gt_bboxes : list box) : list nat * list box * list Q :=
  let pair_wise_ious := fst (box_iou gt_bboxes pred_box) in
  let cost_matrix := cost_matrix anchors pred_cls pred_box gt_labels gt_bboxes in
  let indices := linear_sum_assignment cost_matrix in
  let gt_indices := fst indices in
  let pred_indices := snd indices in
  let cls_target := full (length pred_cls) num_classes in
  let cls_target := index_assign pred_indices gt_labels cls_target in
  let box_target := full (length pred_box) zero_box in
  let box_target := index_assign pred_indices gt_bboxes box_target in
  let iou_target := full (length pred_box) 0 in
  let iou_target :=
    index_assign pred_indices
      (map (fun ga => entry 0 pair_wise_ious (fst ga) (snd ga)) (combine gt_indices pred_indices))
      iou_target in
  (cls_target, box_target, iou_target).

(** The targets for an assignment (gt_indices, pred_indices) that lists every
    ground truth in order and pairwise distinct anchors: exactly the anchors of
    pred_indices are foreground and carry label, box and IoU of their ground
    truth; every other anchor is background. *)
Lemma call_targets_of_assignment
    (anchors : list point) (pred_cls : list (list Q)) (pred_box : list box)
    (gt_labels : list nat) (gt_bboxes : list box) :
  let num_gts := length gt_labels in
  let num_anchors := length anchors in
  let indices :=
    linear_sum_assignment (cost_matrix anchors pred_cls pred_box gt_labels gt_bboxes) in
  let gt_indices := fst indices in
  let pred_indices := snd indices in
  let targets := call anchors pred_cls pred_box gt_labels gt_bboxes in
  let cls_target := fst (fst targets) in
  let box_target := snd (fst targets) in
  let iou_target := snd targets in
  let fg := fg_mask anchors pred_cls pred_box gt_labels gt_bboxes in
  length gt_bboxes = num_gts -> length pred_cls = num_anchors ->
  length pred_box = num_anchors -> (num_gts <= num_anchors)%nat ->
  gt_indices = seq 0 num_gts -> length pred_indices = num_gts ->
  NoDup pred_indices -> Forall (fun a => (a < num_anchors)%nat) pred_indices ->
  length cls_target = num_anchors /\ length box_target = num_anchors /\
  length iou_target = num_anchors /\
  length (filter (fun a => nth a fg false) (seq 0 num_anchors)) = num_gts /\
  (forall k, (k < num_gts)%nat ->
     let g := nth k gt_indices 0%nat in
     let a := nth k pred_indices 0%nat in
     nth a fg false = true /\
     nth a cls_target num_classes = nth g gt_labels 0%nat /\
     nth a box_target zero_box = nth g gt_bboxes zero_box /\
     nth a iou_target 0 = entry 0 (fst (box_iou gt_bboxes pred_box)) g a) /\
  (forall a, (a < num_anchors)%nat -> ~ In a pred_indices ->
     nth a fg false = false /\
     nth a cls_target 0%nat = num_classes /\
     nth a box_target (mkBox 1 1 1 1) = zero_box /\
     nth a iou_target 1 = 0).
Proof.
  intros num_gts num_anchors indices gt_indices pred_indices targets
         cls_target box_target iou_target fg Hgb Hpc Hpb Hle Hgi Hlen Hnd Hb.
  set (ious := fst (box_iou gt_bboxes pred_box)).
  set (vals := map (fun ga => entry 0 ious (fst ga) (snd ga)) (combine gt_indices pred_indices)).
  assert (Lvals : length vals = length pred_indices).
  { unfold vals. rewrite length_map, length_combine, Hgi, length_seq, Hlen. apply Nat.min_id. }
  destruct (index_assign_spec num_classes pred_indices gt_labels
              (full (length pred_cls) num_classes) Hnd) as (Lc & Cin & _).
  { unfold full. now rewrite repeat_length, Hpc. }
  { now rewrite Hlen. }
  destruct (index_assign_spec 0%nat pred_indices gt_labels
              (full (length pred_cls) num_classes) Hnd) as (_ & _ & Cout).
  { unfold full. now rewrite repeat_length, Hpc. }
  { now rewrite Hlen. }
  destruct (index_assign_spec zero_box pred_indices gt_bboxes
              (full (length pred_box) zero_box) Hnd) as (Lb & Bin & _).
  { unfold full. now rewrite repeat_length, Hpb. }
  { now rewrite Hlen, Hgb. }
  destruct (index_assign_spec (mkBox 1 1 1 1) pred_indices gt_bboxes
              (full (length pred_box) zero_box) Hnd) as (_ & _ & Bout).
  { unfold full. now rewrite repeat_length, Hpb. }
  { now rewrite Hlen, Hgb. }
  destruct (index_assign_spec 0 pred_indices vals (full (length pred_box) 0) Hnd)
    as (Li & Iin & _).
  { unfold full. now rewrite repeat_length, Hpb. }
  { exact Lvals. }
  destruct (index_assign_spec 1 pred_indices vals (full (length pred_box) 0) Hnd)
    as (_ & _ & Iout).
  { unfold full. now rewrite repeat_length, Hpb. }
  { exact Lvals. }
  destruct (index_assign_spec false pred_indices (repeat true (length pred_indices))
              (repeat false num_anchors) Hnd) as (Lf & Fin & Fout).
  { now rewrite repeat_length. }
  { now rewrite repeat_length. }
  assert (Ecls : cls_target =
                 index_assign pred_indices gt_labels (repeat num_classes (length pred_cls)))
    by reflexivity.
  assert (Ebox : box_target =
                 index_assign pred_indices gt_bboxes (repeat zero_box (length pred_box)))
    by reflexivity.
  assert (Eiou : iou_target = index_assign pred_indices vals (repeat 0 (length pred_box)))
    by reflexivity.
  assert (Efg : fg = index_assign pred_indices (repeat true (length pred_indices))
                                  (repeat false num_anchors)) by reflexivity.
  rewrite <- Efg in Lf, Fin, Fout. rewrite repeat_length in Lf.
  unfold full in *. rewrite repeat_length in Lc, Lb, Li.
  rewrite <- Ecls in Lc, Cin, Cout. rewrite <- Ebox in Lb, Bin, Bout.
  rewrite <- Eiou in Li, Iin, Iout.
  assert (Ffg : forall a, (a < num_anchors)%nat -> nth a fg false = true <-> In a pred_indices).
  { intros a Ha. split.
    - intros Ht. destruct (in_dec Nat.eq_dec a pred_indices) as [Hin|Hnot]; [exact Hin|].
      rewrite (Fout a Hnot) in Ht. rewrite nth_repeat_in in Ht by exact Ha. discriminate.
    - intros Hin. destruct (In_nth _ _ 0%nat Hin) as (k & Hk & <-).
      rewrite (Fin k Hk). apply nth_repeat_in. exact Hk. }
  split; [exact (eq_trans Lc Hpc)|]. split; [exact (eq_trans Lb Hpb)|].
  split; [exact (eq_trans Li Hpb)|]. split.
  { rewrite <- Hlen. apply Permutation_length. apply NoDup_Permutation.
    - apply NoDup_filter, seq_NoDup.
    - exact Hnd.
    - intros a. rewrite filter_In, in_seq. split.
      + intros [Ha Ht]. apply Ffg; [lia | exact Ht].
      + intros Hin. rewrite Forall_forall in Hb. pose proof (Hb a Hin).
        split; [lia|]. apply Ffg; [lia | exact Hin]. }
  split.
  { intros k Hk. cbv zeta.
    set (g := nth k gt_indices 0%nat). set (a := nth k pred_indices 0%nat).
    assert (Hk' : (k < length pred_indices)%nat) by lia.
    assert (Eg : g = k) by (unfold g; rewrite Hgi; apply seq_nth; exact Hk).
    split; [|split; [|split]].
    - unfold a. rewrite (Fin k Hk'). apply nth_repeat_in. exact Hk'.
    - unfold a. rewrite (Cin k Hk'), Eg. apply nth_indep. exact Hk.
    - unfold a. rewrite (Bin k Hk'), Eg. reflexivity.
    - unfold a. rewrite (Iin k Hk'). unfold vals.
      rewrite nth_map_in with (da := (0%nat, 0%nat))
        by (rewrite length_combine, Hgi, length_seq, Hlen; lia).
      rewrite combine_nth by (rewrite Hgi, length_seq, Hlen; reflexivity).
      reflexivity. }
  intros a Ha Hnot. split; [|split; [|split]].
  - rewrite (Fout a Hnot). apply nth_repeat_in. exact Ha.
  - rewrite (Cout a Hnot). apply nth_repeat_in. lia.
  - rewrite (Bout a Hnot). apply nth_repeat_in. lia.
  - rewrite (Iout a Hnot). apply nth_repeat_in. lia.
Qed.

Lemma cost_matrix_shaped
    (anchors : list point) (pred_cls : list (list Q)) (pred_box : list box)
    (gt_labels : list nat) (gt_bboxes : list box) :
  length gt_bboxes = length gt_labels -> length pred_cls = length anchors ->
  length pred_box = length anchors ->
  shaped (length gt_labels) (length anchors)
         (cost_matrix anchors pred_cls pred_box gt_labels gt_bboxes).
Proof.
  intros Hgb Hpc Hpb.
  set (N := length gt_labels) in *. set (M := length anchors) in *.
  assert (Si : shaped N M (fst (box_iou gt_bboxes pred_box))).
  { rewrite <- Hgb, <- Hpb. apply SimOTAMatcher.box_iou_shaped. }
  assert (Ss : shaped N M
                 (map (fun label => map (fun scores => nth label scores 0) pred_cls)
                      gt_labels)).
  { split; [apply length_map|]. apply Forall_forall. intros r Hr.
    apply in_map_iff in Hr. destruct Hr as (l & <- & _). now rewrite length_map. }
  assert (Lv : length (valid_mask (find_inside_points gt_bboxes anchors) M) = M)
    by (unfold valid_mask; now rewrite length_map, sum0_length).
  pose proof (SimOTAMatcher.shaped_repeat
                (valid_mask (find_inside_points gt_bboxes anchors) M) N) as Sv.
  rewrite Lv in Sv.
  unfold cost_matrix. cbv zeta. fold N. fold M.
  repeat first [assumption | apply SimOTAMatcher.shaped_mzip | apply SimOTAMatcher.shaped_mmap].
Qed.

(** C3.  Let the solver return, for every cost matrix with no more rows than
    columns, a minimum-cost one-to-one assignment of the rows, as
    [linear_sum_assignment] is documented to.  Then for num_gts <=
    num_anchors it assigns, on the cost matrix of the call, each ground truth
    an anchor of its own at minimum total cost; exactly these num_gts anchors
    are foreground; an anchor a assigned to ground truth g carries its label,
    its box and IoU(gt_bboxes[g], pred_box[a]); every other anchor carries
    [num_classes], the zero box and IoU 0. *)
Theorem call_targets
    (anchors : list point) (pred_cls : list (list Q)) (pred_box : list box)
    (gt_labels : list nat) (gt_bboxes : list box) :
  let num_gts := length gt_labels in
  let num_anchors := length anchors in
  let cost := cost_matrix anchors pred_cls pred_box gt_labels gt_bboxes in
  let indices := linear_sum_assignment cost in
  let gt_indices := fst indices in
  let pred_indices := snd indices in
  let targets := call anchors pred_cls pred_box gt_labels gt_bboxes in
  let cls_target := fst (fst targets) in
  let box_target := snd (fst targets) in
  let iou_target := snd targets in
  let fg := fg_mask anchors pred_cls pred_box gt_labels gt_bboxes in
  minimum_cost_assignment linear_sum_assignment ->
  length gt_bboxes = num_gts -> length pred_cls = num_anchors ->
  length pred_box = num_anchors -> (num_gts <= num_anchors)%nat ->
  (gt_indices = seq 0 num_gts /\ one_to_one num_gts num_anchors pred_indices /\
   forall col_ind, one_to_one num_gts num_anchors col_ind ->
     assignment_cost cost gt_indices pred_indices <=
     assignment_cost cost (seq 0 num_gts) col_ind) /\
  length cls_target = num_anchors /\ length box_target = num_anchors /\
  length iou_target = num_anchors /\
  length (filter (fun a => nth a fg false) (seq 0 num_anchors)) = num_gts /\
  (forall k, (k < num_gts)%nat ->
     let g := nth k gt_indices 0%nat in
     let a := nth k pred_indices 0%nat in
     nth a fg false = true /\
     nth a cls_target num_classes = nth g gt_labels 0%nat /\
     nth a box_target zero_box = nth g gt_bboxes zero_box /\
     nth a iou_target 0 = entry 0 (fst (box_iou gt_bboxes pred_box)) g a) /\
  (forall a, (a < num_anchors)%nat -> ~ In a pred_indices ->
     nth a fg false = false /\
     nth a cls_target 0%nat = num_classes /\
     nth a box_target (mkBox 1 1 1 1) = zero_box /\
     nth a iou_target 1 = 0).
Proof.
  intros num_gts num_anchors cost indices gt_indices pred_indices targets
         cls_target box_target iou_target fg Hsolver Hgb Hpc Hpb Hle.
  destruct (Hsolver num_gts num_anchors cost
              (cost_matrix_shaped anchors pred_cls pred_box gt_labels gt_bboxes Hgb Hpc Hpb)
              Hle) as (Hgi & (Hlen & Hnd & Hb) & Hmin).
  split.
  - split; [exact Hgi|]. split; [repeat split; assumption|].
    intros col_ind Hc. unfold gt_indices, indices. rewrite Hgi. apply Hmin. exact Hc.
  - exact (call_targets_of_assignment anchors pred_cls pred_box gt_labels gt_bboxes
             Hgb Hpc Hpb Hle Hgi Hlen Hnd Hb).
Qed.

End Call.

Lemma call_targets_witness :
  let anchors := [mkPoint (1 # 2) (1 # 2); mkPoint 5 5] in
  let pred_cls := [[1; 0; 0]; [0; 1; 0]] in
  let pred_box := [mkBox 0 0 1 1; mkBox 4 4 6 6] in
  let targets :=
    call SimOTAMatcher.test_ops 3 exhaustive_search anchors pred_cls pred_box
         [2%nat] [mkBox 4 4 6 6] in
  snd (exhaustive_search
         (cost_matrix SimOTAMatcher.test_ops anchors pred_cls pred_box
                      [2%nat] [mkBox 4 4 6 6])) = [1%nat] /\
  (nth 1 (fst (fst targets)) 3%nat = 2%nat /\
   nth 1 (snd (fst targets)) zero_box = mkBox 4 4 6 6) /\
  (nth 0 (fst (fst targets)) 0%nat = 3%nat /\
   nth 0 (snd (fst targets)) (mkBox 1 1 1 1) = zero_box /\
   nth 0 (snd targets) 1 = 0).
Proof.
  intros anchors pred_cls pred_box targets.
  destruct (call_targets SimOTAMatcher.test_ops 3 exhaustive_search anchors pred_cls pred_box
              [2%nat] [mkBox 4 4 6 6] exhaustive_search_minimum eq_refl eq_refl eq_refl
              (le_S 1 1 (le_n 1)))
    as (_ & _ & _ & _ & _ & Hfg & Hbg).
  assert (E : snd (exhaustive_search
                     (cost_matrix SimOTAMatcher.test_ops anchors pred_cls pred_box
                                  [2%nat] [mkBox 4 4 6 6])) = [1%nat])
    by (vm_compute; reflexivity).
  split; [exact E|]. split.
  - destruct (Hfg 0%nat (le_n 1)) as (_ & Hc & Hx & _). cbv zeta in Hc, Hx.
    rewrite E in Hc, Hx. split; [exact Hc | exact Hx].
  - destruct (Hbg 0%nat (le_S 1 1 (le_n 1))) as (_ & Hc & Hx & Hi).
    + rewrite E. intros [H|[]]. discriminate.
    + split; [exact Hc|]. split; [exact Hx | exact Hi].
Defined.

End HungarianMatcher.

(** C10.  [find_inside_points] is the same function in both matchers; it marks
    anchor j as inside ground-truth box i exactly when x1 < ax < x2 and
    y1 < ay < y2, with strict inequalities.  An anchor lying on a boundary
    line of a box is not inside that box, and an anchor that is strictly
    inside no ground-truth box (such as one that only touches boundaries) is
    not in the valid candidate mask. *)
Theorem find_inside_points_strict (gt_bboxes : list box) (anchors : list point) (i j : nat) :
  (i < length gt_bboxes)%nat -> (j < length anchors)%nat ->
  let g := nth i gt_bboxes zero_box in
  let a := nth j anchors (mkPoint 0 0) in
  let is_in_gt := SimOTAMatcher.find_inside_points gt_bboxes anchors in
  HungarianMatcher.find_inside_points gt_bboxes anchors = is_in_gt /\
  (entry false is_in_gt i j = true <-> strictly_inside g a) /\
  (on_boundary_line g a -> entry false is_in_gt i j = false) /\
  (nth j (valid_mask is_in_gt (length anchors)) false = true <->
   exists i', (i' < length gt_bboxes)%nat /\ strictly_inside (nth i' gt_bboxes zero_box) a) /\
  ((forall i', (i' < length gt_bboxes)%nat ->
      on_boundary_line (nth i' gt_bboxes zero_box) a) ->
   nth j (valid_mask is_in_gt (length anchors)) false = false).
Proof.
  intros Hi Hj g a is_in_gt.
  pose proof (SimOTAMatcher.find_inside_points_entry gt_bboxes anchors) as E.
  pose proof (SimOTAMatcher.find_inside_points_shaped gt_bboxes anchors) as S.
  fold is_in_gt in E, S.
  assert (Hbd : forall g', on_boundary_line g' a -> ~ strictly_inside g' a).
  { intros g' Hb (H1 & H2 & H3 & H4). unfold on_boundary_line in Hb.
    destruct Hb as [Hb|[Hb|[Hb|Hb]]]; rewrite Hb in *;
      eapply Qlt_irrefl; eassumption. }
  assert (Hvalid : nth j (valid_mask is_in_gt (length anchors)) false = true <->
                   exists i', (i' < length gt_bboxes)%nat /\
                              strictly_inside (nth i' gt_bboxes zero_box) a).
  { unfold valid_mask.
    rewrite nth_map_in with (da := 0%nat) by (rewrite sum0_length; exact Hj).
    rewrite nth_sum0 by exact Hj. rewrite Nat.ltb_lt.
    rewrite column_seq. unfold mmap at 2. rewrite length_map. destruct S as [LS RS].
    rewrite LS. rewrite list_sum_pos_iff. split.
    - intros (v & Hv & Hpos). apply in_map_iff in Hv. destruct Hv as (i' & <- & Hi').
      apply in_seq in Hi'. exists i'. split; [lia|]. apply E; [lia | exact Hj|].
      rewrite entry_mmap with (da := false) in Hpos.
      + destruct (entry false is_in_gt i' j); [reflexivity | simpl in Hpos; lia].
      + lia.
      + rewrite Forall_forall in RS. rewrite (RS (nth i' is_in_gt [])); [exact Hj|].
        apply nth_In. lia.
    - intros (i' & Hi' & Hin). apply E in Hin; [|exact Hi' | exact Hj].
      exists 1%nat. split; [|lia]. apply in_map_iff. exists i'. split; [|apply in_seq; lia].
      rewrite entry_mmap with (da := false).
      + now rewrite Hin.
      + lia.
      + rewrite Forall_forall in RS. rewrite (RS (nth i' is_in_gt [])); [exact Hj|].
        apply nth_In. lia. }
  split; [reflexivity|]. split; [apply E; assumption|]. split.
  { intros Hb. apply not_true_is_false. intros Ht. apply E in Ht; [|assumption..].
    exact (Hbd g Hb Ht). }
  split; [exact Hvalid|].
  intros Hall. apply not_true_is_false. intros Ht. apply Hvalid in Ht.
  destruct Ht as (i' & Hi' & Hin). exact (Hbd _ (Hall i' Hi') Hin).
Qed.

Lemma find_inside_points_strict_witness :
  let gt_bboxes := [mkBox 0 0 2 2; mkBox 2 0 4 2] in
  let anchors := [mkPoint 1 1; mkPoint 2 1] in
  let is_in_gt := SimOTAMatcher.find_inside_points gt_bboxes anchors in
  entry false is_in_gt 0 0 = true /\ entry false is_in_gt 0 1 = false /\
  nth 1 (valid_mask is_in_gt 2) false = false.
Proof.
  intros gt_bboxes anchors is_in_gt.
  destruct (find_inside_points_strict gt_bboxes anchors 0 0) as (_ & H00 & _);
    [simpl; lia | simpl; lia |].
  destruct (find_inside_points_strict gt_bboxes anchors 0 1) as (_ & _ & H01 & _ & Hv);
    [simpl; lia | simpl; lia |].
  split; [|split].
  - apply H00. unfold strictly_inside; simpl. repeat split; reflexivity.
  - apply H01. right. left. reflexivity.
  - apply Hv. intros [|[|i']] Hi'.
    + right. left. reflexivity.
    + left. reflexivity.
    + simpl in Hi'. lia.
Defined.

End Matcher.

(* ================================================================== *)
(** ** float32 arithmetic *)
(* ================================================================== *)

(** The tensors of the heads hold IEEE 754 binary32 numbers.  A finite
    float32 is an integer of fewer than 25 bits times a power of two not
    below 2^-149; an arithmetic operation returns its exact result rounded to
    the nearest such number, ties going to the even significand.  Overflow to
    infinity and NaN are not represented. *)

Module Float32.

Local Open Scope Q_scope.

Definition prec : Z := 24.
Definition emin : Z := (-149)%Z.

Definition pow2 (e : Z) : Q := Qpower 2 e.

(** floor(log2 a), for a positive rational. *)
Definition ilog2 (a : Q) : Z :=
  let e := (Z.log2 (Qnum a) - Z.log2 (Zpos (Qden a)))%Z in
  if Qle_bool (pow2 e) a then e else (e - 1)%Z.

(** The integer nearest to a rational that is not negative, ties to even. *)
Definition nearest_even (m : Q) : Z :=
  let n := Qnum m in
  let d := Zpos (Qden m) in
  let k := (n / d)%Z in
  let r := (n mod d)%Z in
  match (2 * r ?= d)%Z with
  | Lt => k
  | Gt => (k + 1)%Z
  | Eq => if Z.even k then k else (k + 1)%Z
  end.

(** Rounding to the nearest float32. *)
Definition round (q : Q) : Q :=
  if Qeq_bool q 0 then 0
  else
    let a := Qabs q in
    let e := ilog2 a in
    let u := Z.max (e - (prec - 1)) emin in
    let k := nearest_even (a / pow2 u) in
    let r := inject_Z k * pow2 u in
    Qred (if Qle_bool 0 q then r else - r).

(** 0.1 and -1/3 as float32; integers above 2^24 round to even
    significands; the subnormal range has spacing 2^-149. *)
Example round_examples :
  round (1 # 10) = 13421773 # 134217728 /\
  round 4 = 4 /\
  round 16777217 = 16777216 /\
  round 16777219 = 16777220 /\
  round (- (1 # 3)) = - (11184811 # 33554432) /\
  round (1 # (2 ^ 150)) = 0 /\
  round (3 # (2 ^ 150)) = 1 # (2 ^ 148).
Proof. vm_compute. repeat split. Qed.

End Float32.

(* ================================================================== *)
(** ** FCOS head (models/head/fcos_head.py) *)
(* ================================================================== *)

Module FCOSHead.

Open Scope Q_scope.

(** [torch.cat([x1y1, x2y2], dim=-1)] on two [*, 2] rows. *)
Definition cat_box (p q : point) : box := mkBox (px p) (py p) (px q) (py q).

(** [pred_deltas] is a [M, 4] tensor of (l, t, r, b) rows, [anchors] a
    [M, 2] tensor of points. *)
Definition decode_boxes (pred_deltas : list box) (anchors : list point) : list box :=
  let pred_x1y1 := zipWith psub anchors (map lo pred_deltas) in
  let pred_x2y2 := zipWith padd anchors (map hi pred_deltas) in
  let pred_box := zipWith cat_box pred_x1y1 pred_x2y2 in
  pred_box.

(** The batched form: [pred_deltas] of shape [B, M, 4] against [M, 2]. *)
Definition decode_boxes_batch (pred_deltas : list (list box)) (anchors : list point)
    : list (list box) :=
  map (fun deltas => decode_boxes deltas anchors) pred_deltas.

(** Entrywise equality of two [4]-rows. *)
Definition box_eq (b c : box) : Prop :=
  bx1 b == bx1 c /\ by1 b == by1 c /\ bx2 b == bx2 c /\ by2 b == by2 c.

Lemma decode_boxes_length pred_deltas anchors :
  length pred_deltas = length anchors ->
  length (decode_boxes pred_deltas anchors) = length anchors.
Proof.
  intros H. unfold decode_boxes.
  rewrite !zipWith_length, !length_map, H. now rewrite !Nat.min_id.
Qed.

Lemma decode_boxes_nth pred_deltas anchors k :
  length pred_deltas = length anchors -> (k < length anchors)%nat ->
  let d := nth k pred_deltas zero_box in
  let p := nth k anchors (mkPoint 0 0) in
  nth k (decode_boxes pred_deltas anchors) zero_box =
  mkBox (px p - bx1 d) (py p - by1 d) (px p + bx2 d) (py p + by2 d).
Proof.
  intros Hlen Hk d p. unfold decode_boxes.
  assert (L1 : length (zipWith psub anchors (map lo pred_deltas)) = length anchors)
    by (rewrite zipWith_length, length_map, Hlen; apply Nat.min_id).
  assert (L2 : length (zipWith padd anchors (map hi pred_deltas)) = length anchors)
    by (rewrite zipWith_length, length_map, Hlen; apply Nat.min_id).
  rewrite nth_zipWith with (da := mkPoint 0 0) (db := mkPoint 0 0) by lia.
  rewrite !nth_zipWith with (da := mkPoint 0 0) (db := lo zero_box)
    by (rewrite ?length_map; lia).
  change (lo zero_box) with (hi zero_box) at 2.
  rewrite (map_nth lo), (map_nth hi). reflexivity.
Qed.

(** **** The tensors' arithmetic

    The entries of [anchors] and [pred_deltas] are float32 numbers, and each
    subtraction and addition of [decode_boxes] returns its exact result
    rounded.  The rounding is a parameter here: with the identity the
    definitions below are [decode_boxes] above, the code read in exact
    arithmetic; with [Float32.round] they are the code as it runs. *)

Section Rounded.

Variable rnd : Q -> Q.

Definition psub_rnd (p q : point) : point :=
  mkPoint (rnd (px p - px q)) (rnd (py p - py q)).

Definition padd_rnd (p q : point) : point :=
  mkPoint (rnd (px p + px q)) (rnd (py p + py q)).

Definition decode_boxes_rnd (pred_deltas : list box) (anchors : list point) : list box :=
  let pred_x1y1 := zipWith psub_rnd anchors (map lo pred_deltas) in
  let pred_x2y2 := zipWith padd_rnd anchors (map hi pred_deltas) in
  let pred_box := zipWith cat_box pred_x1y1 pred_x2y2 in
  pred_box.

(** The delta encoding of the specification, (px - x1, py - y1, x2 - px,
    y2 - py), computed in the same arithmetic. *)
Definition encode_deltas_rnd (b : box) (p : point) : box :=
  mkBox (rnd (px p - bx1 b)) (rnd (py p - by1 b)) (rnd (bx2 b - px p)) (rnd (by2 b - py p)).

Lemma decode_boxes_rnd_length pred_deltas anchors :
  length pred_deltas = length anchors ->
  length (decode_boxes_rnd pred_deltas anchors) = length anchors.
Proof.
  intros H. unfold decode_boxes_rnd.
  rewrite !zipWith_length, !length_map, H. now rewrite !Nat.min_id.
Qed.

Lemma decode_boxes_rnd_nth pred_deltas anchors k :
  length pred_deltas = length anchors -> (k < length anchors)%nat ->
  let d := nth k pred_deltas zero_box in
  let p := nth k anchors (mkPoint 0 0) in
  nth k (decode_boxes_rnd pred_deltas anchors) zero_box =
  mkBox (rnd (px p - bx1 d)) (rnd (py p - by1 d)) (rnd (px p + bx2 d)) (rnd (py p + by2 d)).
Proof.
  intros Hlen Hk d p. unfold decode_boxes_rnd.
  assert (L1 : length (zipWith psub_rnd anchors (map lo pred_deltas)) = length anchors)
    by (rewrite zipWith_length, length_map, Hlen; apply Nat.min_id).
  assert (L2 : length (zipWith padd_rnd anchors (map hi pred_deltas)) = length anchors)
    by (rewrite zipWith_length, length_map, Hlen; apply Nat.min_id).
  rewrite nth_zipWith with (da := mkPoint 0 0) (db := mkPoint 0 0) by lia.
  rewrite !nth_zipWith with (da := mkPoint 0 0) (db := lo zero_box)
    by (rewrite ?length_map; lia).
  change (lo zero_box) with (hi zero_box) at 2.
  rewrite (map_nth lo), (map_nth hi). reflexivity.
Qed.

End Rounded.

Lemma decode_boxes_exact (pred_deltas : list box) (anchors : list point) :
  decode_boxes_rnd (fun x => x) pred_deltas anchors = decode_boxes pred_deltas anchors.
Proof. reflexivity. Qed.

(** C6 (amended).  In the arithmetic of the tensors, whatever its rounding,
    [decode_boxes] returns one box per anchor, and for the delta row
    (l, t, r, b) at anchor p the box (px - l, py - t, px + r, py + b), each
    entry rounded once.  Decoding the deltas (px - x1, py - y1, x2 - px,
    y2 - py) of a box therefore returns px - (px - x1), py - (py - y1),
    px + (x2 - px), py + (y2 - py) with both operations rounded: this is the
    box itself in exact arithmetic, entry by entry, and the box up to
    rounding in float32. *)
Theorem decode_boxes_inverts_encoding (rnd : Q -> Q)
    (boxes pred_deltas : list box) (anchors : list point) (k : nat) :
  length boxes = length anchors -> length pred_deltas = length anchors ->
  (k < length anchors)%nat ->
  let p := nth k anchors (mkPoint 0 0) in
  let d := nth k pred_deltas zero_box in
  let b := nth k boxes zero_box in
  let exact := fun x : Q => x in
  length (decode_boxes_rnd rnd pred_deltas anchors) = length anchors /\
  nth k (decode_boxes_rnd rnd pred_deltas anchors) zero_box =
    mkBox (rnd (px p - bx1 d)) (rnd (py p - by1 d))
          (rnd (px p + bx2 d)) (rnd (py p + by2 d)) /\
  nth k (decode_boxes_rnd rnd (zipWith (encode_deltas_rnd rnd) boxes anchors) anchors)
        zero_box =
    mkBox (rnd (px p - rnd (px p - bx1 b))) (rnd (py p - rnd (py p - by1 b)))
          (rnd (px p + rnd (bx2 b - px p))) (rnd (py p + rnd (by2 b - py p))) /\
  box_eq (nth k (decode_boxes_rnd exact (zipWith (encode_deltas_rnd exact) boxes anchors)
                                  anchors) zero_box) b.
Proof.
  intros Hb Hd Hk p d b exact.
  assert (Hrt : forall r : Q -> Q,
            nth k (decode_boxes_rnd r (zipWith (encode_deltas_rnd r) boxes anchors) anchors)
                zero_box =
            mkBox (r (px p - r (px p - bx1 b))) (r (py p - r (py p - by1 b)))
                  (r (px p + r (bx2 b - px p))) (r (py p + r (by2 b - py p)))).
  { intros r.
    assert (He : length (zipWith (encode_deltas_rnd r) boxes anchors) = length anchors)
      by (rewrite zipWith_length, Hb; apply Nat.min_id).
    rewrite (decode_boxes_rnd_nth r _ _ k He Hk).
    rewrite nth_zipWith with (da := zero_box) (db := mkPoint 0 0) by lia.
    reflexivity. }
  split; [apply decode_boxes_rnd_length; exact Hd|].
  split; [apply decode_boxes_rnd_nth; assumption|].
  split; [apply Hrt|].
  rewrite (Hrt exact). unfold box_eq, exact; simpl. repeat split; ring.
Qed.

(** In float32 the round trip does not return the box: at the anchor (4, 4),
    the box whose first corner is 0.1 (the float32 nearest to it) has the
    delta 3.9000001 on both axes, and decoding it gives the corner
    0.099999905. *)
Lemma decode_boxes_round_trip_inexact :
  let p := mkPoint 4 4 in
  let b := mkBox (Float32.round (1 # 10)) (Float32.round (1 # 10)) 5 5 in
  let d := encode_deltas_rnd Float32.round b p in
  let b' := nth 0 (decode_boxes_rnd Float32.round [d] [p]) zero_box in
  bx1 b = 13421773 # 134217728 /\ bx1 d = 8178893 # 2097152 /\
  bx1 b' = 209715 # 2097152 /\ ~ box_eq b' b.
Proof.
  cbv zeta. split; [vm_compute; reflexivity|]. split; [vm_compute; reflexivity|].
  split; [vm_compute; reflexivity|].
  intros [H _]. vm_compute in H. discriminate.
Qed.

Lemma decode_boxes_inverts_encoding_witness :
  let anchors := [mkPoint 4 4; mkPoint 12 4] in
  let boxes := [mkBox 1 2 7 5; mkBox 10 (1 # 2) 13 9] in
  let exact := fun x : Q => x in
  nth 1 (decode_boxes_rnd Float32.round [mkBox 1 1 1 1; mkBox 2 3 4 5] anchors) zero_box =
    mkBox 10 1 16 9 /\
  box_eq (nth 1 (decode_boxes_rnd exact (zipWith (encode_deltas_rnd exact) boxes anchors)
                                  anchors) zero_box)
         (mkBox 10 (1 # 2) 13 9).
Proof.
  intros anchors boxes exact.
  destruct (decode_boxes_inverts_encoding Float32.round boxes
              [mkBox 1 1 1 1; mkBox 2 3 4 5] anchors 1
              eq_refl eq_refl (le_n 2)) as (_ & H1 & _ & H2).
  split; [|exact H2].
  rewrite H1. vm_compute. reflexivity.
Defined.

(** *** generate_anchors and the regression branch of forward *)

(** [torch.meshgrid([torch.arange(h), torch.arange(w)])]: two [h, w] grids,
    the first holding the row index, the second the column index. *)
Definition meshgrid (h w : nat) : list (list nat) * list (list nat) :=
  (map (fun i => repeat i w) (seq 0 h), map (fun _ => seq 0 w) (seq 0 h)).

(** [torch.stack([gx, gy], dim=-1).float().view(-1, 2)]. *)
Definition stack_view2 (gx gy : list (list nat)) : list point :=
  concat (mzip (fun x y => mkPoint (inject_Z (Z.of_nat x)) (inject_Z (Z.of_nat y))) gx gy).

(** [generate_anchors(level, fmp_size)], with [self.stride] a list; [None]
    where [self.stride[level]] raises IndexError. *)
Definition generate_anchors (stride : list Q) (level : nat) (fmp_size : nat * nat)
    : option (list point) :=
  let (fmp_h, fmp_w) := fmp_size in
  let (anchor_y, anchor_x) := meshgrid fmp_h fmp_w in
  let anchors :=
    map (fun p => mkPoint (px p + (1 # 2)) (py p + (1 # 2))) (stack_view2 anchor_x anchor_y) in
  match nth_error stride level with
  | None => None
  | Some s => Some (map (fun p => mkPoint (px p * s) (py p * s)) anchors)
  end.

(** [Scale.forward]. *)
Definition scale_forward (scale x : Q) : Q := x * scale.

(** [nn.functional.relu]. *)
Definition relu (x : Q) : Q := Qmax x 0.

(** [reg_pred = relu(self.scales[level](reg_pred)) * self.stride[level]] on
    one row, and [box_pred = self.decode_boxes(reg_pred, anchors)]. *)
Definition process_reg (scale s : Q) (d : box) : box :=
  mkBox (relu (scale_forward scale (bx1 d)) * s) (relu (scale_forward scale (by1 d)) * s)
        (relu (scale_forward scale (bx2 d)) * s) (relu (scale_forward scale (by2 d)) * s).

Definition forward_boxes (stride scales : list Q) (level : nat) (fmp_size : nat * nat)
    (reg_pred : list box) : option (list box * list point) :=
  match generate_anchors stride level fmp_size, nth_error scales level, nth_error stride level with
  | Some anchors, Some scale, Some s =>
      let reg_pred := map (process_reg scale s) reg_pred in
      Some (decode_boxes reg_pred anchors, anchors)
  | _, _, _ => None
  end.

Lemma nth_concat_uniform {A} (d : A) (w : nat) (rows : list (list A)) (y x : nat) :
  Forall (fun r => length r = w) rows -> (y < length rows)%nat -> (x < w)%nat ->
  nth (y * w + x) (concat rows) d = nth x (nth y rows []) d.
Proof.
  intros Hr. revert y. induction Hr as [|r rows Hlen Hrows IH]; intros y Hy Hx.
  - simpl in Hy. lia.
  - simpl concat. destruct y as [|y].
    + simpl. rewrite app_nth1 by lia. reflexivity.
    + rewrite app_nth2 by (rewrite Hlen; simpl; lia).
      replace (S y * w + x - length r)%nat with (y * w + x)%nat by (rewrite Hlen; simpl; lia).
      simpl. apply IH; [simpl in Hy; lia | exact Hx].
Qed.

Lemma length_concat_uniform {A} (w : nat) (rows : list (list A)) :
  Forall (fun r => length r = w) rows -> length (concat rows) = (length rows * w)%nat.
Proof.
  induction 1 as [|r rows Hlen Hrows IH]; simpl; [reflexivity|].
  rewrite length_app, IH, Hlen. reflexivity.
Qed.

Lemma meshgrid_mzip {A} (f : nat -> nat -> A) (d : A) (h w : nat) :
  let rows := mzip f (snd (meshgrid h w)) (fst (meshgrid h w)) in
  length rows = h /\
  Forall (fun r => length r = w) rows /\
  forall y x, (y < h)%nat -> (x < w)%nat -> nth x (nth y rows []) d = f x y.
Proof.
  intros rows. unfold rows, meshgrid; cbn [fst snd].
  set (gx := map (fun _ : nat => seq 0 w) (seq 0 h)).
  set (gy := map (fun i : nat => repeat i w) (seq 0 h)).
  assert (Lx : length gx = h) by (unfold gx; now rewrite length_map, length_seq).
  assert (Ly : length gy = h) by (unfold gy; now rewrite length_map, length_seq).
  assert (Rx : forall y, (y < h)%nat -> nth y gx [] = seq 0 w).
  { intros y Hy. unfold gx. rewrite nth_map_in with (da := 0%nat); [reflexivity|].
    now rewrite length_seq. }
  assert (Ry : forall y, (y < h)%nat -> nth y gy [] = repeat y w).
  { intros y Hy. unfold gy. rewrite nth_map_in with (da := 0%nat) by (now rewrite length_seq).
    now rewrite seq_nth. }
  split; [unfold mzip; rewrite zipWith_length; lia|]. split.
  - rewrite Forall_forall. intros r Hr.
    destruct (In_nth _ _ [] Hr) as (y & Hy & <-).
    unfold mzip in Hy. rewrite zipWith_length in Hy.
    rewrite mzip_row_length by lia. rewrite Rx, Ry by lia.
    rewrite length_seq, repeat_length. apply Nat.min_id.
  - intros y x Hy Hx.
    change (nth x (nth y (mzip f gx gy) []) d) with (entry d (mzip f gx gy) y x).
    rewrite entry_mzip with (da := 0%nat) (db := 0%nat);
      try (rewrite ?Rx, ?Ry, ?length_seq, ?repeat_length by lia; lia).
    unfold entry. rewrite Rx, Ry by lia.
    rewrite seq_nth by exact Hx. rewrite Matcher.nth_repeat_in by exact Hx. reflexivity.
Qed.

Lemma generate_anchors_cell_centres_aux (stride : list Q) (level h w : nat) :
  (level < length stride)%nat ->
  exists anchors,
    generate_anchors stride level (h, w) = Some anchors /\ length anchors = (h * w)%nat.
Proof.
  intros Hl. unfold generate_anchors.
  destruct (meshgrid h w) as [anchor_y anchor_x] eqn:Em.
  destruct (meshgrid_mzip (fun x y => mkPoint (inject_Z (Z.of_nat x)) (inject_Z (Z.of_nat y)))
              (mkPoint 0 0) h w) as (Lr & Fr & _). rewrite Em in Lr, Fr.
  cbn [fst snd] in Lr, Fr.
  destruct (nth_error stride level) as [s'|] eqn:Es.
  2:{ apply nth_error_None in Es. lia. }
  eexists. split; [reflexivity|]. unfold stack_view2.
  rewrite !length_map, (length_concat_uniform w) by exact Fr. now rewrite Lr.
Qed.

(** For a level that has a stride, [generate_anchors] returns H * W anchor
    points, row by row; the anchor of cell (y, x) sits at the centre of the
    cell, ((x + 1/2) * stride, (y + 1/2) * stride). *)
Theorem generate_anchors_cell_centres (stride : list Q) (level h w : nat) :
  (level < length stride)%nat ->
  let s := nth level stride 0 in
  exists anchors,
    generate_anchors stride level (h, w) = Some anchors /\
    length anchors = (h * w)%nat /\
    forall y x, (y < h)%nat -> (x < w)%nat ->
      nth (y * w + x) anchors (mkPoint 0 0) =
      mkPoint ((inject_Z (Z.of_nat x) + (1 # 2)) * s) ((inject_Z (Z.of_nat y) + (1 # 2)) * s).
Proof.
  intros Hl s. unfold generate_anchors.
  destruct (meshgrid h w) as [anchor_y anchor_x] eqn:Em.
  destruct (meshgrid_mzip (fun x y => mkPoint (inject_Z (Z.of_nat x)) (inject_Z (Z.of_nat y)))
              (mkPoint 0 0) h w) as (Lr & Fr & Er). rewrite Em in Lr, Fr, Er.
  cbn [fst snd] in Lr, Fr, Er.
  destruct (nth_error stride level) as [s'|] eqn:Es.
  2:{ apply nth_error_None in Es. lia. }
  assert (Hs : s' = s) by (unfold s; symmetry; apply nth_error_nth; exact Es).
  subst s'. eexists. split; [reflexivity|]. unfold stack_view2. split.
  - rewrite !length_map, (length_concat_uniform w) by exact Fr. now rewrite Lr.
  - intros y x Hy Hx.
    assert (Hlt : (y * w + x < h * w)%nat) by nia.
    rewrite nth_map_in with (da := mkPoint 0 0)
      by (rewrite length_map, (length_concat_uniform w), Lr by exact Fr; exact Hlt).
    rewrite nth_map_in with (da := mkPoint 0 0)
      by (rewrite (length_concat_uniform w), Lr by exact Fr; exact Hlt).
    rewrite (nth_concat_uniform _ w) by (rewrite ?Lr; assumption).
    rewrite (Er y x Hy Hx). reflexivity.
Qed.

Lemma generate_anchors_cell_centres_witness :
  exists anchors,
    generate_anchors [8; 16; 32] 1 (2, 3)%nat = Some anchors /\
    length anchors = 6%nat /\
    nth 4 anchors (mkPoint 0 0) =
    mkPoint ((inject_Z (Z.of_nat 1) + (1 # 2)) * 16) ((inject_Z (Z.of_nat 1) + (1 # 2)) * 16).
Proof.
  destruct (generate_anchors_cell_centres [8; 16; 32] 1 2 3 (le_S 2 2 (le_n 2)))
    as (anchors & H & L & E).
  exists anchors. split; [exact H|]. split; [exact L|].
  apply (E 1%nat 1%nat); lia.
Defined.

(** A level beyond the list of strides raises. *)
Theorem generate_anchors_unknown_level (stride : list Q) (level : nat) (fmp_size : nat * nat) :
  (length stride <= level)%nat -> generate_anchors stride level fmp_size = None.
Proof.
  intros H. unfold generate_anchors. destruct fmp_size as [h w].
  destruct (meshgrid h w) as [ay ax].
  apply nth_error_None in H. now rewrite H.
Qed.

Lemma generate_anchors_unknown_level_witness :
  generate_anchors [8; 16; 32] 3 (2, 3)%nat = None.
Proof.
  exact (generate_anchors_unknown_level [8; 16; 32] 3 (2, 3)%nat (le_n 3)).
Defined.

Lemma relu_nonneg (x : Q) : 0 <= relu x.
Proof. unfold relu. apply Q.le_max_r. Qed.

(** In [forward], the regression output passes through the scale layer, ReLU
    and the stride before decoding, so with a stride that is not negative
    every predicted box is well formed and contains its anchor point. *)
Theorem forward_boxes_contain_anchor
    (stride scales : list Q) (level h w : nat) (reg_pred : list box) (k : nat) :
  (level < length stride)%nat -> (level < length scales)%nat ->
  0 <= nth level stride 0 -> length reg_pred = (h * w)%nat -> (k < h * w)%nat ->
  exists boxes anchors,
    forward_boxes stride scales level (h, w) reg_pred = Some (boxes, anchors) /\
    length boxes = (h * w)%nat /\
    let b := nth k boxes zero_box in
    let p := nth k anchors (mkPoint 0 0) in
    bx1 b <= px p /\ px p <= bx2 b /\ by1 b <= py p /\ py p <= by2 b.
Proof.
  intros Hl Hsc Hs Hlen Hk.
  destruct (generate_anchors_cell_centres_aux stride level h w Hl) as (anchors & Hg & La).
  unfold forward_boxes. rewrite Hg.
  destruct (nth_error scales level) as [scale|] eqn:Esc.
  2:{ apply nth_error_None in Esc. lia. }
  destruct (nth_error stride level) as [s|] eqn:Es.
  2:{ apply nth_error_None in Es. lia. }
  assert (Hs' : 0 <= s).
  { rewrite (nth_error_nth _ _ 0 Es) in Hs. exact Hs. }
  eexists _, _. split; [reflexivity|].
  assert (Lr : length (map (process_reg scale s) reg_pred) = length anchors)
    by (rewrite length_map; lia).
  split; [rewrite decode_boxes_length by exact Lr; exact La|].
  cbv zeta. rewrite (decode_boxes_nth _ _ k Lr) by lia.
  set (p := nth k anchors (mkPoint 0 0)).
  rewrite nth_map_in with (da := zero_box) by lia.
  set (d := nth k reg_pred zero_box). unfold process_reg; simpl.
  pose proof (Qmult_le_0_compat _ _ (relu_nonneg (scale_forward scale (bx1 d))) Hs').
  pose proof (Qmult_le_0_compat _ _ (relu_nonneg (scale_forward scale (by1 d))) Hs').
  pose proof (Qmult_le_0_compat _ _ (relu_nonneg (scale_forward scale (bx2 d))) Hs').
  pose proof (Qmult_le_0_compat _ _ (relu_nonneg (scale_forward scale (by2 d))) Hs').
  repeat split; lra.
Qed.

Lemma forward_boxes_contain_anchor_witness :
  exists boxes anchors,
    forward_boxes [8; 16] [1; 1] 0 (1, 2)%nat [mkBox 1 (-2) 3 4; mkBox (-1) 0 2 5] =
      Some (boxes, anchors) /\
    bx1 (nth 1 boxes zero_box) <= px (nth 1 anchors (mkPoint 0 0)) /\
    px (nth 1 anchors (mkPoint 0 0)) <= bx2 (nth 1 boxes zero_box).
Proof.
  destruct (forward_boxes_contain_anchor [8; 16] [1; 1] 0 1 2
              [mkBox 1 (-2) 3 4; mkBox (-1) 0 2 5] 1
              (le_S 1 1 (le_n 1)) (le_S 1 1 (le_n 1)) ltac:(discriminate) eq_refl (le_n 2))
    as (boxes & anchors & H & _ & H1 & H2 & _).
  exists boxes, anchors. split; [exact H|]. split; assumption.
Defined.


End FCOSHead.

(* ================================================================== *)
(** ** RetinaNet head (models/modules/head/retinanet_head.py) *)
(* ================================================================== *)

(** The decoder exponentiates, so this module works over the real numbers. *)

Module RetinaNetHead.

Open Scope R_scope.

(** A row of a [*, 4] tensor: an anchor box (x, y, w, h), a regression row
    (dx, dy, dw, dh) or a decoded box (x1, y1, x2, y2). *)
Record row4 : Type := mkRow4 { r0 : R; r1 : R; r2 : R; r3 : R }.

(** [math.log(1000.0 / 16)] as a real number.  The float32 number the program
    clamps with is [DEFAULT_SCALE_CLAMP_F32] below. *)
Definition DEFAULT_SCALE_CLAMP : R := ln (1000 / 16).

(** [torch.clamp(x, max=c)]. *)
Definition clamp_max (x c : R) : R := Rmin x c.

(** [decode_boxes] on one row, read over the real numbers: exact products,
    sums and [exp].  [decode_box_rnd] below reads it in the arithmetic of the
    tensors. *)
Definition decode_box (anchor pred : row4) : row4 :=
  (* pred_reg[..., :2] * anchor_boxes[..., 2:] *)
  let pred_ctr_offset := (r0 pred * r2 anchor, r1 pred * r3 anchor) in
  let pred_ctr_xy := (r0 anchor + fst pred_ctr_offset, r1 anchor + snd pred_ctr_offset) in
  let pred_dwdh := (r2 pred, r3 pred) in
  let pred_dwdh :=
    (clamp_max (fst pred_dwdh) DEFAULT_SCALE_CLAMP,
     clamp_max (snd pred_dwdh) DEFAULT_SCALE_CLAMP) in
  let pred_wh := (r2 anchor * exp (fst pred_dwdh), r3 anchor * exp (snd pred_dwdh)) in
  let pred_x1y1 := (fst pred_ctr_xy - 0.5 * fst pred_wh, snd pred_ctr_xy - 0.5 * snd pred_wh) in
  let pred_x2y2 := (fst pred_ctr_xy + 0.5 * fst pred_wh, snd pred_ctr_xy + 0.5 * snd pred_wh) in
  mkRow4 (fst pred_x1y1) (snd pred_x1y1) (fst pred_x2y2) (snd pred_x2y2).

(** [anchor_boxes] of shape [M, 4] against [pred_reg] of shape [M, 4]. *)
Definition decode_boxes (anchor_boxes pred_reg : list row4) : list row4 :=
  zipWith decode_box anchor_boxes pred_reg.

(** **** The decoder in the tensors' arithmetic

    [decode_box] above reads the code over the real numbers.  The tensors hold
    float32 numbers: every product, sum and difference returns its exact
    result rounded, [exp] is the one of the tensor library, and the clamp
    compares with [DEFAULT_SCALE_CLAMP] converted to float32.  Rounding,
    exponential and clamp constant are parameters here; the identity, [exp]
    and [ln (1000 / 16)] give [decode_box] back. *)

Section Rounded.

Variable rnd : R -> R.
Variable fexp : R -> R.
Variable scale_clamp : R.

Definition decode_box_rnd (anchor pred : row4) : row4 :=
  (* pred_reg[..., :2] * anchor_boxes[..., 2:] *)
  let pred_ctr_offset := (rnd (r0 pred * r2 anchor), rnd (r1 pred * r3 anchor)) in
  let pred_ctr_xy :=
    (rnd (r0 anchor + fst pred_ctr_offset), rnd (r1 anchor + snd pred_ctr_offset)) in
  let pred_dwdh := (r2 pred, r3 pred) in
  let pred_dwdh :=
    (clamp_max (fst pred_dwdh) scale_clamp, clamp_max (snd pred_dwdh) scale_clamp) in
  let pred_wh :=
    (rnd (r2 anchor * fexp (fst pred_dwdh)), rnd (r3 anchor * fexp (snd pred_dwdh))) in
  let half_wh := (rnd (0.5 * fst pred_wh), rnd (0.5 * snd pred_wh)) in
  let pred_x1y1 :=
    (rnd (fst pred_ctr_xy - fst half_wh), rnd (snd pred_ctr_xy - snd half_wh)) in
  let pred_x2y2 :=
    (rnd (fst pred_ctr_xy + fst half_wh), rnd (snd pred_ctr_xy + snd half_wh)) in
  mkRow4 (fst pred_x1y1) (snd pred_x1y1) (fst pred_x2y2) (snd pred_x2y2).

Definition decode_boxes_rnd (anchor_boxes pred_reg : list row4) : list row4 :=
  zipWith decode_box_rnd anchor_boxes pred_reg.

Hypothesis rnd_monotone : forall x y, x <= y -> rnd x <= rnd y.
Hypothesis rnd_zero : rnd 0 = 0.
Hypothesis fexp_nonneg : forall x, 0 <= fexp x.



End Rounded.


Lemma decode_box_exact_extent (scale_clamp : R) (anchor pred : row4) :
  let b := decode_box_rnd (fun x => x) exp scale_clamp anchor pred in
  r2 b - r0 b = r2 anchor * exp (clamp_max (r2 pred) scale_clamp) /\
  r3 b - r1 b = r3 anchor * exp (clamp_max (r3 pred) scale_clamp).
Proof.
  intros b. unfold b. cbv [decode_box_rnd fst snd r0 r1 r2 r3]. split; lra.
Qed.





(** **** exp from below: the partial sums of its series *)









(** *** More of the decoder, anchor sizes and anchor boxes *)

Lemma scale_clamp_pos : 0 < DEFAULT_SCALE_CLAMP.
Proof.
  unfold DEFAULT_SCALE_CLAMP. rewrite <- ln_1. apply ln_increasing; lra.
Qed.

(** Over the real numbers, that is with exact products, sums and exponential,
    and for any clamp c: the centre of a decoded box is the anchor centre
    moved by (dx, dy) in units of the anchor size; its width is the anchor
    width times exp(dw) while dw stays below the clamp, and the anchor width
    times exp(c) from there on (the same for the height).  For the clamp
    ln(1000/16) of [decode_box], exp(c) is 1000/16. *)
Theorem decode_box_centre_and_size (scale_clamp : R) (anchor pred : row4) :
  let b := decode_box_rnd (fun x => x) exp scale_clamp anchor pred in
  (r0 b + r2 b) / 2 = r0 anchor + r0 pred * r2 anchor /\
  (r1 b + r3 b) / 2 = r1 anchor + r1 pred * r3 anchor /\
  (r2 pred <= scale_clamp -> r2 b - r0 b = r2 anchor * exp (r2 pred)) /\
  (scale_clamp <= r2 pred -> r2 b - r0 b = r2 anchor * exp scale_clamp) /\
  (r3 pred <= scale_clamp -> r3 b - r1 b = r3 anchor * exp (r3 pred)) /\
  (scale_clamp <= r3 pred -> r3 b - r1 b = r3 anchor * exp scale_clamp) /\
  decode_box_rnd (fun x => x) exp DEFAULT_SCALE_CLAMP anchor pred = decode_box anchor pred /\
  exp DEFAULT_SCALE_CLAMP = 1000 / 16.
Proof.
  intros b. destruct (decode_box_exact_extent scale_clamp anchor pred) as [Ex Ey].
  fold b in Ex, Ey.
  split; [unfold b; cbv [decode_box_rnd fst snd r0 r1 r2 r3]; lra|].
  split; [unfold b; cbv [decode_box_rnd fst snd r0 r1 r2 r3]; lra|].
  unfold clamp_max in Ex, Ey.
  split; [intros H; rewrite Ex, Rmin_left by exact H; reflexivity|].
  split; [intros H; rewrite Ex, Rmin_right by exact H; reflexivity|].
  split; [intros H; rewrite Ey, Rmin_left by exact H; reflexivity|].
  split; [intros H; rewrite Ey, Rmin_right by exact H; reflexivity|].
  split; [reflexivity|].
  unfold DEFAULT_SCALE_CLAMP. apply exp_ln. lra.
Qed.

Lemma decode_box_centre_and_size_witness :
  let b := decode_box (mkRow4 8 8 32 64) (mkRow4 1 (-1) 0 100) in
  r2 b - r0 b = 32 * exp 0 /\ r3 b - r1 b = 64 * (1000 / 16).
Proof.
  intros b.
  destruct (decode_box_centre_and_size DEFAULT_SCALE_CLAMP
              (mkRow4 8 8 32 64) (mkRow4 1 (-1) 0 100))
    as (_ & _ & Hw & _ & _ & Hh & Eb & Ec).
  cbv zeta in Hw, Hh. rewrite Eb in Hw, Hh. fold b in Hw, Hh. rewrite Ec in Hh.
  pose proof scale_clamp_pos as Hp.
  assert (Hlt : DEFAULT_SCALE_CLAMP <= 100).
  { unfold DEFAULT_SCALE_CLAMP in *.
    pose proof (exp_ineq1 (ln (1000 / 16)) (Rgt_not_eq _ _ Hp)) as H1.
    rewrite exp_ln in H1 by lra. lra. }
  split; [apply Hw; simpl; lra | apply Hh; simpl; exact Hlt].
Defined.

(** A regression row of zeros decodes to the anchor box itself, written by
    its corners. *)
Theorem decode_box_zero (anchor : row4) :
  decode_box anchor (mkRow4 0 0 0 0) =
  mkRow4 (r0 anchor - 0.5 * r2 anchor) (r1 anchor - 0.5 * r3 anchor)
         (r0 anchor + 0.5 * r2 anchor) (r1 anchor + 0.5 * r3 anchor).
Proof.
  unfold decode_box. cbv [fst snd r0 r1 r2 r3]. unfold clamp_max.
  rewrite Rmin_left by (left; exact scale_clamp_pos). rewrite exp_0.
  f_equal; lra.
Qed.

(** [generate_anchor_sizes]: one row of [KA, 2] sizes per basic size, the
    aspect ratios outermost and the area scales innermost.  The sizes are
    read over the real numbers; [torch.sqrt] returns the float32 nearest to
    the square root. *)
Definition anchor_size_of (size : R * R) (ar s : R) : R * R :=
  let (ah, aw) := size in
  let area := ah * aw * s in
  (sqrt (ar * area), sqrt (area / ar)).

Definition generate_anchor_sizes (basic_anchor_size : list (R * R))
    (anchor_aspect_ratio anchor_area_scale : list R) : list (list (R * R)) :=
  map (fun size =>
         flat_map (fun ar => map (fun s => anchor_size_of size ar s) anchor_area_scale)
                  anchor_aspect_ratio)
      basic_anchor_size.

Lemma length_flat_map_uniform {A B} (f : A -> list B) (n : nat) (l : list A) :
  (forall a, length (f a) = n) -> length (flat_map f l) = (length l * n)%nat.
Proof.
  intros H. induction l as [|a l IH]; simpl; [reflexivity|].
  now rewrite length_app, H, IH.
Qed.

(** Over the real numbers, that is with the exact square root: a generated
    anchor size has the area of its basic size times the area scale, and its
    first component is the aspect ratio times the second; both components
    are positive when the basic size and the scale are. *)
Theorem anchor_size_area_and_ratio (ah aw ar s : R) :
  0 <= ah -> 0 <= aw -> 0 <= s -> 0 < ar ->
  let wh := anchor_size_of (ah, aw) ar s in
  fst wh * snd wh = ah * aw * s /\ fst wh = ar * snd wh /\
  (0 < ah -> 0 < aw -> 0 < s -> 0 < fst wh /\ 0 < snd wh).
Proof.
  intros Hh Hw Hs Har wh. unfold wh, anchor_size_of. cbn [fst snd].
  set (area := ah * aw * s).
  assert (Ha : 0 <= area) by (unfold area; repeat apply Rmult_le_pos; assumption).
  assert (Hq : 0 <= area / ar).
  { unfold Rdiv. apply Rmult_le_pos; [exact Ha|]. left. now apply Rinv_0_lt_compat. }
  assert (Hm : 0 <= ar * area) by (apply Rmult_le_pos; lra).
  assert (Hsq : 0 <= ar * ar) by (apply Rmult_le_pos; lra).
  split; [|split].
  - rewrite <- sqrt_mult by assumption.
    replace (ar * area * (area / ar)) with (area * area) by (field; lra).
    now apply sqrt_square.
  - replace (ar * area) with ((ar * ar) * (area / ar)) by (field; lra).
    rewrite sqrt_mult by assumption.
    rewrite sqrt_square by lra. reflexivity.
  - intros Hh' Hw' Hs'.
    assert (Ha' : 0 < area) by (unfold area; repeat apply Rmult_lt_0_compat; assumption).
    split; apply sqrt_lt_R0.
    + now apply Rmult_lt_0_compat.
    + unfold Rdiv. apply Rmult_lt_0_compat; [exact Ha'|]. now apply Rinv_0_lt_compat.
Qed.

Lemma anchor_size_area_and_ratio_witness :
  let wh := anchor_size_of (32, 32) 2 1 in
  fst wh * snd wh = 32 * 32 * 1 /\ fst wh = 2 * snd wh.
Proof.
  intros wh.
  assert (H32 : 0 <= 32) by lra. assert (H1 : 0 <= 1) by lra. assert (H2 : 0 < 2) by lra.
  destruct (anchor_size_area_and_ratio 32 32 2 1 H32 H32 H1 H2) as (Ha & Hr & _).
  split; [exact Ha | exact Hr].
Defined.

(** [generate_anchor_sizes] returns one row per basic size, each of
    len(aspect_ratio) * len(area_scale) sizes with the aspect ratios outermost:
    entry i * len(area_scale) + j of a level is the size for the level's basic
    size, the i-th aspect ratio and the j-th area scale. *)
Theorem generate_anchor_sizes_shape (basic_anchor_size : list (R * R))
    (anchor_aspect_ratio anchor_area_scale : list R) (level : nat) :
  (level < length basic_anchor_size)%nat ->
  let sizes := generate_anchor_sizes basic_anchor_size anchor_aspect_ratio anchor_area_scale in
  length sizes = length basic_anchor_size /\
  length (nth level sizes []) =
    (length anchor_aspect_ratio * length anchor_area_scale)%nat /\
  forall i j, (i < length anchor_aspect_ratio)%nat -> (j < length anchor_area_scale)%nat ->
    nth (i * length anchor_area_scale + j) (nth level sizes []) (0, 0) =
    anchor_size_of (nth level basic_anchor_size (0, 0))
                   (nth i anchor_aspect_ratio 0) (nth j anchor_area_scale 0).
Proof.
  intros Hl sizes. unfold sizes, generate_anchor_sizes.
  split; [apply length_map|].
  rewrite nth_map_in with (da := (0, 0)) by exact Hl.
  set (size := nth level basic_anchor_size (0, 0)).
  rewrite flat_map_concat_map.
  set (rows := map (fun ar => map (fun s => anchor_size_of size ar s) anchor_area_scale)
                   anchor_aspect_ratio).
  assert (Fr : Forall (fun r => length r = length anchor_area_scale) rows).
  { unfold rows. rewrite Forall_forall. intros r Hr. apply in_map_iff in Hr.
    destruct Hr as (ar & <- & _). apply length_map. }
  assert (Lr : length rows = length anchor_aspect_ratio) by (unfold rows; apply length_map).
  split.
  - rewrite (FCOSHead.length_concat_uniform (length anchor_area_scale)) by exact Fr.
    now rewrite Lr.
  - intros i j Hi Hj.
    rewrite (FCOSHead.nth_concat_uniform _ (length anchor_area_scale))
      by (rewrite ?Lr; assumption).
    unfold rows. rewrite nth_map_in with (da := 0) by exact Hi.
    now rewrite nth_map_in with (da := 0) by exact Hj.
Qed.

Lemma generate_anchor_sizes_shape_witness :
  let sizes := generate_anchor_sizes [(32, 32); (64, 64)] [0.5; 1; 2] [1; 1.26] in
  length (nth 1 sizes []) = 6%nat /\
  nth 5 (nth 1 sizes []) (0, 0) = anchor_size_of (64, 64) 2 1.26.
Proof.
  intros sizes.
  destruct (generate_anchor_sizes_shape [(32, 32); (64, 64)] [0.5; 1; 2] [1; 1.26] 1
              (le_n 2)) as (_ & HL & HE).
  split; [exact HL|].
  exact (HE 2%nat 1%nat (le_n 3) (le_n 2)).
Defined.


(** [self.num_anchors = self.anchor_size.shape[1]]. *)
Definition num_anchors (anchor_size : list (list (R * R))) : nat :=
  match anchor_size with
  | [] => 0%nat
  | sizes :: _ => length sizes
  end.

(** [generate_anchors(level, fmp_size)]; [None] where [self.anchor_size[level]]
    or [self.stride[level]] raises IndexError. *)
Definition generate_anchors (stride : list R) (anchor_size : list (list (R * R)))
    (level : nat) (fmp_size : nat * nat) : option (list row4) :=
  let (fmp_h, fmp_w) := fmp_size in
  match nth_error anchor_size level with
  | None => None
  | Some sizes =>
      let (anchor_y, anchor_x) := FCOSHead.meshgrid fmp_h fmp_w in
      (* [H, W, 2] -> [HW, 2] *)
      let anchor_xy := concat (mzip (fun x y => (INR x + 0.5, INR y + 0.5)) anchor_x anchor_y) in
      (* [HW, 2] -> [HW, KA, 2] *)
      let anchor_xy := map (fun c => repeat c (num_anchors anchor_size)) anchor_xy in
      match nth_error stride level with
      | None => None
      | Some s =>
          let anchor_xy := mmap (fun c => (fst c * s, snd c * s)) anchor_xy in
          (* [KA, 2] -> [HW, KA, 2] *)
          let anchor_wh := repeat sizes (fmp_h * fmp_w) in
          let anchor_boxes :=
            mzip (fun c wh => mkRow4 (fst c) (snd c) (fst wh) (snd wh)) anchor_xy anchor_wh in
          Some (concat anchor_boxes)
      end
  end.

(** When every level has the same number KA of anchor sizes,
    [generate_anchors] returns H * W * KA boxes, cell by cell: box
    (y * W + x) * KA + a is centred at ((x + 1/2) * stride, (y + 1/2) * stride)
    and has the a-th size of the level. *)
Theorem generate_anchors_layout (stride : list R) (anchor_size : list (list (R * R)))
    (level h w : nat) :
  (level < length stride)%nat -> (level < length anchor_size)%nat ->
  length (nth level anchor_size []) = num_anchors anchor_size ->
  let KA := num_anchors anchor_size in
  let s := nth level stride 0 in
  exists anchor_boxes,
    generate_anchors stride anchor_size level (h, w) = Some anchor_boxes /\
    length anchor_boxes = (h * w * KA)%nat /\
    forall y x a, (y < h)%nat -> (x < w)%nat -> (a < KA)%nat ->
      nth ((y * w + x) * KA + a) anchor_boxes (mkRow4 0 0 0 0) =
      let wh := nth a (nth level anchor_size []) (0, 0) in
      mkRow4 ((INR x + 0.5) * s) ((INR y + 0.5) * s) (fst wh) (snd wh).
Proof.
  intros Hl Ha HK KA s. unfold generate_anchors.
  destruct (nth_error anchor_size level) as [sizes|] eqn:Esz.
  2:{ apply nth_error_None in Esz. lia. }
  assert (Hsz : nth level anchor_size [] = sizes) by (apply nth_error_nth; exact Esz).
  rewrite Hsz in HK |- *. fold KA in HK |- *.
  destruct (FCOSHead.meshgrid h w) as [anchor_y anchor_x] eqn:Em.
  destruct (FCOSHead.meshgrid_mzip (fun x y => (INR x + 0.5, INR y + 0.5)) (0, 0) h w)
    as (Lr & Fr & Er). rewrite Em in Lr, Fr, Er. cbn [fst snd] in Lr, Fr, Er.
  set (cells := concat (mzip (fun x y => (INR x + 0.5, INR y + 0.5)) anchor_x anchor_y)).
  assert (Lc : length cells = (h * w)%nat).
  { unfold cells. rewrite (FCOSHead.length_concat_uniform w) by exact Fr. now rewrite Lr. }
  assert (Ec : forall y x, (y < h)%nat -> (x < w)%nat ->
               nth (y * w + x) cells (0, 0) = (INR x + 0.5, INR y + 0.5)).
  { intros y x Hy Hx. unfold cells.
    rewrite (FCOSHead.nth_concat_uniform _ w) by (rewrite ?Lr; assumption).
    apply Er; assumption. }
  destruct (nth_error stride level) as [s'|] eqn:Es.
  2:{ apply nth_error_None in Es. lia. }
  assert (Hs : s' = s) by (unfold s; symmetry; apply nth_error_nth; exact Es).
  subst s'. eexists. split; [reflexivity|].
  set (xy := mmap (fun c : R * R => (fst c * s, snd c * s))
                  (map (fun c => repeat c KA) cells)).
  set (rows := mzip (fun (c wh : R * R) => mkRow4 (fst c) (snd c) (fst wh) (snd wh))
                    xy (repeat sizes (h * w))).
  assert (Lxy : length xy = (h * w)%nat).
  { unfold xy, mmap. now rewrite !length_map. }
  assert (Rxy : forall c, (c < h * w)%nat ->
                nth c xy [] = map (fun p : R * R => (fst p * s, snd p * s))
                                  (repeat (nth c cells (0, 0)) KA)).
  { intros c Hc. unfold xy, mmap.
    rewrite nth_map_in with (da := []) by (rewrite length_map; lia).
    now rewrite nth_map_in with (da := (0, 0)) by lia. }
  assert (Lrows : length rows = (h * w)%nat).
  { unfold rows, mzip. rewrite zipWith_length, Lxy, repeat_length. apply Nat.min_id. }
  assert (Rrows : forall c, (c < h * w)%nat ->
                  length (nth c rows []) = KA /\
                  forall a, (a < KA)%nat ->
                    nth a (nth c rows []) (mkRow4 0 0 0 0) =
                    mkRow4 (fst (nth c cells (0, 0)) * s) (snd (nth c cells (0, 0)) * s)
                           (fst (nth a sizes (0, 0))) (snd (nth a sizes (0, 0)))).
  { intros c Hc.
    assert (Lrow : length (nth c xy []) = KA)
      by (rewrite (Rxy c Hc), length_map; apply repeat_length).
    assert (Lwh : nth c (repeat sizes (h * w)) [] = sizes)
      by (apply Matcher.nth_repeat_in; exact Hc).
    split.
    - unfold rows. rewrite mzip_row_length by (rewrite ?Lxy, ?repeat_length; lia).
      rewrite Lrow, Lwh, HK. apply Nat.min_id.
    - intros a Ha'.
      change (nth a (nth c rows []) (mkRow4 0 0 0 0)) with (entry (mkRow4 0 0 0 0) rows c a).
      unfold rows. rewrite entry_mzip with (da := (0, 0)) (db := (0, 0));
        try (rewrite ?Lxy, ?repeat_length, ?Lrow, ?Lwh, ?HK; lia).
      unfold entry. rewrite Lwh, (Rxy c Hc).
      rewrite nth_map_in with (da := (0, 0)) by (rewrite repeat_length; exact Ha').
      rewrite Matcher.nth_repeat_in by exact Ha'. reflexivity. }
  assert (Frows : Forall (fun r => length r = KA) rows).
  { rewrite Forall_forall. intros r Hr. destruct (In_nth _ _ [] Hr) as (c & Hc & <-).
    apply Rrows. lia. }
  split.
  - rewrite (FCOSHead.length_concat_uniform KA) by exact Frows. now rewrite Lrows.
  - intros y x a Hy Hx Ha'.
    assert (Hc : (y * w + x < h * w)%nat) by nia.
    rewrite (FCOSHead.nth_concat_uniform _ KA) by (rewrite ?Lrows; assumption).
    destruct (Rrows _ Hc) as [_ Hrow]. rewrite (Hrow a Ha'), (Ec y x Hy Hx).
    reflexivity.
Qed.

Lemma generate_anchors_layout_witness :
  exists anchor_boxes,
    generate_anchors [8; 16] [[(32, 32); (64, 32)]; [(64, 64); (128, 64)]] 1 (2, 2)%nat =
      Some anchor_boxes /\
    length anchor_boxes = 8%nat /\
    nth 7 anchor_boxes (mkRow4 0 0 0 0) =
    mkRow4 ((INR 1 + 0.5) * 16) ((INR 1 + 0.5) * 16) 128 64.
Proof.
  destruct (generate_anchors_layout [8; 16] [[(32, 32); (64, 32)]; [(64, 64); (128, 64)]]
              1 2 2 (le_n 2) (le_n 2) eq_refl) as (boxes & H & L & E).
  exists boxes. split; [exact H|]. split; [exact L|].
  exact (E 1%nat 1%nat 1%nat (le_n 2) (le_n 2) (le_n 2)).
Defined.


End RetinaNetHead.

(* ================================================================== *)
(** ** Feature pyramid neck (models/neck/fpn.py) *)
(* ================================================================== *)

Module BasicFPN.

Section FPN.

(** Feature maps and the layers of the host framework are kept abstract: a
    layer is a function on feature maps. *)
Variable Feat : Type.

(** [nn.Conv2d(in, out, kernel_size, stride)]; the last argument names the
    layer, each layer having weights of its own. *)
Variable conv2d : nat -> nat -> nat -> nat -> nat -> Feat -> Feat.
Variable relu : Feat -> Feat.
(** [F.interpolate(x, size=like.shape[2:], mode='nearest')]. *)
Variable interpolate : Feat -> Feat -> Feat.
(** [a + b] on feature maps. *)
Variable add : Feat -> Feat -> Feat.

Record t : Type := mkFPN {
  p6_feat : bool;
  p7_feat : bool;
  from_c5 : bool;
  input_projs : list (Feat -> Feat);
  smooth_layers : list (Feat -> Feat);
  p6_conv : Feat -> Feat;
  (* nn.Sequential(nn.ReLU(inplace=True), nn.Conv2d(...)): its convolution *)
  p7_conv : Feat -> Feat
}.

(** [__init__]: the layer lists follow [in_dims[::-1]], coarsest first.  The
    attributes [p6_conv] and [p7_conv] exist only under their flags, and
    [forward] reads them only there. *)
Definition init (in_dims : list nat) (out_dim : nat) (p6 p7 c5 : bool) : t :=
  let dims := combine (seq 0 (length in_dims)) (rev in_dims) in
  mkFPN p6 p7 c5
    (map (fun kd => if (snd kd =? out_dim)%nat then (fun x => x)
                    else conv2d (snd kd) out_dim 1 1 (fst kd)) dims)
    (map (fun kd => conv2d out_dim out_dim 3 1 (length in_dims + fst kd)) dims)
    (if c5 then conv2d (last in_dims 0%nat) out_dim 3 2 (2 * length in_dims)
     else conv2d out_dim out_dim 3 2 (2 * length in_dims))
    (conv2d out_dim out_dim 3 2 (2 * length in_dims + 1)).

(** [zip(a, b, c)]: it stops with the shortest list. *)
Definition zip3 {A B C : Type} (a : list A) (b : list B) (c : list C) : list (A * B * C) :=
  combine (combine a b) c.

(** One turn of the top-down loop on (prev_feat, outputs). *)
Definition top_down_step (st : Feat * list Feat) (lvl : Feat * (Feat -> Feat) * (Feat -> Feat))
    : Feat * list Feat :=
  let '(feat, input_proj, smooth_layer) := lvl in
  let prev_feat := fst st in
  let outputs := snd st in
  let feat := input_proj feat in
  let top_down_feat := interpolate prev_feat feat in
  let prev_feat := add feat top_down_feat in
  (prev_feat, smooth_layer prev_feat :: outputs).

(** [forward]; [None] where the code raises IndexError on an empty list of
    feature maps or of layers.  The in-place ReLU at the head of [p7_conv]
    acts on the P6 tensor already appended to [outputs]. *)
Definition forward (fpn : t) (feats : list Feat) : option (list Feat) :=
  let feats := rev feats in
  match feats, input_projs fpn, smooth_layers fpn with
  | top_level_feat :: feats_tl, proj0 :: projs_tl, smooth0 :: smooths_tl =>
      let prev_feat := proj0 top_level_feat in
      let outputs := [smooth0 prev_feat] in
      let st := fold_left top_down_step (zip3 feats_tl projs_tl smooths_tl) (prev_feat, outputs) in
      let outputs := snd st in
      if p6_feat fpn then
        let p6 := if from_c5 fpn then p6_conv fpn top_level_feat
                  else p6_conv fpn (last outputs top_level_feat) in
        if p7_feat fpn then
          let p6_after_relu := relu p6 in
          let p7 := p7_conv fpn p6_after_relu in
          Some (outputs ++ [p6_after_relu] ++ [p7])
        else Some (outputs ++ [p6])
      else Some outputs
  | _, _, _ => None
  end.

(** The pyramid as the specification words it, over the levels listed fine to
    coarse: the top level is the smoothed projection of the coarsest input,
    and every finer level is the smoothed sum of its projected input and the
    upsampled merged feature of the level above.  Each entry pairs the merged
    feature with the output. *)
Fixpoint pyramid_levels (levels : list (Feat * (Feat -> Feat) * (Feat -> Feat)))
    : list (Feat * Feat) :=
  match levels with
  | [] => []
  | (c, proj, smooth) :: coarser =>
      let above := pyramid_levels coarser in
      let merged :=
        match above with
        | [] => proj c
        | (up, _) :: _ => add (proj c) (interpolate up (proj c))
        end in
      (merged, smooth merged) :: above
  end.

Definition pyramid (levels : list (Feat * (Feat -> Feat) * (Feat -> Feat))) : list Feat :=
  map snd (pyramid_levels levels).

Lemma pyramid_length levels : length (pyramid levels) = length levels.
Proof.
  unfold pyramid. rewrite length_map.
  induction levels as [|[[c p] s] l IH]; simpl; auto.
Qed.

Lemma top_down_loop todo done prev o rest :
  pyramid_levels done = (prev, o) :: rest ->
  exists prev' o' rest',
    pyramid_levels (rev todo ++ done) = (prev', o') :: rest' /\
    fold_left top_down_step todo (prev, pyramid done) = (prev', pyramid (rev todo ++ done)).
Proof.
  revert done prev o rest. induction todo as [|[[c p] s] todo IH]; intros done prev o rest Hd.
  - simpl. exists prev, o, rest. split; [exact Hd | reflexivity].
  - simpl fold_left. cbn [top_down_step fst snd].
    set (m := add (p c) (interpolate prev (p c))).
    assert (Hd' : pyramid_levels ((c, p, s) :: done) = (m, s m) :: (prev, o) :: rest).
    { simpl. rewrite Hd. reflexivity. }
    destruct (IH ((c, p, s) :: done) m (s m) ((prev, o) :: rest) Hd')
      as (prev' & o' & rest' & H1 & H2).
    exists prev', o', rest'. simpl rev. rewrite <- app_assoc. simpl app.
    split; [exact H1|]. rewrite <- H2. f_equal.
    unfold pyramid. rewrite Hd', Hd. reflexivity.
Qed.

Lemma combine_snoc {A B} (a : list A) (b : list B) x y :
  length a = length b -> combine (a ++ [x]) (b ++ [y]) = combine a b ++ [(x, y)].
Proof.
  revert b. induction a as [|h a IH]; intros [|k b] H; simpl in *; try discriminate; auto.
  f_equal. apply IH. lia.
Qed.

Lemma rev_combine {A B} (a : list A) (b : list B) :
  length a = length b -> rev (combine a b) = combine (rev a) (rev b).
Proof.
  revert b. induction a as [|h a IH]; intros [|k b] H; simpl in *; try discriminate; auto.
  rewrite combine_snoc by (rewrite !length_rev; lia). f_equal. apply IH. lia.
Qed.

Lemma rev_zip3 {A B C} (a : list A) (b : list B) (c : list C) :
  length a = length b -> length b = length c ->
  rev (zip3 a b c) = zip3 (rev a) (rev b) (rev c).
Proof.
  intros H1 H2. unfold zip3.
  rewrite rev_combine by (rewrite length_combine; lia).
  now rewrite rev_combine by exact H1.
Qed.

Lemma init_layers in_dims out_dim p6 p7 c5 :
  length (input_projs (init in_dims out_dim p6 p7 c5)) = length in_dims /\
  length (smooth_layers (init in_dims out_dim p6 p7 c5)) = length in_dims.
Proof.
  unfold init; simpl. rewrite !length_map, length_combine, length_seq, length_rev.
  now rewrite Nat.min_id.
Qed.

Lemma forward_pyramid (fpn : t) (feats : list Feat) (d : Feat) :
  feats <> [] ->
  length (input_projs fpn) = length feats -> length (smooth_layers fpn) = length feats ->
  let levels := zip3 feats (rev (input_projs fpn)) (rev (smooth_layers fpn)) in
  let pyr := pyramid levels in
  let p6 := p6_conv fpn (if from_c5 fpn then last feats d else last pyr d) in
  forward fpn feats =
  Some (pyr ++
        if p6_feat fpn
        then (if p7_feat fpn then [relu p6; p7_conv fpn (relu p6)] else [p6])
        else []).
Proof.
  intros Hne Hp Hs levels pyr p6.
  assert (Elev : levels = rev (zip3 (rev feats) (input_projs fpn) (smooth_layers fpn))).
  { unfold levels. rewrite rev_zip3 by (rewrite ?length_rev; lia).
    now rewrite rev_involutive. }
  assert (Elast : forall x, last feats x = hd x (rev feats)).
  { intros x. destruct (rev feats) as [|c fs] eqn:E.
    - apply (f_equal (@rev Feat)) in E. rewrite rev_involutive in E. contradiction.
    - apply (f_equal (@rev Feat)) in E. rewrite rev_involutive in E. simpl in E.
      rewrite E. apply last_last. }
  unfold forward.
  assert (Hlen : length (rev feats) = length feats) by apply length_rev.
  destruct (rev feats) as [|c fs] eqn:Ef.
  { destruct feats; [contradiction | simpl in Hlen; lia]. }
  destruct (input_projs fpn) as [|p0 ps] eqn:Ep; [simpl in Hp, Hlen; lia|].
  destruct (smooth_layers fpn) as [|s0 ss] eqn:Es; [simpl in Hs, Hlen; lia|].
  destruct (top_down_loop (zip3 fs ps ss) [(c, p0, s0)] (p0 c) (s0 (p0 c)) [] eq_refl)
    as (prev' & o' & rest' & H1 & H2).
  change (pyramid [(c, p0, s0)]) with [s0 (p0 c)] in H2.
  assert (Epyr : pyr = pyramid (rev (zip3 fs ps ss) ++ [(c, p0, s0)])).
  { unfold pyr. rewrite Elev. reflexivity. }
  rewrite H2. cbn [snd]. rewrite <- Epyr.
  assert (Ep6 : (if from_c5 fpn then p6_conv fpn c else p6_conv fpn (last pyr c)) = p6).
  { unfold p6. destruct (from_c5 fpn).
    - now rewrite Elast.
    - f_equal. assert (Hn : pyr <> []).
      { intros Hc. apply (f_equal (@length Feat)) in Hc. rewrite Epyr, pyramid_length in Hc.
        rewrite length_app in Hc. simpl in Hc. lia. }
      destruct (exists_last Hn) as (l' & x & ->). now rewrite !last_last. }
  rewrite Ep6.
  destruct (p6_feat fpn); [|now rewrite app_nil_r].
  destruct (p7_feat fpn); reflexivity.
Qed.

(** C8 (amended).  For a pyramid built by [__init__] from [in_dims] and a list of
    feature maps, one per entry of [in_dims] and ordered fine to coarse,
    [forward] returns the pyramid outputs in fine-to-coarse order
    [P3, ..., P_top], of length len(in_dims); then one P6 output when
    [p6_feat] is set, computed from the coarsest input when [from_c5] and
    from the coarsest pyramid output otherwise; then one P7 output only
    when both [p6_feat] and [p7_feat] are set (P6 then being returned after
    the in-place ReLU that heads [p7_conv]).  With [p7_feat] set and
    [p6_feat] unset no P7 output is produced. *)
Theorem forward_outputs (in_dims : list nat) (out_dim : nat) (p6 p7 c5 : bool)
    (feats : list Feat) (d : Feat) :
  in_dims <> [] -> length feats = length in_dims ->
  let fpn := init in_dims out_dim p6 p7 c5 in
  let levels := zip3 feats (rev (input_projs fpn)) (rev (smooth_layers fpn)) in
  let pyr := pyramid levels in
  let p6_out := p6_conv fpn (if c5 then last feats d else last pyr d) in
  let extra :=
    if p6 then (if p7 then [relu p6_out; p7_conv fpn (relu p6_out)] else [p6_out]) else [] in
  forward fpn feats = Some (pyr ++ extra) /\
  length pyr = length in_dims /\
  length (pyr ++ extra) =
    (length in_dims + if p6 then (if p7 then 2 else 1) else 0)%nat /\
  (p6 = false -> forward fpn feats = Some pyr).
Proof.
  intros Hne Hlen fpn levels pyr p6_out extra.
  destruct (init_layers in_dims out_dim p6 p7 c5) as [Lp Ls]. fold fpn in Lp, Ls.
  assert (Hf : feats <> []).
  { intros ->. destruct in_dims; [contradiction | discriminate]. }
  pose proof (forward_pyramid fpn feats d Hf) as Hfw.
  rewrite Lp, Ls, Hlen in Hfw. specialize (Hfw eq_refl eq_refl).
  assert (Lpyr : length pyr = length in_dims).
  { unfold pyr. rewrite pyramid_length. unfold levels, zip3.
    rewrite !length_combine, !length_rev, Lp, Ls, Hlen. now rewrite !Nat.min_id. }
  split; [exact Hfw|]. split; [exact Lpyr|]. split.
  - rewrite length_app, Lpyr. unfold extra. destruct p6, p7; reflexivity.
  - intros ->. rewrite Hfw. unfold extra. now rewrite app_nil_r.
Qed.

End FPN.

Arguments forward {Feat} relu interpolate add fpn feats.
Arguments init {Feat} conv2d in_dims out_dim p6 p7 c5.

Lemma forward_outputs_witness :
  let conv2d := fun (cin cout k s layer : nat) (x : list nat) => layer :: x in
  let relu := fun x : list nat => 100%nat :: x in
  let interpolate := fun (x like : list nat) => 200%nat :: x in
  let add := fun (a b : list nat) => a ++ b in
  forward relu interpolate add
    (init conv2d [512; 1024]%nat 256 true true false) [[3]; [4]]%nat =
  Some [[3; 1; 3; 200; 0; 4];
        [2; 0; 4];
        [100; 4; 2; 0; 4];
        [5; 100; 4; 2; 0; 4]]%nat.
Proof.
  intros conv2d relu interpolate add.
  destruct (forward_outputs (list nat) conv2d relu interpolate add
              [512; 1024]%nat 256 true true false
              [[3]; [4]]%nat [] ltac:(discriminate) eq_refl) as [H _].
  rewrite H. reflexivity.
Defined.

(** Without one feature map per entry of [in_dims] the outputs are not
    len(in_dims) many: the zip of [forward] stops with the shorter list, so two
    feature maps against three [in_dims] give a pyramid of two levels, built
    with the layers of the two coarsest levels; and an empty list raises. *)
Lemma forward_fewer_feats :
  let conv2d := fun (cin cout k s layer : nat) (x : list nat) => layer :: x in
  let relu := fun x : list nat => 100%nat :: x in
  let interpolate := fun (x like : list nat) => 200%nat :: x in
  let add := fun (a b : list nat) => a ++ b in
  let in_dims := [512; 1024; 2048]%nat in
  let fpn := init conv2d in_dims 256 false false false in
  forward relu interpolate add fpn [[3]; [4]]%nat =
    Some [[4; 1; 3; 200; 0; 4]; [3; 0; 4]]%nat /\
  length [[4; 1; 3; 200; 0; 4]; [3; 0; 4]]%nat <> length in_dims /\
  forward relu interpolate add fpn [] = None.
Proof.
  cbv zeta. split; [reflexivity|]. split; [discriminate | reflexivity].
Qed.

End BasicFPN.

(* ================================================================== *)
(** ** PlainDETR transformer (models/transformer/transformer.py) *)
(* ================================================================== *)

(** *** pos2posembed, at the level of tensor shapes *)

(** The claims about [pos2posembed] speak of the exception it raises and of
    the last dimension of its result, so a tensor is modelled by its shape and
    every tensor operation by its shape rule and the exception it raises. *)

Module PosEmbed.

Inductive exn : Type := IndexError | RuntimeError | ValueError.

Definition result (A : Type) : Type := (exn + A)%type.

Definition ret {A : Type} (x : A) : result A := inr x.
Definition raise {A : Type} (e : exn) : result A := inl e.

Definition bind {A B : Type} (m : result A) (k : A -> result B) : result B :=
  match m with
  | inl e => inl e
  | inr x => k x
  end.

Notation "x <- m ;; k" := (bind m (fun x => k))
  (at level 61, m at next level, right associativity).

Definition shape : Type := list nat.

Definition shape_eqb (a b : shape) : bool :=
  if list_eq_dec Nat.eq_dec a b then true else false.

(** [t.size(-1)]. *)
Definition size_last (s : shape) : option nat :=
  match rev s with
  | [] => None
  | n :: _ => Some n
  end.

(** Broadcasting of two shapes, aligned on the last dimension (here on the
    reversed shapes). *)
Fixpoint broadcast_rev (a b : list nat) : result (list nat) :=
  match a, b with
  | [], _ => ret b
  | _, [] => ret a
  | x :: a', y :: b' =>
      r <- broadcast_rev a' b' ;;
      if (x =? y)%nat then ret (x :: r)
      else if (x =? 1)%nat then ret (y :: r)
      else if (y =? 1)%nat then ret (x :: r)
      else raise RuntimeError
  end.

Definition broadcast (a b : shape) : result shape :=
  r <- broadcast_rev (rev a) (rev b) ;; ret (rev r).

(** [t[..., i, None]]. *)
Definition index_last_keepdim (i : nat) (s : shape) : result shape :=
  match rev s with
  | [] => raise IndexError
  | n :: r => if (i <? n)%nat then ret (rev r ++ [1%nat]) else raise IndexError
  end.

(** Length of [range(start, n, 2)], for start 0 or 1. *)
Definition strided (start n : nat) : nat := ((n + 1 - start) / 2)%nat.

(** [t[..., start::2]]. *)
Definition slice2_last (start : nat) (s : shape) : result shape :=
  match rev s with
  | [] => raise IndexError
  | n :: r => ret (rev r ++ [strided start n])
  end.

(** [torch.stack((a, b), dim=-1)]. *)
Definition stack_last (a b : shape) : result shape :=
  if shape_eqb a b then ret (a ++ [2%nat]) else raise RuntimeError.

(** [t.flatten(-2)]. *)
Definition flatten_last2 (s : shape) : result shape :=
  match rev s with
  | y :: x :: r => ret (rev r ++ [(x * y)%nat])
  | _ => raise IndexError
  end.

(** [t[:, :, i]]. *)
Definition select_dim2 (i : nat) (s : shape) : result shape :=
  match s with
  | d0 :: d1 :: d2 :: rest =>
      if (i <? d2)%nat then ret (d0 :: d1 :: rest) else raise IndexError
  | _ => raise IndexError
  end.

(** [t[:, :, None]]. *)
Definition unsqueeze_dim2 (s : shape) : result shape :=
  match s with
  | d0 :: d1 :: rest => ret (d0 :: d1 :: 1%nat :: rest)
  | _ => raise IndexError
  end.

(** [t[:, :, start::2]]. *)
Definition slice2_dim2 (start : nat) (s : shape) : result shape :=
  match s with
  | d0 :: d1 :: d2 :: rest => ret (d0 :: d1 :: strided start d2 :: rest)
  | _ => raise IndexError
  end.

(** [torch.stack((a, b), dim=3)]. *)
Definition stack_dim3 (a b : shape) : result shape :=
  if shape_eqb a b then
    match a with
    | d0 :: d1 :: d2 :: rest => ret (d0 :: d1 :: d2 :: 2%nat :: rest)
    | _ => raise IndexError
    end
  else raise RuntimeError.

(** [t.flatten(2)]. *)
Definition flatten_from2 (s : shape) : result shape :=
  match s with
  | d0 :: d1 :: d2 :: rest => ret [d0; d1; fold_left Nat.mul rest d2]
  | _ => raise IndexError
  end.

(** [torch.cat(ts, dim=-1)]: the shapes agree except on the last dimension. *)
Fixpoint cat_last_rev (first : list nat) (rest : list (list nat)) : result (list nat) :=
  match rest with
  | [] => ret first
  | s :: rest' =>
      match first, s with
      | n :: r, m :: r' =>
          if shape_eqb r r' then cat_last_rev ((n + m)%nat :: r) rest'
          else raise RuntimeError
      | _, _ => raise RuntimeError
      end
  end.

Definition cat_last (ts : list shape) : result shape :=
  match ts with
  | [] => raise RuntimeError
  | s :: rest => r <- cat_last_rev (rev s) (map (@rev nat) rest) ;; ret (rev r)
  end.

(** One sine/cosine embedding along the last dimension:
    [torch.stack((x[..., 0::2].sin(), x[..., 1::2].cos()), dim=-1).flatten(-2)]. *)
Definition sincos_last (x : shape) : result shape :=
  a <- slice2_last 0 x ;;
  b <- slice2_last 1 x ;;
  st <- stack_last a b ;;
  flatten_last2 st.

(** The same along dimension 2, for the width and height embeddings:
    [torch.stack((x[:, :, 0::2].sin(), x[:, :, 1::2].cos()), dim=3).flatten(2)]. *)
Definition sincos_dim2 (x : shape) : result shape :=
  a <- slice2_dim2 0 x ;;
  b <- slice2_dim2 1 x ;;
  st <- stack_dim3 a b ;;
  flatten_from2 st.

Definition pos2posembed (d_model : nat) (pos : shape) : result shape :=
  let num_pos_feats := (d_model / 2)%nat in
  let dim_t := [num_pos_feats] in
  x0 <- index_last_keepdim 0 pos ;;
  pos_x <- broadcast x0 dim_t ;;
  y0 <- index_last_keepdim 1 pos ;;
  pos_y <- broadcast y0 dim_t ;;
  pos_x <- sincos_last pos_x ;;
  pos_y <- sincos_last pos_y ;;
  match size_last pos with
  | Some 2%nat => cat_last [pos_y; pos_x]
  | Some 4%nat =>
      w_embed <- select_dim2 2 pos ;;
      w1 <- unsqueeze_dim2 w_embed ;;
      pos_w <- broadcast w1 dim_t ;;
      pos_w <- sincos_dim2 pos_w ;;
      h_embed <- select_dim2 3 pos ;;
      h1 <- unsqueeze_dim2 h_embed ;;
      pos_h <- broadcast h1 dim_t ;;
      pos_h <- sincos_dim2 pos_h ;;
      cat_last [pos_y; pos_x; pos_w; pos_h]
  | _ => raise ValueError
  end.

Example pos2posembed_shapes :
  pos2posembed 256 [2; 20; 20; 2]%nat = inr [2; 20; 20; 256]%nat /\
  pos2posembed 256 [300; 2; 4]%nat = inr [300; 2; 512]%nat /\
  pos2posembed 256 [300; 2; 3]%nat = inl ValueError /\
  pos2posembed 256 [300; 2; 1]%nat = inl IndexError /\
  pos2posembed 6 [300; 2; 2]%nat = inl RuntimeError /\
  pos2posembed 5 [300; 2; 2]%nat = inr [300; 2; 4]%nat /\
  pos2posembed 256 [300; 4]%nat = inl IndexError.
Proof. repeat split. Qed.

(** **** Shape rules on a shape [batch ++ [n]] *)

Lemma shape_eqb_refl (s : shape) : shape_eqb s s = true.
Proof. unfold shape_eqb. destruct (list_eq_dec Nat.eq_dec s s); congruence. Qed.

Lemma size_last_snoc (batch : shape) (n : nat) : size_last (batch ++ [n]) = Some n.
Proof. unfold size_last. now rewrite rev_unit. Qed.

Lemma index_last_keepdim_snoc (i : nat) (batch : shape) (n : nat) :
  index_last_keepdim i (batch ++ [n]) =
  if (i <? n)%nat then inr (batch ++ [1%nat]) else inl IndexError.
Proof.
  unfold index_last_keepdim. rewrite rev_unit, rev_involutive. reflexivity.
Qed.

Lemma broadcast_rev_nil_r (a : list nat) : broadcast_rev a [] = inr a.
Proof. destruct a; reflexivity. Qed.

Lemma broadcast_snoc_one (batch : shape) (m : nat) :
  broadcast (batch ++ [1%nat]) [m] = inr (batch ++ [m]).
Proof.
  unfold broadcast. rewrite rev_unit. simpl rev. cbn [broadcast_rev].
  rewrite broadcast_rev_nil_r. cbn [bind].
  destruct (Nat.eqb_spec 1 m) as [<-|Hne]; cbn [bind ret]; simpl;
    now rewrite rev_involutive.
Qed.

Lemma strided_even (start q : nat) : (start <= 1)%nat -> strided start (2 * q) = q.
Proof.
  intros H. unfold strided. destruct start as [|[|k]]; [| |lia].
  - replace (2 * q + 1 - 0)%nat with (1 + q * 2)%nat by lia.
    rewrite Nat.div_add by lia. reflexivity.
  - replace (2 * q + 1 - 1)%nat with (0 + q * 2)%nat by lia.
    rewrite Nat.div_add by lia. reflexivity.
Qed.

Lemma strided_odd (q : nat) : strided 0 (2 * q + 1) <> strided 1 (2 * q + 1).
Proof.
  unfold strided.
  replace (2 * q + 1 + 1 - 0)%nat with (0 + (q + 1) * 2)%nat by lia.
  replace (2 * q + 1 + 1 - 1)%nat with (1 + q * 2)%nat by lia.
  rewrite !Nat.div_add by lia. simpl. lia.
Qed.

Lemma sincos_last_even (batch : shape) (q : nat) :
  sincos_last (batch ++ [(2 * q)%nat]) = inr (batch ++ [(2 * q)%nat]).
Proof.
  unfold sincos_last, slice2_last. rewrite rev_unit, rev_involutive.
  cbn [bind ret]. rewrite !strided_even by lia.
  unfold stack_last. rewrite shape_eqb_refl. cbn [bind ret].
  unfold flatten_last2. rewrite rev_unit, rev_unit, rev_involutive.
  unfold ret. do 3 f_equal. lia.
Qed.

Lemma sincos_last_odd (batch : shape) (q : nat) :
  sincos_last (batch ++ [(2 * q + 1)%nat]) = inl RuntimeError.
Proof.
  unfold sincos_last, slice2_last. rewrite rev_unit, rev_involutive.
  cbn [bind ret]. unfold stack_last, shape_eqb.
  destruct (list_eq_dec Nat.eq_dec _ _) as [E|_]; [|reflexivity].
  apply app_inj_tail in E. destruct E as [_ E]. exfalso.
  apply (strided_odd q). exact E.
Qed.

Lemma sincos_dim2_even (a b q : nat) :
  sincos_dim2 [a; b; (2 * q)%nat] = inr [a; b; (2 * q)%nat].
Proof.
  unfold sincos_dim2, slice2_dim2. cbn [bind ret]. rewrite !strided_even by lia.
  unfold stack_dim3. rewrite shape_eqb_refl. cbn [bind ret].
  unfold flatten_from2, ret. cbn [fold_left]. do 4 f_equal. lia.
Qed.

Lemma cat_last_rev_same (r : list nat) (acc : nat) (ms : list nat) :
  cat_last_rev (acc :: r) (map (fun m => m :: r) ms) = inr (fold_left Nat.add ms acc :: r).
Proof.
  revert acc. induction ms as [|m ms IH]; intros acc; simpl; [reflexivity|].
  rewrite shape_eqb_refl. apply IH.
Qed.

Lemma cat_last_same_batch (batch : shape) (m : nat) (ms : list nat) :
  cat_last ((batch ++ [m]) :: map (fun k => batch ++ [k]) ms) =
  inr (batch ++ [fold_left Nat.add ms m]).
Proof.
  unfold cat_last. rewrite rev_unit, map_map.
  rewrite (map_ext (fun k => rev (batch ++ [k])) (fun k => k :: rev batch))
    by (intros k; apply rev_unit).
  rewrite cat_last_rev_same. cbn [bind ret]. simpl rev. now rewrite rev_involutive.
Qed.

(** **** Which operations can raise ValueError: none but the final branch *)

Definition not_value_error {A : Type} (r : result A) : Prop := r <> inl ValueError.

Lemma bind_not_value_error {A B} (m : result A) (k : A -> result B) :
  not_value_error m -> (forall x, not_value_error (k x)) -> not_value_error (bind m k).
Proof.
  unfold not_value_error. intros Hm Hk. destruct m as [e|x]; simpl.
  - intros E. apply Hm. congruence.
  - apply Hk.
Qed.

Lemma broadcast_rev_not_value_error a b : not_value_error (broadcast_rev a b).
Proof.
  revert b. induction a as [|x a IH]; intros [|y b]; simpl; try discriminate.
  apply bind_not_value_error; [apply IH|]. intros r.
  destruct (x =? y)%nat, (x =? 1)%nat, (y =? 1)%nat; discriminate.
Qed.

Lemma broadcast_not_value_error a b : not_value_error (broadcast a b).
Proof.
  apply bind_not_value_error; [apply broadcast_rev_not_value_error | discriminate].
Qed.

Lemma index_last_keepdim_not_value_error i s : not_value_error (index_last_keepdim i s).
Proof.
  unfold index_last_keepdim. destruct (rev s) as [|n r]; [discriminate|].
  destruct (i <? n)%nat; discriminate.
Qed.

Lemma sincos_last_not_value_error x : not_value_error (sincos_last x).
Proof.
  unfold sincos_last, slice2_last.
  destruct (rev x) as [|n r]; [discriminate|]. cbn [bind ret].
  unfold stack_last. destruct (shape_eqb _ _); [|discriminate]. cbn [bind ret].
  unfold flatten_last2. destruct (rev _) as [|y [|z t]]; discriminate.
Qed.

Lemma sincos_dim2_not_value_error x : not_value_error (sincos_dim2 x).
Proof.
  unfold sincos_dim2, slice2_dim2.
  destruct x as [|d0 [|d1 [|d2 rest]]]; try discriminate. cbn [bind ret].
  unfold stack_dim3. destruct (shape_eqb _ _); discriminate.
Qed.

Lemma select_dim2_not_value_error i s : not_value_error (select_dim2 i s).
Proof.
  unfold select_dim2. destruct s as [|d0 [|d1 [|d2 rest]]]; try discriminate.
  destruct (i <? d2)%nat; discriminate.
Qed.

Lemma unsqueeze_dim2_not_value_error s : not_value_error (unsqueeze_dim2 s).
Proof. unfold unsqueeze_dim2. destruct s as [|d0 [|d1 rest]]; discriminate. Qed.

Lemma cat_last_rev_not_value_error first rest : not_value_error (cat_last_rev first rest).
Proof.
  revert first. induction rest as [|s rest IH]; intros first; simpl; [discriminate|].
  destruct first as [|n r]; [discriminate|]. destruct s as [|m r']; [discriminate|].
  destruct (shape_eqb r r'); [apply IH | discriminate].
Qed.

Lemma cat_last_not_value_error ts : not_value_error (cat_last ts).
Proof.
  unfold cat_last. destruct ts as [|s rest]; [discriminate|].
  apply bind_not_value_error; [apply cat_last_rev_not_value_error | discriminate].
Qed.

Lemma pos2posembed_value_error_only_unknown (d_model : nat) (pos : shape) :
  pos2posembed d_model pos = inl ValueError ->
  size_last pos <> Some 2%nat /\ size_last pos <> Some 4%nat.
Proof.
  intros H.
  assert (Hnot : forall n, size_last pos = Some n -> (n = 2 \/ n = 4)%nat ->
                 not_value_error (pos2posembed d_model pos)).
  { intros n Hn Hcase. unfold pos2posembed.
    repeat (apply bind_not_value_error;
            [first [apply index_last_keepdim_not_value_error
                   | apply broadcast_not_value_error
                   | apply sincos_last_not_value_error] | intros ?]).
    rewrite Hn. destruct Hcase as [->| ->].
    - apply cat_last_not_value_error.
    - repeat (apply bind_not_value_error;
              [first [apply select_dim2_not_value_error
                     | apply unsqueeze_dim2_not_value_error
                     | apply broadcast_not_value_error
                     | apply sincos_dim2_not_value_error] | intros ?]).
      apply cat_last_not_value_error. }
  split; intros Hs; (eapply Hnot; [exact Hs | auto | exact H]).
Qed.


(** Runs the part of [pos2posembed] that precedes the test on [pos.size(-1)]. *)
Ltac shape_steps :=
  repeat first
    [ rewrite index_last_keepdim_snoc; cbn [Nat.ltb Nat.leb bind ret]
    | rewrite broadcast_snoc_one; cbn [bind ret]
    | rewrite sincos_last_even; cbn [bind ret]
    | rewrite size_last_snoc ].

Lemma half_of_multiple_of_4 (d_model : nat) :
  (d_model mod 4 = 0)%nat ->
  (d_model / 2 = 2 * (d_model / 4))%nat /\ (d_model = 4 * (d_model / 4))%nat.
Proof.
  intros H. pose proof (Nat.div_mod_eq d_model 4) as E. rewrite H in E.
  split; [|lia].
  rewrite E at 1. replace (4 * (d_model / 4) + 0)%nat with ((2 * (d_model / 4)) * 2)%nat by lia.
  apply Nat.div_mul. lia.
Qed.

(** C9 (amended).  With [d_model] divisible by 4 and [pos] of shape
    [batch ++ [n]]: [pos2posembed] raises ValueError exactly when n is at
    least 2 and is neither 2 nor 4; for n = 2 the result has shape
    [batch ++ [d_model]]; for n = 4 and a three-dimensional [pos] it has
    shape [batch ++ [2 * d_model]].  Whatever [d_model] and [pos] are,
    ValueError is raised only if the last dimension is neither 2 nor 4. *)
Theorem pos2posembed_last_dim (d_model : nat) (batch : shape) (n : nat) :
  (d_model mod 4 = 0)%nat ->
  let pos := batch ++ [n] in
  (pos2posembed d_model pos = inl ValueError <->
   (2 <= n)%nat /\ n <> 2%nat /\ n <> 4%nat) /\
  (n = 2%nat -> pos2posembed d_model pos = inr (batch ++ [d_model])) /\
  (n = 4%nat -> length batch = 2%nat ->
   pos2posembed d_model pos = inr (batch ++ [(2 * d_model)%nat])) /\
  (forall d pos', pos2posembed d pos' = inl ValueError ->
     size_last pos' <> Some 2%nat /\ size_last pos' <> Some 4%nat).
Proof.
  intros Hd pos. destruct (half_of_multiple_of_4 d_model Hd) as [Hhalf Hfour].
  set (q := (d_model / 4)%nat) in *.
  assert (E2 : pos2posembed d_model (batch ++ [2%nat]) = inr (batch ++ [d_model])).
  { unfold pos2posembed; cbv zeta; rewrite Hhalf; shape_steps.
    pose proof (cat_last_same_batch batch (2 * q) [(2 * q)%nat]) as Hcat.
    cbn [map fold_left] in Hcat. etransitivity; [exact Hcat|].
    do 3 f_equal. lia. }
  assert (E4 : length batch = 2%nat ->
               pos2posembed d_model (batch ++ [4%nat]) = inr (batch ++ [(2 * d_model)%nat])).
  { intros Hb. destruct batch as [|a [|b [|c rest]]]; try discriminate.
    unfold pos2posembed; cbv zeta; rewrite Hhalf; shape_steps.
    cbn [app select_dim2 unsqueeze_dim2 Nat.ltb Nat.leb bind ret].
    pose proof (broadcast_snoc_one [a; b] (2 * q)) as Hbc. cbn [app] in Hbc.
    rewrite !Hbc. cbn [app bind ret].
    rewrite !sincos_dim2_even. cbn [bind ret].
    pose proof (cat_last_same_batch [a; b] (2 * q)
                  [(2 * q)%nat; (2 * q)%nat; (2 * q)%nat]) as Hcat.
    cbn [map fold_left app] in Hcat. etransitivity; [exact Hcat|]. do 4 f_equal. lia. }
  split; [|split; [|split]].
  - unfold pos. destruct n as [|[|[|[|[|n]]]]].
    + unfold pos2posembed; cbv zeta; shape_steps. split; [discriminate | lia].
    + unfold pos2posembed; cbv zeta; shape_steps. split; [discriminate | lia].
    + rewrite E2. split; [discriminate | lia].
    + unfold pos2posembed; cbv zeta; rewrite Hhalf; shape_steps. split; [intros _; lia | reflexivity].
    + split; [|lia]. intros H.
      destruct (pos2posembed_value_error_only_unknown _ _ H) as [_ Hc].
      exfalso. apply Hc. apply size_last_snoc.
    + unfold pos2posembed; cbv zeta; rewrite Hhalf; shape_steps. split; [intros _; lia | reflexivity].
  - intros ->. exact E2.
  - intros ->. exact E4.
  - apply pos2posembed_value_error_only_unknown.
Qed.

(** Three inputs at which the claim as first stated fails: a last dimension
    of 1 raises IndexError, not ValueError; with [d_model] = 5 a last
    dimension of 2 gives an embedding of last dimension 4, and with
    [d_model] = 6 it raises RuntimeError; a two-dimensional [pos] of last
    dimension 4 raises IndexError. *)
Lemma pos2posembed_claim_fails :
  (pos2posembed 256 [300; 2; 1]%nat = inl IndexError /\
   size_last [300; 2; 1]%nat <> Some 2%nat /\ size_last [300; 2; 1]%nat <> Some 4%nat) /\
  (pos2posembed 5 [300; 2; 2]%nat = inr [300; 2; 4]%nat /\ 4%nat <> 5%nat) /\
  pos2posembed 6 [300; 2; 2]%nat = inl RuntimeError /\
  pos2posembed 256 [300; 4]%nat = inl IndexError.
Proof.
  repeat split; try reflexivity; discriminate.
Qed.

Lemma pos2posembed_last_dim_witness :
  pos2posembed 256 [300; 2; 4]%nat = inr [300; 2; 512]%nat /\
  pos2posembed 256 [2; 20; 20; 2]%nat = inr [2; 20; 20; 256]%nat /\
  pos2posembed 256 [300; 2; 3]%nat = inl ValueError.
Proof.
  destruct (pos2posembed_last_dim 256 [300; 2]%nat 4 eq_refl) as (_ & _ & H4 & _).
  destruct (pos2posembed_last_dim 256 [2; 20; 20]%nat 2 eq_refl) as (_ & H2 & _).
  destruct (pos2posembed_last_dim 256 [300; 2]%nat 3 eq_refl) as (H3 & _).
  split; [exact (H4 eq_refl eq_refl)|]. split; [exact (H2 eq_refl)|].
  apply H3. repeat split; [lia | discriminate | discriminate].
Defined.


(** **** [get_posembed] on shapes (transformer.py, lines 139-157) *)

(** [t.cumsum(dim)]. *)
Definition cumsum (dim : nat) (s : shape) : result shape :=
  if (dim <? length s)%nat then ret s else raise IndexError.

(** [t[:, -1:, :]]. *)
Definition last1_dim1 (s : shape) : result shape :=
  match s with
  | d0 :: d1 :: d2 :: rest => ret (d0 :: Nat.min 1 d1 :: d2 :: rest)
  | _ => raise IndexError
  end.

(** [t[:, :, -1:]]. *)
Definition last1_dim2 (s : shape) : result shape :=
  match s with
  | d0 :: d1 :: d2 :: rest => ret (d0 :: d1 :: Nat.min 1 d2 :: rest)
  | _ => raise IndexError
  end.

(** [t.permute(0, 3, 1, 2)]. *)
Definition permute_0312 (s : shape) : result shape :=
  match s with
  | [d0; d1; d2; d3] => ret [d0; d3; d1; d2]
  | _ => raise RuntimeError
  end.

Definition get_posembed (d_model : nat) (mask : shape) : result shape :=
  let not_mask := mask in
  y_embed <- cumsum 1 not_mask ;;
  x_embed <- cumsum 2 not_mask ;;
  y_last <- last1_dim1 y_embed ;;
  y_embed <- broadcast y_embed y_last ;;
  x_last <- last1_dim2 x_embed ;;
  x_embed <- broadcast x_embed x_last ;;
  pos <- stack_last x_embed y_embed ;;
  pos_embed <- pos2posembed d_model pos ;;
  permute_0312 pos_embed.

Lemma pos2posembed_dim2 (d_model : nat) (batch : shape) :
  (d_model mod 4 = 0)%nat ->
  pos2posembed d_model (batch ++ [2%nat]) = inr (batch ++ [d_model]).
Proof.
  intros Hd. destruct (half_of_multiple_of_4 d_model Hd) as [Hhalf Hfour].
  set (q := (d_model / 4)%nat) in *.
  unfold pos2posembed; cbv zeta; rewrite Hhalf; shape_steps.
  pose proof (cat_last_same_batch batch (2 * q) [(2 * q)%nat]) as Hcat.
  cbn [map fold_left] in Hcat. etransitivity; [exact Hcat|].
  do 3 f_equal. lia.
Qed.

Lemma broadcast_last1_dim1 (b h w : nat) :
  broadcast [b; h; w] [b; Nat.min 1 h; w] = inr [b; h; w].
Proof.
  unfold broadcast. cbn [rev app broadcast_rev bind ret].
  rewrite !Nat.eqb_refl. cbn [bind ret].
  destruct h as [|[|h]]; reflexivity.
Qed.

Lemma broadcast_last1_dim2 (b h w : nat) :
  broadcast [b; h; w] [b; h; Nat.min 1 w] = inr [b; h; w].
Proof.
  unfold broadcast. cbn [rev app broadcast_rev bind ret].
  rewrite !Nat.eqb_refl. cbn [bind ret].
  destruct w as [|[|w]]; reflexivity.
Qed.

(** For a mask of shape [B, H, W] and [d_model] divisible by 4,
    [get_posembed] returns an embedding of shape [B, d_model, H, W], the
    shape of the feature map it is added to; a mask with fewer than three
    dimensions raises IndexError. *)
Theorem get_posembed_shape (d_model : nat) (mask : shape) :
  (d_model mod 4 = 0)%nat ->
  (forall b h w, mask = [b; h; w] ->
     get_posembed d_model mask = inr [b; d_model; h; w]) /\
  ((length mask < 3)%nat -> get_posembed d_model mask = inl IndexError).
Proof.
  intros Hd. split.
  - intros b h w ->. unfold get_posembed, cumsum, last1_dim1, last1_dim2.
    cbn [length Nat.ltb Nat.leb bind ret].
    rewrite broadcast_last1_dim1. cbn [bind ret].
    rewrite broadcast_last1_dim2. cbn [bind ret].
    unfold stack_last. rewrite shape_eqb_refl. cbn [bind ret].
    rewrite (pos2posembed_dim2 d_model [b; h; w] Hd). reflexivity.
  - intros Hlen. destruct mask as [|d0 [|d1 [|d2 rest]]]; simpl in Hlen; try lia;
      reflexivity.
Qed.

Lemma get_posembed_shape_witness :
  get_posembed 256 [2; 20; 30]%nat = inr [2; 256; 20; 30]%nat /\
  get_posembed 256 [20; 30]%nat = inl IndexError.
Proof.
  destruct (get_posembed_shape 256 [2; 20; 30]%nat eq_refl) as [H3 _].
  destruct (get_posembed_shape 256 [20; 30]%nat eq_refl) as [_ H2].
  split; [exact (H3 2 20 30 eq_refl)%nat | apply H2; simpl; lia].
Defined.


End PosEmbed.

(** *** forward_pre_upsample of the two transformer classes *)

Module Transformer.

Section Forward.

(** Tensors and the layers of the host framework are abstract.  A tensor
    whose first dimension runs over the queries ([Nq, B, C]) is the list of
    its [Nq] slices, so that slicing along the queries is [firstn]/[skipn];
    the linear layers and MLPs act on each slice. *)
Variable Tensor : Type.

Record Ops : Type := mkOps {
  shape0 : Tensor -> nat;                                (* bs of src.shape *)
  resize_mask : Tensor -> option Tensor -> Tensor;
  get_posembed : Tensor -> Tensor;
  flatten2_permute : Tensor -> Tensor;                   (* t.flatten(2).permute(2, 0, 1) *)
  flatten1 : Tensor -> Tensor;                           (* mask.flatten(1) *)
  repeat_batch : nat -> Tensor -> Tensor;                (* row[None, :].repeat(bs, 1) *)
  sigmoid : Tensor -> Tensor;
  inverse_sigmoid : Tensor -> Tensor;
  tensor_add : Tensor -> Tensor -> Tensor;
  pos2posembed : Tensor -> Tensor;
  (* zeros([nq, nq]) with the two off-diagonal blocks set to True *)
  one2many_attn_mask : nat -> nat -> Tensor;
  (* torch.stack(...).permute(0, 2, 1, 3), one layer of it: [Nq, B, C] -> [B, Nq, C] *)
  to_batch_major : list Tensor -> Tensor
}.

(** The configuration and the weights, common to both classes. *)
Record Model : Type := mkModel {
  is_train : bool;
  num_queries_one2one : nat;
  num_queries_one2many : nat;
  return_intermediate : bool;
  upsample_layer : option (Tensor -> Tensor);
  (* src, src_key_padding_mask, pos_embed *)
  encoder_layers : option (list (Tensor -> Tensor -> Tensor -> Tensor));
  (* output, src, tgt_mask, memory_key_padding_mask, pos, query_pos *)
  decoder_layers :
    option (list (list Tensor -> Tensor -> option Tensor -> Tensor -> Tensor ->
                  list Tensor -> list Tensor));
  ref_point_head : Tensor -> Tensor;
  query_embed : list Tensor;                             (* query_embed.weight *)
  refpoint_embed : list Tensor;                          (* refpoint_embed.weight *)
  class_embed : list (Tensor -> Tensor);
  bbox_embed : list (Tensor -> Tensor)
}.

Definition num_queries (m : Model) : nat :=
  if is_train m then (num_queries_one2one m + num_queries_one2many m)%nat
  else num_queries_one2one m.

(** The returned dictionary; a key that is not set is [None]. *)
Record Outputs : Type := mkOutputs {
  pred_logits : Tensor;
  pred_boxes : Tensor;
  aux_outputs : option (list (Tensor * Tensor));
  pred_logits_one2many : option Tensor;
  pred_boxes_one2many : option Tensor;
  aux_outputs_one2many : option (list (Tensor * Tensor))
}.

Variable ops : Ops.

(** [set_aux_loss], the same method in both classes. *)
Definition set_aux_loss (outputs_class outputs_coord : list Tensor) : list (Tensor * Tensor) :=
  combine (removelast outputs_class) (removelast outputs_coord).

(** [t[-1]] of a stacked list; it raises on an empty list. *)
Definition last_opt {A : Type} (l : list A) : option A :=
  match rev l with
  | [] => None
  | x :: _ => Some x
  end.

(** The state of the decoder loop: output, ref_point, outputs, ref_points. *)
Definition decoder_state : Type :=
  (list Tensor * list Tensor * list (list Tensor) * list (list Tensor))%type.

(** The state of the detection-head loop: the four lists it appends to. *)
Definition head_state : Type :=
  (list (list Tensor) * list (list Tensor) * list (list Tensor) * list (list Tensor))%type.

End Forward.


Arguments Ops Tensor : clear implicits.
Arguments Model Tensor : clear implicits.
Arguments Outputs Tensor : clear implicits.
Arguments mkOutputs {Tensor}.
Arguments shape0 {Tensor}.
Arguments resize_mask {Tensor}.
Arguments get_posembed {Tensor}.
Arguments flatten2_permute {Tensor}.
Arguments flatten1 {Tensor}.
Arguments repeat_batch {Tensor}.
Arguments sigmoid {Tensor}.
Arguments inverse_sigmoid {Tensor}.
Arguments tensor_add {Tensor}.
Arguments pos2posembed {Tensor}.
Arguments one2many_attn_mask {Tensor}.
Arguments to_batch_major {Tensor}.
Arguments is_train {Tensor}.
Arguments num_queries_one2one {Tensor}.
Arguments num_queries_one2many {Tensor}.
Arguments return_intermediate {Tensor}.
Arguments upsample_layer {Tensor}.
Arguments encoder_layers {Tensor}.
Arguments decoder_layers {Tensor}.
Arguments ref_point_head {Tensor}.
Arguments query_embed {Tensor}.
Arguments refpoint_embed {Tensor}.
Arguments class_embed {Tensor}.
Arguments bbox_embed {Tensor}.
Arguments pred_logits {Tensor}.
Arguments pred_boxes {Tensor}.
Arguments aux_outputs {Tensor}.
Arguments pred_logits_one2many {Tensor}.
Arguments pred_boxes_one2many {Tensor}.
Arguments aux_outputs_one2many {Tensor}.
Arguments num_queries {Tensor}.
Arguments set_aux_loss {Tensor}.

Module PlainDETRTransformer.

Section Class.

Variable Tensor : Type.
Variable ops : Ops Tensor.

(** The body of [for layer_id, decoder_layer in enumerate(self.decoder_layers)];
    [bbox_embed] and [class_embed] have one entry per decoder layer, so the
    default of [nth] is never read. *)
Definition decoder_step (m : Model Tensor) (src mask pos_embed : Tensor)
    (self_attn_mask : option Tensor) (st : decoder_state Tensor)
    (ld : nat * (list Tensor -> Tensor -> option Tensor -> Tensor -> Tensor ->
                 list Tensor -> list Tensor)) : decoder_state Tensor :=
  let output := fst (fst (fst st)) in
  let ref_point := snd (fst (fst st)) in
  let outputs := snd (fst st) in
  let ref_points := snd st in
  let layer_id := fst ld in
  let decoder_layer := snd ld in
  (* Conditional query *)
  let query_sine_embed := map (pos2posembed ops) ref_point in
  let query_pos := map (ref_point_head m) query_sine_embed in
  (* Decoder *)
  let output := decoder_layer output src self_attn_mask mask pos_embed query_pos in
  (* Look forward twice *)
  let tmp := map (nth layer_id (bbox_embed m) (fun x => x)) output in
  let new_ref_point := zipWith (tensor_add ops) tmp (map (inverse_sigmoid ops) ref_point) in
  let new_ref_point := map (sigmoid ops) new_ref_point in
  let ref_point := new_ref_point in
  (output, ref_point, outputs ++ [output], ref_points ++ [ref_point]).

(** The body of [for lid, (ref_sig, output) in enumerate(zip(ref_points[:-1], outputs))]. *)
Definition head_step (m : Model Tensor) (use_one2many : bool) (st : head_state Tensor)
    (item : nat * (list Tensor * list Tensor)) : head_state Tensor :=
  let output_classes_one2one := fst (fst (fst st)) in
  let output_coords_one2one := snd (fst (fst st)) in
  let output_classes_one2many := snd (fst st) in
  let output_coords_one2many := snd st in
  let lid := fst item in
  let ref_sig := fst (snd item) in
  let output := snd (snd item) in
  (* class pred *)
  let output_class := map (nth lid (class_embed m) (fun x => x)) output in
  (* bbox pred *)
  let tmp := map (nth lid (bbox_embed m) (fun x => x)) output in
  let tmp := zipWith (tensor_add ops) tmp (map (inverse_sigmoid ops) ref_sig) in
  let output_coord := map (sigmoid ops) tmp in
  let output_classes_one2one :=
    output_classes_one2one ++ [firstn (num_queries_one2one m) output_class] in
  let output_coords_one2one :=
    output_coords_one2one ++ [firstn (num_queries_one2one m) output_coord] in
  if use_one2many then
    (output_classes_one2one, output_coords_one2one,
     output_classes_one2many ++ [skipn (num_queries_one2many m) output_class],
     output_coords_one2many ++ [skipn (num_queries_one2many m) output_coord])
  else
    (output_classes_one2one, output_coords_one2one,
     output_classes_one2many, output_coords_one2many).

(** [forward_pre_upsample]; [None] where the code raises (no decoder layer to
    enumerate or to stack). *)
Definition forward_pre_upsample (m : Model Tensor) (src : Tensor) (src_mask : option Tensor)
    : option (Outputs Tensor) :=
  (* Upsample feature *)
  let src := match upsample_layer m with Some layer => layer src | None => src end in
  let bs := shape0 ops src in
  let mask := resize_mask ops src src_mask in
  (* Transformer Encoder *)
  let pos_embed := get_posembed ops mask in
  let src := flatten2_permute ops src in
  let pos_embed := flatten2_permute ops pos_embed in
  let mask := flatten1 ops mask in
  let src :=
    match encoder_layers m with
    | Some layers =>
        fold_left (fun src encoder_layer => encoder_layer src mask pos_embed) layers src
    | None => src
    end in
  (* Transformer Decoder: prepare queries *)
  let tgt := map (repeat_batch ops bs) (query_embed m) in
  let query_embed := map (repeat_batch ops bs) (refpoint_embed m) in
  let ref_point := map (sigmoid ops) query_embed in
  let ref_points := [ref_point] in
  (* Prepare attn mask *)
  let use_one2many := (0 <? num_queries_one2many m)%nat && is_train m in
  let self_attn_mask :=
    if use_one2many
    then Some (one2many_attn_mask ops (num_queries m) (num_queries_one2one m))
    else None in
  match decoder_layers m with
  | None => None
  | Some layers =>
      (* Decoder layer *)
      let st :=
        fold_left (decoder_step m src mask pos_embed self_attn_mask)
                  (combine (seq 0 (length layers)) layers)
                  (tgt, ref_point, [], ref_points) in
      let outputs := snd (fst st) in
      let ref_points := snd st in
      (* Detection Head *)
      let items := combine (removelast ref_points) outputs in
      let hs :=
        fold_left (head_step m use_one2many)
                  (combine (seq 0 (length items)) items) ([], [], [], []) in
      (* [L, Nq, B, Nc] -> [L, B, Nq, Nc] *)
      let output_classes_one2one := map (to_batch_major ops) (fst (fst (fst hs))) in
      let output_coords_one2one := map (to_batch_major ops) (snd (fst (fst hs))) in
      let output_classes_one2many := map (to_batch_major ops) (snd (fst hs)) in
      let output_coords_one2many := map (to_batch_major ops) (snd hs) in
      (* Re-organize outputs *)
      match last_opt output_classes_one2one, last_opt output_coords_one2one with
      | Some logits, Some boxes =>
          let aux :=
            if return_intermediate m
            then Some (set_aux_loss output_classes_one2one output_coords_one2one)
            else None in
          if use_one2many then
            match last_opt output_classes_one2many, last_opt output_coords_one2many with
            | Some logits_many, Some boxes_many =>
                let aux_many :=
                  if return_intermediate m
                  then Some (set_aux_loss output_classes_one2many output_coords_one2many)
                  else None in
                Some (mkOutputs logits boxes aux (Some logits_many) (Some boxes_many) aux_many)
            | _, _ => None
            end
          else Some (mkOutputs logits boxes aux None None None)
      | _, _ => None
      end
  end.

End Class.

Arguments decoder_step {Tensor}.
Arguments head_step {Tensor}.
Arguments forward_pre_upsample {Tensor}.

Section PostUpsample.

Variable Tensor : Type.
Variable ops : Ops Tensor.
(** [t.permute(1, 2, 0).reshape(bs, c, h, w)], with the tensor whose shape
    [bs, c, h, w] was read. *)
Variable unflatten : Tensor -> Tensor -> Tensor.

(** The body of the detection-head loop of [forward_post_upsample]. *)
Definition head_step_post (m : Model Tensor) (use_one2many : bool) (st : head_state Tensor)
    (item : nat * (list Tensor * list Tensor)) : head_state Tensor :=
  let output_classes_one2one := fst (fst (fst st)) in
  let output_coords_one2one := snd (fst (fst st)) in
  let output_classes_one2many := snd (fst st) in
  let output_coords_one2many := snd st in
  let lid := fst item in
  let ref_sig := fst (snd item) in
  let output := snd (snd item) in
  (* class pred *)
  let output_class := map (nth lid (class_embed m) (fun x => x)) output in
  (* bbox pred *)
  let tmp := map (nth lid (bbox_embed m) (fun x => x)) output in
  let tmp := zipWith (tensor_add ops) tmp (map (inverse_sigmoid ops) ref_sig) in
  let output_coord := map (sigmoid ops) tmp in
  let output_classes_one2one :=
    output_classes_one2one ++ [firstn (num_queries_one2one m) output_class] in
  let output_coords_one2one :=
    output_coords_one2one ++ [firstn (num_queries_one2one m) output_coord] in
  if use_one2many then
    (output_classes_one2one, output_coords_one2one,
     output_classes_one2many ++ [skipn (num_queries_one2one m) output_class],
     output_coords_one2many ++ [skipn (num_queries_one2one m) output_coord])
  else
    (output_classes_one2one, output_coords_one2one,
     output_classes_one2many, output_coords_one2many).

(** [forward_post_upsample]: the encoder runs on the input resolution, the
    upsample layer, when there is one, comes between encoder and decoder. *)
Definition forward_post_upsample (m : Model Tensor) (src : Tensor) (src_mask : option Tensor)
    : option (Outputs Tensor) :=
  let src_in := src in
  let bs := shape0 ops src in
  let mask := resize_mask ops src src_mask in
  (* Transformer Encoder *)
  let pos_embed := get_posembed ops mask in
  let src := flatten2_permute ops src in
  let pos_embed := flatten2_permute ops pos_embed in
  let mask := flatten1 ops mask in
  let src :=
    match encoder_layers m with
    | Some layers =>
        fold_left (fun src encoder_layer => encoder_layer src mask pos_embed) layers src
    | None => src
    end in
  (* Upsample feature *)
  let upsampled :=
    match upsample_layer m with
    | Some layer =>
        let src := unflatten src src_in in
        let src := layer src in
        let mask := resize_mask ops src src_mask in
        let pos_embed := get_posembed ops mask in
        (flatten2_permute ops src, flatten2_permute ops pos_embed, flatten1 ops mask)
    | None => (src, pos_embed, mask)
    end in
  let src := fst (fst upsampled) in
  let pos_embed := snd (fst upsampled) in
  let mask := snd upsampled in
  (* Transformer Decoder: prepare queries *)
  let tgt := map (repeat_batch ops bs) (query_embed m) in
  let query_embed := map (repeat_batch ops bs) (refpoint_embed m) in
  let ref_point := map (sigmoid ops) query_embed in
  let ref_points := [ref_point] in
  (* Prepare attn mask *)
  let use_one2many := (0 <? num_queries_one2many m)%nat && is_train m in
  let self_attn_mask :=
    if use_one2many
    then Some (one2many_attn_mask ops (num_queries m) (num_queries_one2one m))
    else None in
  match decoder_layers m with
  | None => None
  | Some layers =>
      (* Decoder layer *)
      let st :=
        fold_left (decoder_step ops m src mask pos_embed self_attn_mask)
                  (combine (seq 0 (length layers)) layers)
                  (tgt, ref_point, [], ref_points) in
      let outputs := snd (fst st) in
      let ref_points := snd st in
      (* Detection Head *)
      let items := combine (removelast ref_points) outputs in
      let hs :=
        fold_left (head_step_post m use_one2many)
                  (combine (seq 0 (length items)) items) ([], [], [], []) in
      (* [L, Nq, B, Nc] -> [L, B, Nq, Nc] *)
      let output_classes_one2one := map (to_batch_major ops) (fst (fst (fst hs))) in
      let output_coords_one2one := map (to_batch_major ops) (snd (fst (fst hs))) in
      let output_classes_one2many := map (to_batch_major ops) (snd (fst hs)) in
      let output_coords_one2many := map (to_batch_major ops) (snd hs) in
      (* Re-organize outputs *)
      match last_opt output_classes_one2one, last_opt output_coords_one2one with
      | Some logits, Some boxes =>
          let aux :=
            if return_intermediate m
            then Some (set_aux_loss output_classes_one2one output_coords_one2one)
            else None in
          if use_one2many then
            match last_opt output_classes_one2many, last_opt output_coords_one2many with
            | Some logits_many, Some boxes_many =>
                let aux_many :=
                  if return_intermediate m
                  then Some (set_aux_loss output_classes_one2many output_coords_one2many)
                  else None in
                Some (mkOutputs logits boxes aux (Some logits_many) (Some boxes_many) aux_many)
            | _, _ => None
            end
          else Some (mkOutputs logits boxes aux None None None)
      | _, _ => None
      end
  end.

(** [forward]; [upsample_first] is the attribute [self.upsample_first]. *)
Definition forward (m : Model Tensor) (upsample_first : bool) (src : Tensor)
    (src_mask : option Tensor) : option (Outputs Tensor) :=
  if upsample_first then forward_pre_upsample ops m src src_mask
  else forward_post_upsample m src src_mask.

End PostUpsample.

Arguments head_step_post {Tensor}.
Arguments forward_post_upsample {Tensor}.
Arguments forward {Tensor}.

End PlainDETRTransformer.

Module BackupPlainDETRTransformer.

Section Class.

Variable Tensor : Type.
Variable ops : Ops Tensor.

(** The body of [for layer_id, decoder_layer in enumerate(self.decoder_layers)];
    [bbox_embed] and [class_embed] have one entry per decoder layer, so the
    default of [nth] is never read. *)
Definition decoder_step (m : Model Tensor) (src mask pos_embed : Tensor)
    (self_attn_mask : option Tensor) (st : decoder_state Tensor)
    (ld : nat * (list Tensor -> Tensor -> option Tensor -> Tensor -> Tensor ->
                 list Tensor -> list Tensor)) : decoder_state Tensor :=
  let output := fst (fst (fst st)) in
  let ref_point := snd (fst (fst st)) in
  let outputs := snd (fst st) in
  let ref_points := snd st in
  let layer_id := fst ld in
  let decoder_layer := snd ld in
  (* Conditional query *)
  let query_sine_embed := map (pos2posembed ops) ref_point in
  let query_pos := map (ref_point_head m) query_sine_embed in
  (* Decoder *)
  let output := decoder_layer output src self_attn_mask mask pos_embed query_pos in
  (* Look forward twice *)
  let tmp := map (nth layer_id (bbox_embed m) (fun x => x)) output in
  let new_ref_point := zipWith (tensor_add ops) tmp (map (inverse_sigmoid ops) ref_point) in
  let new_ref_point := map (sigmoid ops) new_ref_point in
  let ref_point := new_ref_point in
  (output, ref_point, outputs ++ [output], ref_points ++ [ref_point]).

(** The body of [for lid, (ref_sig, output) in enumerate(zip(ref_points[:-1], outputs))]. *)
Definition head_step (m : Model Tensor) (use_one2many : bool) (st : head_state Tensor)
    (item : nat * (list Tensor * list Tensor)) : head_state Tensor :=
  let output_classes_one2one := fst (fst (fst st)) in
  let output_coords_one2one := snd (fst (fst st)) in
  let output_classes_one2many := snd (fst st) in
  let output_coords_one2many := snd st in
  let lid := fst item in
  let ref_sig := fst (snd item) in
  let output := snd (snd item) in
  (* class pred *)
  let output_class := map (nth lid (class_embed m) (fun x => x)) output in
  (* bbox pred *)
  let tmp := map (nth lid (bbox_embed m) (fun x => x)) output in
  let tmp := zipWith (tensor_add ops) tmp (map (inverse_sigmoid ops) ref_sig) in
  let output_coord := map (sigmoid ops) tmp in
  let output_classes_one2one :=
    output_classes_one2one ++ [firstn (num_queries_one2one m) output_class] in
  let output_coords_one2one :=
    output_coords_one2one ++ [firstn (num_queries_one2one m) output_coord] in
  if use_one2many then
    (output_classes_one2one, output_coords_one2one,
     output_classes_one2many ++ [skipn (num_queries_one2one m) output_class],
     output_coords_one2many ++ [skipn (num_queries_one2one m) output_coord])
  else
    (output_classes_one2one, output_coords_one2one,
     output_classes_one2many, output_coords_one2many).

(** [forward_pre_upsample]; [None] where the code raises (no decoder layer to
    enumerate or to stack). *)
Definition forward_pre_upsample (m : Model Tensor) (src : Tensor) (src_mask : option Tensor)
    : option (Outputs Tensor) :=
  (* Upsample feature *)
  let src := match upsample_layer m with Some layer => layer src | None => src end in
  let bs := shape0 ops src in
  let mask := resize_mask ops src src_mask in
  (* Transformer Encoder *)
  let pos_embed := get_posembed ops mask in
  let src := flatten2_permute ops src in
  let pos_embed := flatten2_permute ops pos_embed in
  let mask := flatten1 ops mask in
  let src :=
    match encoder_layers m with
    | Some layers =>
        fold_left (fun src encoder_layer => encoder_layer src mask pos_embed) layers src
    | None => src
    end in
  (* Transformer Decoder: prepare queries *)
  let tgt := map (repeat_batch ops bs) (query_embed m) in
  let query_embed := map (repeat_batch ops bs) (refpoint_embed m) in
  let ref_point := map (sigmoid ops) query_embed in
  let ref_points := [ref_point] in
  (* Prepare attn mask *)
  let use_one2many := (0 <? num_queries_one2many m)%nat && is_train m in
  let self_attn_mask :=
    if use_one2many
    then Some (one2many_attn_mask ops (num_queries m) (num_queries_one2one m))
    else None in
  match decoder_layers m with
  | None => None
  | Some layers =>
      (* Decoder layer *)
      let st :=
        fold_left (decoder_step m src mask pos_embed self_attn_mask)
                  (combine (seq 0 (length layers)) layers)
                  (tgt, ref_point, [], ref_points) in
      let outputs := snd (fst st) in
      let ref_points := snd st in
      (* Detection Head *)
      let items := combine (removelast ref_points) outputs in
      let hs :=
        fold_left (head_step m use_one2many)
                  (combine (seq 0 (length items)) items) ([], [], [], []) in
      (* [L, Nq, B, Nc] -> [L, B, Nq, Nc] *)
      let output_classes_one2one := map (to_batch_major ops) (fst (fst (fst hs))) in
      let output_coords_one2one := map (to_batch_major ops) (snd (fst (fst hs))) in
      let output_classes_one2many := map (to_batch_major ops) (snd (fst hs)) in
      let output_coords_one2many := map (to_batch_major ops) (snd hs) in
      (* Re-organize outputs *)
      match last_opt output_classes_one2one, last_opt output_coords_one2one with
      | Some logits, Some boxes =>
          let aux :=
            if return_intermediate m
            then Some (set_aux_loss output_classes_one2one output_coords_one2one)
            else None in
          if use_one2many then
            match last_opt output_classes_one2many, last_opt output_coords_one2many with
            | Some logits_many, Some boxes_many =>
                let aux_many :=
                  if return_intermediate m
                  then Some (set_aux_loss output_classes_one2many output_coords_one2many)
                  else None in
                Some (mkOutputs logits boxes aux (Some logits_many) (Some boxes_many) aux_many)
            | _, _ => None
            end
          else Some (mkOutputs logits boxes aux None None None)
      | _, _ => None
      end
  end.

End Class.

Arguments decoder_step {Tensor}.
Arguments head_step {Tensor}.
Arguments forward_pre_upsample {Tensor}.

End BackupPlainDETRTransformer.


(** **** The two classes compared *)

Section Compared.

Variable Tensor : Type.
Variable ops : Ops Tensor.

Lemma decoder_step_same (m : Model Tensor) src mask pos_embed self_attn_mask st ld :
  BackupPlainDETRTransformer.decoder_step ops m src mask pos_embed self_attn_mask st ld =
  PlainDETRTransformer.decoder_step ops m src mask pos_embed self_attn_mask st ld.
Proof. reflexivity. Qed.

(** The one2one lists built by the detection-head loop do not depend on the
    slice taken for the one2many lists, and the one2many lists grow together. *)
Lemma head_loops_related (m : Model Tensor) use_one2many items
    (st st' : head_state Tensor) :
  fst (fst st) = fst (fst st') ->
  length (snd (fst st)) = length (snd (fst st')) ->
  length (snd st) = length (snd st') ->
  let hb := fold_left (BackupPlainDETRTransformer.head_step ops m use_one2many) items st in
  let hp := fold_left (PlainDETRTransformer.head_step ops m use_one2many) items st' in
  fst (fst hb) = fst (fst hp) /\
  length (snd (fst hb)) = length (snd (fst hp)) /\
  length (snd hb) = length (snd hp).
Proof.
  revert st st'. induction items as [|item items IH]; intros st st' H1 H2 H3; simpl;
    [auto|].
  apply IH;
    unfold BackupPlainDETRTransformer.head_step, PlainDETRTransformer.head_step;
    destruct use_one2many; simpl; rewrite ?H1, ?length_app; simpl; auto; lia.
Qed.

Lemma last_opt_map_length {A B} (f : A -> B) (a b : list A) :
  length a = length b ->
  (last_opt (map f a) = None /\ last_opt (map f b) = None) \/
  (exists x y, last_opt (map f a) = Some x /\ last_opt (map f b) = Some y).
Proof.
  intros H. unfold last_opt.
  destruct a as [|x a], b as [|y b]; simpl in H; try discriminate; [now left|].
  right.
  destruct (rev (map f (x :: a))) as [|u ru] eqn:Ea.
  { apply (f_equal (@length B)) in Ea. rewrite length_rev in Ea. discriminate. }
  destruct (rev (map f (y :: b))) as [|v rv] eqn:Eb.
  { apply (f_equal (@length B)) in Eb. rewrite length_rev in Eb. discriminate. }
  exists u, v. split; reflexivity.
Qed.

Lemma head_step_same (m : Model Tensor) use_one2many items st :
  use_one2many = false \/ num_queries_one2one m = num_queries_one2many m ->
  fold_left (BackupPlainDETRTransformer.head_step ops m use_one2many) items st =
  fold_left (PlainDETRTransformer.head_step ops m use_one2many) items st.
Proof.
  intros H. revert st. induction items as [|item items IH]; intros st; simpl; [reflexivity|].
  rewrite IH. f_equal.
  unfold BackupPlainDETRTransformer.head_step, PlainDETRTransformer.head_step.
  destruct H as [-> | ->]; reflexivity.
Qed.

(** When one2many queries are not in use, or the two query counts coincide,
    the two classes return the same dictionary. *)
Lemma forward_pre_upsample_same (m : Model Tensor) (src : Tensor) (src_mask : option Tensor) :
  ((0 <? num_queries_one2many m)%nat && is_train m = false \/
   num_queries_one2one m = num_queries_one2many m) ->
  BackupPlainDETRTransformer.forward_pre_upsample ops m src src_mask =
  PlainDETRTransformer.forward_pre_upsample ops m src src_mask.
Proof.
  intros H.
  unfold BackupPlainDETRTransformer.forward_pre_upsample,
         PlainDETRTransformer.forward_pre_upsample.
  destruct (decoder_layers m) as [layers|]; [|reflexivity].
  cbv zeta. rewrite head_step_same by exact H. reflexivity.
Qed.

(** In every configuration the two classes fail together and agree on
    [pred_logits], [pred_boxes] and [aux_outputs]. *)
Lemma forward_pre_upsample_one2one_same
    (m : Model Tensor) (src : Tensor) (src_mask : option Tensor) :
  match BackupPlainDETRTransformer.forward_pre_upsample ops m src src_mask,
        PlainDETRTransformer.forward_pre_upsample ops m src src_mask with
  | Some b, Some p =>
      pred_logits b = pred_logits p /\ pred_boxes b = pred_boxes p /\
      aux_outputs b = aux_outputs p
  | None, None => True
  | _, _ => False
  end.
Proof.
  unfold BackupPlainDETRTransformer.forward_pre_upsample,
         PlainDETRTransformer.forward_pre_upsample.
  destruct (decoder_layers m) as [layers|]; [|exact I].
  cbv zeta.
  change (@BackupPlainDETRTransformer.decoder_step Tensor)
    with (@PlainDETRTransformer.decoder_step Tensor).
  match goal with
  | |- context [fold_left (BackupPlainDETRTransformer.head_step ops m ?u) ?items ?st] =>
      destruct (head_loops_related m u items st st eq_refl eq_refl eq_refl)
        as (E1 & E2 & E3);
      revert E1 E2 E3;
      generalize (fold_left (BackupPlainDETRTransformer.head_step ops m u) items st);
      generalize (fold_left (PlainDETRTransformer.head_step ops m u) items st);
      generalize u
  end.
  intros use_one2many [[[cp bp] cmp] bmp] [[[cb bb] cmb] bmb]; simpl.
  intros E1 E2 E3. injection E1 as -> ->.
  destruct (last_opt (map (to_batch_major ops) cp)) as [logits|]; [|exact I].
  destruct (last_opt (map (to_batch_major ops) bp)) as [boxes|]; [|exact I].
  destruct use_one2many; [|repeat split].
  destruct (last_opt_map_length (to_batch_major ops) cmb cmp E2)
    as [[-> ->]|(x & y & -> & ->)]; [exact I|].
  destruct (last_opt_map_length (to_batch_major ops) bmb bmp E3)
    as [[-> ->]|(x' & y' & -> & ->)]; [exact I|].
  repeat split.
Qed.

End Compared.

(** A small instance: tensors are lists of numbers, every layer is the
    identity, there are one one2one query and two one2many queries. *)
Definition toy_ops : Ops (list nat) :=
  mkOps (list nat) (fun _ => 1%nat) (fun src _ => src) (fun x => x) (fun x => x) (fun x => x)
        (fun _ row => row) (fun x => x) (fun x => x) (fun a _ => a) (fun x => x)
        (fun _ _ => []) (@concat nat).

Definition toy_model : Model (list nat) :=
  mkModel (list nat) true 1 2 true None None
          (Some [fun output _ _ _ _ _ => output])
          (fun x => x) [[10]; [20]; [30]]%nat [[1]; [2]; [3]]%nat
          [fun x => x] [fun x => x].

(** C1 (the code departs from the claim).  In training with one one2one
    query and two one2many queries and identical weights, the two classes
    return different dictionaries: [PlainDETRTransformer] slices the
    one2many predictions from index [num_queries_one2many], its backup from
    index [num_queries_one2one], so [pred_logits_one2many] holds the last
    query alone in the first and the last two queries in the second. *)
Theorem forward_pre_upsample_one2many_differs :
  option_map pred_logits_one2many
    (PlainDETRTransformer.forward_pre_upsample toy_ops toy_model [7%nat] None) =
    Some (Some [30%nat]) /\
  option_map pred_logits_one2many
    (BackupPlainDETRTransformer.forward_pre_upsample toy_ops toy_model [7%nat] None) =
    Some (Some [20; 30]%nat) /\
  option_map pred_logits
    (PlainDETRTransformer.forward_pre_upsample toy_ops toy_model [7%nat] None) =
  option_map pred_logits
    (BackupPlainDETRTransformer.forward_pre_upsample toy_ops toy_model [7%nat] None) /\
  PlainDETRTransformer.forward_pre_upsample toy_ops toy_model [7%nat] None <>
  BackupPlainDETRTransformer.forward_pre_upsample toy_ops toy_model [7%nat] None.
Proof.
  split; [reflexivity|]. split; [reflexivity|]. split; [reflexivity|].
  intros H. apply (f_equal (option_map pred_logits_one2many)) in H.
  vm_compute in H. discriminate.
Qed.

(** **** The dictionary returned by [PlainDETRTransformer.forward] *)

Section Paths.

Variable Tensor : Type.
Variable ops : Ops Tensor.
Variable unflatten : Tensor -> Tensor -> Tensor.

Lemma length_removelast {A : Type} (l : list A) :
  length (removelast l) = (length l - 1)%nat.
Proof. rewrite removelast_firstn_len, length_firstn. lia. Qed.

Lemma last_opt_nonempty {A : Type} (l : list A) :
  (0 < length l)%nat -> exists x, last_opt l = Some x.
Proof.
  intros H. unfold last_opt. destruct (rev l) as [|x r] eqn:E; [|eauto].
  apply (f_equal (@length A)) in E. rewrite length_rev in E. simpl in E. lia.
Qed.

Lemma last_opt_empty {A : Type} (l : list A) : length l = 0%nat -> last_opt l = None.
Proof. destruct l; [reflexivity | discriminate]. Qed.

Lemma decoder_loop_lengths (m : Model Tensor) src mask pos_embed self_attn_mask items
    (st : decoder_state Tensor) :
  let st' :=
    fold_left (PlainDETRTransformer.decoder_step ops m src mask pos_embed self_attn_mask)
              items st in
  length (snd (fst st')) = (length (snd (fst st)) + length items)%nat /\
  length (snd st') = (length (snd st) + length items)%nat.
Proof.
  revert st. induction items as [|it items IH]; intros st; simpl; [lia|].
  destruct (IH (PlainDETRTransformer.decoder_step ops m src mask pos_embed self_attn_mask st it))
    as [H1 H2].
  rewrite H1, H2. unfold PlainDETRTransformer.decoder_step; simpl.
  rewrite !length_app; simpl. lia.
Qed.

Lemma head_loop_lengths (m : Model Tensor) (use_one2many : bool) items
    (st : head_state Tensor) :
  let hs := fold_left (PlainDETRTransformer.head_step ops m use_one2many) items st in
  let many := if use_one2many then length items else 0%nat in
  length (fst (fst (fst hs))) = (length (fst (fst (fst st))) + length items)%nat /\
  length (snd (fst (fst hs))) = (length (snd (fst (fst st))) + length items)%nat /\
  length (snd (fst hs)) = (length (snd (fst st)) + many)%nat /\
  length (snd hs) = (length (snd st) + many)%nat.
Proof.
  revert st. induction items as [|it items IH]; intros st; simpl.
  - destruct use_one2many; lia.
  - destruct (IH (PlainDETRTransformer.head_step ops m use_one2many st it))
      as (H1 & H2 & H3 & H4).
    rewrite H1, H2, H3, H4. unfold PlainDETRTransformer.head_step.
    destruct use_one2many; simpl; rewrite !length_app; simpl; lia.
Qed.

(** What the returned dictionary holds, for a model with [n] decoder layers,
    [n] positive. *)
Definition well_keyed (m : Model Tensor) (n : nat) (out : Outputs Tensor) : Prop :=
  let use_one2many := (0 <? num_queries_one2many m)%nat && is_train m in
  (if return_intermediate m
   then exists aux, aux_outputs out = Some aux /\ length aux = (n - 1)%nat
   else aux_outputs out = None) /\
  (if use_one2many
   then pred_logits_one2many out <> None /\ pred_boxes_one2many out <> None /\
        (if return_intermediate m
         then exists aux, aux_outputs_one2many out = Some aux /\ length aux = (n - 1)%nat
         else aux_outputs_one2many out = None)
   else pred_logits_one2many out = None /\ pred_boxes_one2many out = None /\
        aux_outputs_one2many out = None).

Lemma forward_pre_upsample_cases (m : Model Tensor) (src : Tensor) (src_mask : option Tensor) :
  match decoder_layers m with
  | None => PlainDETRTransformer.forward_pre_upsample ops m src src_mask = None
  | Some layers =>
      if (length layers =? 0)%nat
      then PlainDETRTransformer.forward_pre_upsample ops m src src_mask = None
      else exists out,
             PlainDETRTransformer.forward_pre_upsample ops m src src_mask = Some out /\
             well_keyed m (length layers) out
  end.
Proof.
  unfold PlainDETRTransformer.forward_pre_upsample.
  destruct (decoder_layers m) as [layers|]; [|reflexivity].
  cbv zeta.
  match goal with
  | |- context [fold_left (PlainDETRTransformer.decoder_step ops m ?s ?k ?p ?a) ?items ?st] =>
      pose proof (decoder_loop_lengths m s k p a items st) as Hdec;
      cbv zeta in Hdec;
      revert Hdec;
      generalize (fold_left (PlainDETRTransformer.decoder_step ops m s k p a) items st)
  end.
  intros [[[output ref_point] outputs] ref_points]. cbn [fst snd].
  rewrite length_combine, length_seq, Nat.min_id. cbn [length]. intros [Ho Hr].
  set (items := combine (removelast ref_points) outputs).
  assert (Li : length items = length layers).
  { unfold items. rewrite length_combine, length_removelast. lia. }
  set (u := (0 <? num_queries_one2many m)%nat && is_train m).
  pose proof (head_loop_lengths m u (combine (seq 0 (length items)) items) ([], [], [], []))
    as Hhead.
  cbv zeta in Hhead. revert Hhead.
  generalize (fold_left (PlainDETRTransformer.head_step ops m u)
                        (combine (seq 0 (length items)) items) ([], [], [], [])).
  intros [[[c1 b1] cm] bm]. cbn [fst snd length].
  rewrite length_combine, length_seq, Nat.min_id, Li. cbn [Nat.add].
  intros (H1 & H2 & H3 & H4).
  destruct (Nat.eqb_spec (length layers) 0) as [E0|Hpos].
  - rewrite (last_opt_empty (map (to_batch_major ops) c1))
      by (rewrite length_map; lia).
    reflexivity.
  - destruct (last_opt_nonempty (map (to_batch_major ops) c1)) as [logits ->];
      [rewrite length_map; lia|].
    destruct (last_opt_nonempty (map (to_batch_major ops) b1)) as [boxes ->];
      [rewrite length_map; lia|].
    assert (Haux : forall a b : list (list Tensor),
              length a = length layers -> length b = length layers ->
              length (set_aux_loss (map (to_batch_major ops) a) (map (to_batch_major ops) b)) =
              (length layers - 1)%nat).
    { intros a b Ha Hb. unfold set_aux_loss.
      rewrite length_combine, !length_removelast, !length_map. lia. }
    unfold well_keyed. fold u. destruct u.
    + destruct (last_opt_nonempty (map (to_batch_major ops) cm)) as [lm ->];
        [rewrite length_map; lia|].
      destruct (last_opt_nonempty (map (to_batch_major ops) bm)) as [bxm ->];
        [rewrite length_map; lia|].
      eexists. split; [reflexivity|]. cbn [aux_outputs pred_logits_one2many
        pred_boxes_one2many aux_outputs_one2many].
      destruct (return_intermediate m).
      * split; [eexists; split; [reflexivity | apply Haux; assumption]|].
        split; [discriminate|]. split; [discriminate|].
        eexists; split; [reflexivity | apply Haux; assumption].
      * split; [reflexivity|]. split; [discriminate|]. split; [discriminate|]. reflexivity.
    + eexists. split; [reflexivity|]. cbn [aux_outputs pred_logits_one2many
        pred_boxes_one2many aux_outputs_one2many].
      destruct (return_intermediate m).
      * split; [eexists; split; [reflexivity | apply Haux; assumption]|]. auto.
      * auto.
Qed.

(** The tensor operations and the layers being total in this model, that is
    as long as none of them raises, [forward_pre_upsample] raises exactly
    when the model has no decoder layer: [decoder_layers] is None (enumerate
    of None) or empty (stack of an empty list). *)
Theorem forward_pre_upsample_raises_iff
    (m : Model Tensor) (src : Tensor) (src_mask : option Tensor) :
  PlainDETRTransformer.forward_pre_upsample ops m src src_mask = None <->
  (decoder_layers m = None \/ decoder_layers m = Some []).
Proof.
  pose proof (forward_pre_upsample_cases m src src_mask) as H.
  destruct (decoder_layers m) as [layers|]; [|split; auto].
  destruct layers as [|l layers]; simpl in H.
  - split; auto.
  - destruct H as (out & -> & _). split; [discriminate|].
    intros [E|E]; discriminate.
Qed.

(** With at least one decoder layer [forward_pre_upsample] returns a
    dictionary in which [aux_outputs] is present exactly when
    [return_intermediate] is set and then has one entry per decoder layer but
    the last, and the three one2many keys are present exactly in training
    with a positive number of one2many queries ([aux_outputs_one2many] again
    only with [return_intermediate], with the same number of entries). *)
Theorem forward_pre_upsample_keys
    (m : Model Tensor) (src : Tensor) (src_mask : option Tensor) layers :
  decoder_layers m = Some layers -> layers <> [] ->
  exists out,
    PlainDETRTransformer.forward_pre_upsample ops m src src_mask = Some out /\
    well_keyed m (length layers) out.
Proof.
  intros Hl Hne. pose proof (forward_pre_upsample_cases m src src_mask) as H.
  rewrite Hl in H. destruct layers as [|l layers]; [contradiction|]. exact H.
Qed.

Lemma head_step_post_same (m : Model Tensor) use_one2many items st :
  use_one2many = false \/ num_queries_one2one m = num_queries_one2many m ->
  fold_left (PlainDETRTransformer.head_step_post ops m use_one2many) items st =
  fold_left (PlainDETRTransformer.head_step ops m use_one2many) items st.
Proof.
  intros H. revert st. induction items as [|item items IH]; intros st; simpl; [reflexivity|].
  rewrite IH. f_equal.
  unfold PlainDETRTransformer.head_step_post, PlainDETRTransformer.head_step.
  destruct H as [-> | ->]; reflexivity.
Qed.

(** Without an upsample layer, and when one2many queries are not in use or
    the two query counts coincide, [forward] returns the same dictionary
    whatever [upsample_first] is. *)
Theorem forward_upsample_first_irrelevant
    (m : Model Tensor) (src : Tensor) (src_mask : option Tensor) :
  upsample_layer m = None ->
  ((0 <? num_queries_one2many m)%nat && is_train m = false \/
   num_queries_one2one m = num_queries_one2many m) ->
  PlainDETRTransformer.forward ops unflatten m true src src_mask =
  PlainDETRTransformer.forward ops unflatten m false src src_mask.
Proof.
  intros Hup H.
  unfold PlainDETRTransformer.forward, PlainDETRTransformer.forward_pre_upsample,
         PlainDETRTransformer.forward_post_upsample.
  rewrite Hup. cbv zeta. cbn [fst snd].
  destruct (decoder_layers m) as [layers|]; [|reflexivity].
  rewrite head_step_post_same by exact H. reflexivity.
Qed.

End Paths.

(** The instance of [toy_model] used outside training. *)
Definition toy_model_eval : Model (list nat) :=
  mkModel (list nat) false 1 2 true None None
          (Some [fun output _ _ _ _ _ => output; fun output _ _ _ _ _ => output])
          (fun x => x) [[10]]%nat [[1]]%nat
          [fun x => x; fun x => x] [fun x => x; fun x => x].

Lemma forward_pre_upsample_keys_witness :
  exists out,
    PlainDETRTransformer.forward_pre_upsample toy_ops toy_model [7%nat] None = Some out /\
    well_keyed (list nat) toy_model 1 out.
Proof.
  exact (forward_pre_upsample_keys (list nat) toy_ops toy_model [7%nat] None
           [fun output _ _ _ _ _ => output] eq_refl ltac:(discriminate)).
Defined.

Lemma forward_upsample_first_irrelevant_witness :
  PlainDETRTransformer.forward toy_ops (fun t _ => t) toy_model_eval true [7%nat] None =
  PlainDETRTransformer.forward toy_ops (fun t _ => t) toy_model_eval false [7%nat] None.
Proof.
  exact (forward_upsample_first_irrelevant (list nat) toy_ops (fun t _ => t) toy_model_eval
           [7%nat] None eq_refl (or_introl eq_refl)).
Defined.

Lemma forward_pre_upsample_same_witness :
  BackupPlainDETRTransformer.forward_pre_upsample toy_ops toy_model_eval [7%nat] None =
  PlainDETRTransformer.forward_pre_upsample toy_ops toy_model_eval [7%nat] None.
Proof.
  exact (forward_pre_upsample_same (list nat) toy_ops toy_model_eval [7%nat] None
           (or_introl eq_refl)).
Defined.


End Transformer.

(* ================================================================== *)
(** ** Path-aggregation neck (models/neck/fpn.py, class PaFPN) *)
(* ================================================================== *)

Module PaFPN.

Section FPN.

Variable Feat : Type.
(** [nn.Conv2d(in, out, kernel_size, stride)], the last argument naming the layer. *)
Variable conv2d : nat -> nat -> nat -> nat -> nat -> Feat -> Feat.
Variable interpolate : Feat -> Feat -> Feat.
Variable add : Feat -> Feat -> Feat.

Record t : Type := mkFPN {
  p6_feat : bool;
  p7_feat : bool;
  num_fpn_feats : nat;
  input_projs : list (Feat -> Feat);
  p6_layer : option (Feat -> Feat);
  p7_layer : option (Feat -> Feat);
  top_down_smooth_layers : list (Feat -> Feat);
  bottom_up_smooth_layers : list (Feat -> Feat);
  bottom_up_downsample_layers : list (Feat -> Feat)
}.

(** [__init__]; [from_p5] is accepted and not used.  [None] where
    [in_dims[-1]] raises IndexError (an empty [in_dims] with [p6_feat]). *)
Definition init (in_dims : list nat) (out_dim : nat) (p6 p7 from_p5 : bool)
    : option t :=
  let n := length in_dims in
  let num_fpn_feats := (n + (if p6 then 1 else 0) + (if p7 then 1 else 0))%nat in
  let input_projs :=
    map (fun kd => if (snd kd =? out_dim)%nat then (fun x => x)
                   else conv2d (snd kd) out_dim 1 1 (fst kd))
        (combine (seq 0 n) in_dims) in
  let rest (p6_layer : option (Feat -> Feat)) :=
    mkFPN p6 p7 num_fpn_feats input_projs p6_layer
      (if p7 then Some (conv2d out_dim out_dim 3 1 (n + 1)) else None)
      (map (fun i => conv2d out_dim out_dim 3 1 (n + 2 + i)) (seq 0 num_fpn_feats))
      (map (fun i => conv2d out_dim out_dim 3 1 (n + 2 + num_fpn_feats + i))
           (seq 0 num_fpn_feats))
      (map (fun i => conv2d out_dim out_dim 3 2 (n + 2 + 2 * num_fpn_feats + i))
           (seq 1 (num_fpn_feats - 1))) in
  if p6 then
    match rev in_dims with
    | [] => None
    | c5 :: _ => Some (rest (Some (conv2d c5 out_dim 3 1 n)))
    end
  else Some (rest None).

(** One turn of the top-down loop on (prev_feat, inter_feats). *)
Definition top_down_step (st : Feat * list Feat) (item : Feat * (Feat -> Feat))
    : Feat * list Feat :=
  let feat := fst item in
  let smooth := snd item in
  let top_down_feat := interpolate (fst st) feat in
  let prev_feat := add feat top_down_feat in
  (prev_feat, smooth prev_feat :: snd st).

(** One turn of the bottom-up loop on (prev_feat, out_feats). *)
Definition bottom_up_step (st : Feat * list Feat)
    (item : Feat * (Feat -> Feat) * (Feat -> Feat)) : Feat * list Feat :=
  let inter_feat := fst (fst item) in
  let smooth := snd (fst item) in
  let downsample := snd item in
  let bottom_up_feat := downsample (fst st) in
  let prev_feat := add inter_feat bottom_up_feat in
  (prev_feat, snd st ++ [smooth prev_feat]).

(** [forward]; [None] where the code raises IndexError on an empty list. *)
Definition forward (fpn : t) (feats : list Feat) : option (list Feat) :=
  let in_feats := map (fun fl => snd fl (fst fl)) (combine feats (input_projs fpn)) in
  (* top down fpn *)
  let in_feats := rev in_feats in
  match in_feats, top_down_smooth_layers fpn with
  | top_level_feat :: in_tl, smooth0 :: td_tl =>
      let prev_feat := top_level_feat in
      let st := fold_left top_down_step (combine in_tl td_tl) (prev_feat, [smooth0 prev_feat]) in
      let inter_feats := snd st in
      (* bottom up fpn *)
      match inter_feats, bottom_up_smooth_layers fpn with
      | bottom_level_feat :: inter_tl, bu0 :: bu_tl =>
          let prev_feat := bottom_level_feat in
          let st :=
            fold_left bottom_up_step
                      (BasicFPN.zip3 inter_tl bu_tl (bottom_up_downsample_layers fpn))
                      (prev_feat, [bu0 prev_feat]) in
          Some (snd st)
      | _, _ => None
      end
  | _, _ => None
  end.

Lemma top_down_length items st :
  length (snd (fold_left top_down_step items st)) = (length (snd st) + length items)%nat.
Proof.
  revert st. induction items as [|it items IH]; intros st; simpl; [lia|].
  rewrite IH. unfold top_down_step; simpl. lia.
Qed.

Lemma bottom_up_length items st :
  length (snd (fold_left bottom_up_step items st)) = (length (snd st) + length items)%nat.
Proof.
  revert st. induction items as [|it items IH]; intros st; simpl; [lia|].
  rewrite IH. unfold bottom_up_step; simpl. rewrite length_app. simpl. lia.
Qed.

(** [PaFPN.forward] returns one output per input feature map, whatever
    [p6_feat] and [p7_feat] are: the P6 and P7 layers that [__init__] creates
    are never applied. *)
Theorem forward_length (in_dims : list nat) (out_dim : nat) (p6 p7 from_p5 : bool)
    (feats : list Feat) :
  in_dims <> [] -> length feats = length in_dims ->
  exists fpn outs,
    init in_dims out_dim p6 p7 from_p5 = Some fpn /\
    forward fpn feats = Some outs /\
    length outs = length in_dims.
Proof.
  intros Hne Hlen.
  assert (Hn : (1 <= length in_dims)%nat) by (destruct in_dims; [contradiction | simpl; lia]).
  assert (Hrev : exists c5 tl, rev in_dims = c5 :: tl).
  { destruct (rev in_dims) as [|c5 tl] eqn:E; [|eauto].
    apply (f_equal (@length nat)) in E. rewrite length_rev in E. simpl in E. lia. }
  destruct Hrev as (c5 & tl & Hrev).
  set (n := length in_dims) in *.
  set (nf := (n + (if p6 then 1 else 0) + (if p7 then 1 else 0))%nat).
  assert (Hinit : exists fpn,
            init in_dims out_dim p6 p7 from_p5 = Some fpn /\
            length (input_projs fpn) = n /\
            length (top_down_smooth_layers fpn) = nf /\
            length (bottom_up_smooth_layers fpn) = nf /\
            length (bottom_up_downsample_layers fpn) = (nf - 1)%nat).
  { unfold init. rewrite Hrev. fold n. fold nf.
    destruct p6; eexists; (split; [reflexivity|]); cbn [input_projs top_down_smooth_layers
      bottom_up_smooth_layers bottom_up_downsample_layers];
      rewrite !length_map, length_combine, !length_seq; fold n;
      rewrite Nat.min_id; auto. }
  destruct Hinit as (fpn & Hfpn & Lp & Ltd & Lbu & Lbd).
  exists fpn.
  assert (Hnf : (n <= nf)%nat) by (unfold nf; lia).
  unfold forward.
  set (in_feats := rev (map (fun fl => snd fl (fst fl)) (combine feats (input_projs fpn)))).
  assert (Lin : length in_feats = n).
  { unfold in_feats. rewrite length_rev, length_map, length_combine, Hlen, Lp.
    apply Nat.min_id. }
  destruct in_feats as [|top in_tl]; [simpl in Lin; lia|].
  destruct (top_down_smooth_layers fpn) as [|s0 td_tl]; [simpl in Ltd; lia|].
  set (inter := snd (fold_left top_down_step (combine in_tl td_tl) (top, [s0 top]))).
  assert (Linter : length inter = n).
  { unfold inter. rewrite top_down_length, length_combine. simpl in *. lia. }
  destruct inter as [|bottom inter_tl]; [simpl in Linter; lia|].
  destruct (bottom_up_smooth_layers fpn) as [|bu0 bu_tl]; [simpl in Lbu; lia|].
  eexists. split; [exact Hfpn|]. split; [reflexivity|].
  rewrite bottom_up_length. unfold BasicFPN.zip3. rewrite !length_combine, Lbd.
  simpl in *. lia.
Qed.

End FPN.

Arguments forward {Feat} interpolate add fpn feats.
Arguments init {Feat} conv2d in_dims out_dim p6 p7 from_p5.

Lemma forward_length_witness :
  let conv2d := fun (cin cout k s layer : nat) (x : list nat) => layer :: x in
  let interpolate := fun (x like : list nat) => 200%nat :: x in
  let add := fun (a b : list nat) => a ++ b in
  exists fpn outs,
    init conv2d [512; 1024]%nat 256 true true false = Some fpn /\
    forward interpolate add fpn [[3]; [4]]%nat = Some outs /\
    length outs = 2%nat.
Proof.
  intros conv2d interpolate add.
  exact (forward_length (list nat) conv2d interpolate add [512; 1024]%nat 256 true true false
           [[3]; [4]]%nat ltac:(discriminate) eq_refl).
Defined.

End PaFPN.

(* ================================================================== *)
(** ** Reference-point update (models/transformer/transformer.py,
       [inverse_sigmoid] and the iterative update of the decoder loop),
       one tensor entry at a time, over the real numbers *)
(* ================================================================== *)

Module RefPoint.

Local Open Scope R_scope.

(** [x.clamp(min=lo)]. *)
Definition clamp_min (x lo : R) : R := Rmax x lo.

(** [x.clamp(min=lo, max=hi)]. *)
Definition clamp (x lo hi : R) : R := Rmin (Rmax x lo) hi.

Definition eps : R := 1 / 100000.

Definition inverse_sigmoid (x : R) : R :=
  let x := clamp x 0 1 in
  ln (clamp_min x eps / clamp_min (1 - x) eps).

Definition sigmoid (y : R) : R := 1 / (1 + exp (- y)).

(** [new_ref_point = (tmp + self.inverse_sigmoid(ref_point)).sigmoid()]. *)
Definition update_ref_point (tmp ref_point : R) : R :=
  sigmoid (tmp + inverse_sigmoid ref_point).

Lemma eps_pos : 0 < eps.
Proof. unfold eps. lra. Qed.

Lemma clamp_bounds (x : R) : 0 <= clamp x 0 1 <= 1.
Proof.
  unfold clamp. unfold Rmin, Rmax.
  destruct (Rle_dec x 0); destruct (Rle_dec _ 1); lra.
Qed.

Lemma clamp_min_bounds (c : R) : c <= 1 -> eps <= clamp_min c eps <= 1.
Proof.
  intros H. unfold clamp_min, Rmax, eps in *. destruct (Rle_dec c (1 / 100000)); lra.
Qed.

(** [sigmoid] undoes [inverse_sigmoid] on [1e-5, 1 - 1e-5]; so a zero
    offset, as produced by the zero-initialised last layer of [bbox_embed],
    leaves such a reference point where it is. *)
Theorem sigmoid_inverse_sigmoid (x : R) :
  eps <= x <= 1 - eps ->
  sigmoid (inverse_sigmoid x) = x /\ update_ref_point 0 x = x.
Proof.
  intros [Hlo Hhi]. pose proof eps_pos as He.
  assert (E : sigmoid (inverse_sigmoid x) = x).
  { unfold sigmoid, inverse_sigmoid, clamp, clamp_min.
    cbv zeta.
    replace (Rmin (Rmax x 0) 1) with x
      by (unfold Rmin, Rmax; destruct (Rle_dec x 0); destruct (Rle_dec _ 1); lra).
    rewrite (Rmax_left x eps) by lra.
    rewrite (Rmax_left (1 - x) eps) by lra.
    assert (Hx : 0 < x) by lra. assert (H1x : 0 < 1 - x) by lra.
    assert (Hq : 0 < x / (1 - x)) by (apply Rdiv_lt_0_compat; assumption).
    rewrite exp_Ropp, exp_ln by exact Hq.
    field. split; lra. }
  split; [exact E|]. unfold update_ref_point. rewrite Rplus_0_l. exact E.
Qed.

Lemma sigmoid_inverse_sigmoid_witness :
  sigmoid (inverse_sigmoid (1 / 2)) = 1 / 2 /\ update_ref_point 0 (1 / 2) = 1 / 2.
Proof.
  apply (sigmoid_inverse_sigmoid (1 / 2)). unfold eps. lra.
Defined.

(** Whatever its argument, [inverse_sigmoid] returns a value between
    [-ln 1e5] and [ln 1e5], and it is odd about 1/2. *)
Theorem inverse_sigmoid_bounded (x : R) :
  - ln 100000 <= inverse_sigmoid x <= ln 100000 /\
  inverse_sigmoid (1 - x) = - inverse_sigmoid x.
Proof.
  pose proof eps_pos as He.
  assert (Hb : forall n d, eps <= n <= 1 -> eps <= d <= 1 ->
                 - ln 100000 <= ln (n / d) <= ln 100000).
  { intros n d [Hn1 Hn2] [Hd1 Hd2].
    assert (Hn : 0 < n) by lra. assert (Hd : 0 < d) by lra.
    assert (Hlow : 1 / 100000 <= n / d).
    { apply (Rmult_le_reg_r d); [exact Hd|].
      unfold Rdiv at 2. rewrite Rmult_assoc, Rinv_l by lra. unfold eps in *. nra. }
    assert (Hhigh : n / d <= 100000).
    { apply (Rmult_le_reg_r d); [exact Hd|].
      unfold Rdiv. rewrite Rmult_assoc, Rinv_l by lra. unfold eps in *. nra. }
    assert (Hq : 0 < n / d) by (apply Rdiv_lt_0_compat; assumption).
    split.
    - replace (- ln 100000) with (ln (1 / 100000)).
      + destruct Hlow as [Hlt|Heq]; [left; apply ln_increasing; lra | right; now rewrite Heq].
      + unfold Rdiv. rewrite Rmult_1_l, ln_Rinv by lra. reflexivity.
    - destruct Hhigh as [Hlt|Heq]; [left; apply ln_increasing; lra | right; now rewrite Heq]. }
  pose proof (clamp_bounds x) as Hc.
  split.
  - unfold inverse_sigmoid. cbv zeta.
    apply Hb; apply clamp_min_bounds; lra.
  - assert (Ec : clamp (1 - x) 0 1 = 1 - clamp x 0 1).
    { unfold clamp, Rmin, Rmax.
      destruct (Rle_dec (1 - x) 0); destruct (Rle_dec x 0);
        repeat match goal with |- context [Rle_dec ?a ?b] => destruct (Rle_dec a b) end;
        lra. }
    unfold inverse_sigmoid. cbv zeta. rewrite Ec.
    replace (1 - (1 - clamp x 0 1)) with (clamp x 0 1) by lra.
    set (c := clamp x 0 1) in *.
    pose proof (clamp_min_bounds c ltac:(lra)) as Hn.
    pose proof (clamp_min_bounds (1 - c) ltac:(lra)) as Hd.
    rewrite <- ln_Rinv.
    + f_equal. field. split; lra.
    + apply Rdiv_lt_0_compat; lra.
Qed.

End RefPoint.

(* ================================================================== *)
(** ** Builders ([build_matcher] of models/detectors/yolofv2/matcher.py,
       [build_model] of models/detectors/__init__.py) *)
(* ================================================================== *)

Module Build.

Import String.
Local Open Scope string_scope.

Local Unset Elimination Schemes.

(** The values a configuration dictionary holds. *)
Inductive pyval : Type :=
| PStr (s : string)
| PInt (n : Z)
| PNone
| PDict (d : list (string * pyval)).

Local Set Elimination Schemes.

Inductive exn : Type :=
| KeyError (key : string)
| TypeError
| UnboundLocalError
| AttributeError
| NotImplementedError.

Definition dict : Type := list (string * pyval).

Fixpoint lookup (key : string) (d : dict) : option pyval :=
  match d with
  | [] => None
  | (k, v) :: d' => if String.eqb k key then Some v else lookup key d'
  end.

(** [d[key]] on a dictionary. *)
Definition getitem (d : dict) (key : string) : exn + pyval :=
  match lookup key d with
  | Some v => inr v
  | None => inl (KeyError key)
  end.

(** [v[key]] on any value, for a string key. *)
Definition subscript (v : pyval) (key : string) : exn + pyval :=
  match v with
  | PDict d => getitem d key
  | _ => inl TypeError
  end.

(** [v == s] for a string literal [s]. *)
Definition eq_str (v : pyval) (s : string) : bool :=
  match v with
  | PStr t => String.eqb t s
  | _ => false
  end.

Inductive matcher : Type :=
| SimOTAMatcher (num_classes : nat) (topk_candidate : pyval)
| HungarianMatcher (num_classes : nat).

Definition build_matcher (cfg : dict) (num_classes : nat) : exn + matcher :=
  match getitem cfg "matcher_hpy" with
  | inl e => inl e
  | inr matcher_cfg =>
      match getitem cfg "matcher" with
      | inl e => inl e
      | inr name =>
          if eq_str name "simota" then
            match subscript matcher_cfg "topk_candidate" with
            | inl e => inl e
            | inr topk => inr (SimOTAMatcher num_classes topk)
            end
          else if eq_str name "hungarian" then inr (HungarianMatcher num_classes)
          else inl UnboundLocalError
      end
  end.

Lemma eq_str_true (v : pyval) (s : string) : eq_str v s = true <-> v = PStr s.
Proof.
  destruct v; simpl; try (split; [discriminate | intros E; discriminate]).
  rewrite String.eqb_eq. split; [intros ->; reflexivity | intros E; now injection E].
Qed.

(** [build_matcher] returns a matcher exactly for a configuration that has
    the key 'matcher_hpy' and whose 'matcher' is 'simota', with a dictionary
    under 'matcher_hpy' that has the key 'topk_candidate', or 'hungarian';
    without 'matcher_hpy' it raises KeyError, also for 'hungarian'; with any
    other 'matcher' it raises UnboundLocalError. *)
Theorem build_matcher_result (cfg : dict) (num_classes : nat) :
  (forall m, build_matcher cfg num_classes = inr m <->
     exists hpy, lookup "matcher_hpy" cfg = Some hpy /\
       ((lookup "matcher" cfg = Some (PStr "simota") /\
         exists d topk, hpy = PDict d /\ lookup "topk_candidate" d = Some topk /\
                        m = SimOTAMatcher num_classes topk) \/
        (lookup "matcher" cfg = Some (PStr "hungarian") /\
         m = HungarianMatcher num_classes))) /\
  (lookup "matcher_hpy" cfg = None ->
   build_matcher cfg num_classes = inl (KeyError "matcher_hpy")) /\
  (forall hpy name, lookup "matcher_hpy" cfg = Some hpy -> lookup "matcher" cfg = Some name ->
     name <> PStr "simota" -> name <> PStr "hungarian" ->
     build_matcher cfg num_classes = inl UnboundLocalError).
Proof.
  unfold build_matcher, getitem. split; [|split].
  - intros m. destruct (lookup "matcher_hpy" cfg) as [hpy|].
    2:{ split; [discriminate | intros (h & E & _); discriminate]. }
    destruct (lookup "matcher" cfg) as [name|].
    2:{ split; [discriminate|]. intros (h & _ & [[E _]|[E _]]); discriminate. }
    destruct (eq_str name "simota") eqn:Es.
    + apply eq_str_true in Es. subst name.
      destruct hpy as [s|n| |d]; simpl;
        try (split; [discriminate|];
             intros (h & Eh & [(_ & d' & topk & Ed & _)|[E _]]);
             [injection Eh as <-; discriminate | discriminate]).
      unfold getitem. destruct (lookup "topk_candidate" d) as [topk|] eqn:Et.
      * split.
        -- intros E. injection E as <-. exists (PDict d). split; [reflexivity|].
           left. split; [reflexivity|]. exists d, topk. auto.
        -- intros (h & Eh & [(_ & d' & topk' & Ed & Et' & ->)|[E _]]); [|discriminate].
           injection Eh as <-. injection Ed as <-. rewrite Et in Et'.
           injection Et' as <-. reflexivity.
      * split; [discriminate|].
        intros (h & Eh & [(_ & d' & topk' & Ed & Et' & _)|[E _]]); [|discriminate].
        injection Eh as <-. injection Ed as <-. rewrite Et in Et'. discriminate.
    + destruct (eq_str name "hungarian") eqn:Eh.
      * apply eq_str_true in Eh. subst name. split.
        -- intros E. injection E as <-. exists hpy. split; [reflexivity|]. right. auto.
        -- intros (h & _ & [[E _]|[_ ->]]); [discriminate | reflexivity].
      * split; [discriminate|].
        intros (h & _ & [[E _]|[E _]]); injection E as ->; simpl in *; discriminate.
  - intros ->. reflexivity.
  - intros hpy name -> -> Hs Hh.
    destruct (eq_str name "simota") eqn:Es; [apply eq_str_true in Es; contradiction|].
    destruct (eq_str name "hungarian") eqn:Eh; [apply eq_str_true in Eh; contradiction|].
    reflexivity.
Qed.

(** [sub in s]. *)
Definition contains (sub s : string) : bool :=
  match index 0 sub s with
  | Some _ => true
  | None => false
  end.

Record Args : Type := mkArgs {
  model : string;
  resume : option string
}.

Section BuildModel.

Variables Cfg Model Criterion : Type.
Variables build_fcos_rt build_fcos build_yolof : Cfg -> bool -> Model * Criterion.
(** [torch.load(path, map_location='cpu')], [checkpoint.pop("model")] and
    [model.load_state_dict(...)]. *)
Variable load_checkpoint : Model -> string -> Model.

(** [build_model]; the second component is [None] when only the model is
    returned. *)
Definition build_model (args : Args) (cfg : Cfg) (is_val : bool)
    : exn + (Model * option Criterion) :=
  let built :=
    if contains "fcos_rt" (model args) then inr (build_fcos_rt cfg is_val)
    else if contains "fcos" (model args) then inr (build_fcos cfg is_val)
    else if contains "yolof" (model args) then inr (build_yolof cfg is_val)
    else (* "Unknown detector: {}".args.model *) inl AttributeError in
  match built with
  | inl e => inl e
  | inr (model, criterion) =>
      if is_val then
        let model :=
          match resume args with
          | Some path => load_checkpoint model path
          | None => model
          end in
        inr (model, Some criterion)
      else inr (model, None)
  end.

Lemma substring_prefix (m a b : nat) (s : string) :
  substring 0 a (substring m (a + b) s) = substring m a s.
Proof.
  revert s. induction m as [|m IHm]; intros s.
  - revert s. induction a as [|a IHa]; intros s.
    + destruct (substring 0 (0 + b) s); destruct s; reflexivity.
    + destruct s as [|c s]; [reflexivity|]. simpl. f_equal. apply IHa.
  - destruct s as [|c s].
    + destruct a; reflexivity.
    + simpl. apply IHm.
Qed.

Lemma contains_fcos_rt_fcos (s : string) :
  contains "fcos_rt" s = true -> contains "fcos" s = true.
Proof.
  unfold contains. destruct (index 0 "fcos_rt" s) as [m|] eqn:E1; [intros _|discriminate].
  destruct (index 0 "fcos" s) as [k|] eqn:E2; [reflexivity|]. exfalso.
  apply index_correct1 in E1.
  apply (index_correct3 0 m) in E2; [|discriminate|apply Nat.le_0_l].
  apply E2. change (String.length "fcos") with 4%nat.
  rewrite <- (substring_prefix m 4 3 s).
  change (4 + 3)%nat with (String.length "fcos_rt"). rewrite E1. reflexivity.
Qed.

(** [build_model] never raises NotImplementedError: a model name that
    contains neither 'fcos' nor 'yolof' raises AttributeError, and every other
    name builds a detector.  The checkpoint named by [args.resume] is loaded
    only when [is_val] is set, and the criterion is returned only then. *)
Theorem build_model_result (args : Args) (cfg : Cfg) (is_val : bool) :
  build_model args cfg is_val <> inl NotImplementedError /\
  (build_model args cfg is_val = inl AttributeError <->
   contains "fcos" (model args) = false /\ contains "yolof" (model args) = false) /\
  ((contains "fcos" (model args) = true \/ contains "yolof" (model args) = true) ->
   exists m c, build_model args cfg is_val = inr (m, c) /\
               (c = None <-> is_val = false) /\
               (is_val = false ->
                m = fst (if contains "fcos_rt" (model args) then build_fcos_rt cfg false
                         else if contains "fcos" (model args) then build_fcos cfg false
                         else build_yolof cfg false))).
Proof.
  unfold build_model. cbv zeta.
  pose proof (contains_fcos_rt_fcos (model args)) as Hrt.
  destruct (contains "fcos_rt" (model args)) eqn:E1.
  - rewrite (Hrt eq_refl).
    destruct (build_fcos_rt cfg is_val) as [m c] eqn:Eb.
    destruct is_val; (split; [discriminate|]); (split; [split; [discriminate | intros [? _]; discriminate]|]);
      intros _; eexists; eexists; (split; [reflexivity|]).
    + split; [split; discriminate | discriminate].
    + split; [split; reflexivity|]. intros _. now rewrite Eb.
  - destruct (contains "fcos" (model args)) eqn:E2.
    + destruct (build_fcos cfg is_val) as [m c] eqn:Eb.
      destruct is_val; (split; [discriminate|]); (split; [split; [discriminate | intros [? _]; discriminate]|]);
        intros _; eexists; eexists; (split; [reflexivity|]).
      * split; [split; discriminate | discriminate].
      * split; [split; reflexivity|]. intros _. now rewrite Eb.
    + destruct (contains "yolof" (model args)) eqn:E3.
      * destruct (build_yolof cfg is_val) as [m c] eqn:Eb.
        destruct is_val; (split; [discriminate|]); (split; [split; [discriminate | intros [_ ?]; discriminate]|]);
          intros _; eexists; eexists; (split; [reflexivity|]).
        -- split; [split; discriminate | discriminate].
        -- split; [split; reflexivity|]. intros _. now rewrite Eb.
      * split; [discriminate|]. split; [split; auto|].
        intros [?|?]; discriminate.
Qed.

End BuildModel.

End Build.
